(** * The xv6 buffer cache (kernel/bio.c), hashed-bucket variant with
      timestamp eviction

    A shallow embedding of [bio.c]: the pool [bcache.buf], the bucket table
    [bhashmap], and the operations [binit], [bget], [bread], [bwrite],
    [brelse], [bpin] and [bunpin], followed by the properties the
    specification states about them. *)

From Stdlib Require Import ZArith String Strings.Byte Lia.
From stdpp Require Import base numbers list.

Open Scope Z_scope.

(** ** Machine integers *)

(** [uint] is a 32-bit unsigned integer; arithmetic on it wraps around. *)
Definition UINT_MAX : Z := 0xFFFFFFFF.
Definition to_uint (z : Z) : Z := z mod 2 ^ 32.

(** ** Data model *)

(** [#define MODNUM 19] *)
Definition MODNUM : nat := 19.

(** [struct buf].  A [struct buf *] is the index of the slot in
    [bcache.buf]; the null pointer is [None].  The [prev]/[next] links of the
    circular bucket lists are represented by the bucket lists themselves (see
    [bhashmap] below), and the field [disk], which only the disk driver
    touches, is left out.  [lock] is the sleep-lock: [Some pid] when process
    [pid] holds it. *)
Record buf := Buf {
  valid : Z;
  dev : Z;
  blockno : Z;
  lock : option Z;
  refcnt : Z;
  timestamp : Z;
  data : list byte
}.

Definition set_valid (v : Z) (b : buf) : buf :=
  Buf v (dev b) (blockno b) (lock b) (refcnt b) (timestamp b) (data b).
Definition set_dev (d : Z) (b : buf) : buf :=
  Buf (valid b) d (blockno b) (lock b) (refcnt b) (timestamp b) (data b).
Definition set_blockno (n : Z) (b : buf) : buf :=
  Buf (valid b) (dev b) n (lock b) (refcnt b) (timestamp b) (data b).
Definition set_lock (l : option Z) (b : buf) : buf :=
  Buf (valid b) (dev b) (blockno b) l (refcnt b) (timestamp b) (data b).
Definition set_refcnt (r : Z) (b : buf) : buf :=
  Buf (valid b) (dev b) (blockno b) (lock b) r (timestamp b) (data b).
Definition set_timestamp (t : Z) (b : buf) : buf :=
  Buf (valid b) (dev b) (blockno b) (lock b) (refcnt b) t (data b).
Definition set_data (d : list byte) (b : buf) : buf :=
  Buf (valid b) (dev b) (blockno b) (lock b) (refcnt b) (timestamp b) d.

(** A zero-filled [struct buf], as found in the kernel's BSS. *)
Definition zero_buf (bsize : nat) : buf :=
  Buf 0 0 0 None 0 0 (replicate bsize x00).

#[global] Instance buf_inhabited : Inhabited buf := populate (zero_buf 0).

(** The spin-locks of the file. *)
Inductive spinlock :=
  | bcache_lock_del
  | hash_lock (i : nat)
  | hash_lock_add (i : nat)
  | tickslock.

(** What an operation does that other parts of the kernel can observe:
    taking and dropping spin-locks, and block transfers. *)
Inductive event :=
  | EvAcquire (l : spinlock)
  | EvRelease (l : spinlock)
  | EvTransfer (b : nat) (write : bool).

(** The kernel state the file works on: the pool [bcache.buf], the table
    [bhashmap] (bucket [i] lists the slots linked from [bhashmap[i].list],
    starting at [list.next]), the clock [ticks], the disk, and the events so
    far, oldest first. *)
Record state := State {
  bufs : list buf;
  bhashmap : list (list nat);
  ticks : Z;
  disk : Z -> Z -> list byte;
  trace : list event
}.

Definition upd_bufs (f : list buf -> list buf) (s : state) : state :=
  State (f (bufs s)) (bhashmap s) (ticks s) (disk s) (trace s).
Definition upd_bhashmap (f : list (list nat) -> list (list nat)) (s : state) : state :=
  State (bufs s) (f (bhashmap s)) (ticks s) (disk s) (trace s).
Definition upd_disk (f : (Z -> Z -> list byte) -> Z -> Z -> list byte) (s : state) : state :=
  State (bufs s) (bhashmap s) (ticks s) (f (disk s)) (trace s).
Definition log (evs : list event) (s : state) : state :=
  State (bufs s) (bhashmap s) (ticks s) (disk s) (trace s ++ evs).

(** [*b] and [bhashmap[i].list]. *)
Definition slot (s : state) (b : nat) : buf := bufs s !!! b.
Definition bucket (s : state) (i : nat) : list nat := bhashmap s !!! i.

(** [b->field = ...] *)
Definition upd_slot (b : nat) (f : buf -> buf) (s : state) : state :=
  upd_bufs (fun bs => <[b := f (bs !!! b)]> bs) s.

(** ** The monad of kernel code *)

(** A call returns, panics, goes to sleep on a sleep-lock that is taken, or
    (in the model only) uses up the fuel of a retry loop. *)
Inductive outcome (A : Type) :=
  | Ret (a : A) (s : state)
  | Panic (msg : string) (s : state)
  | Sleeping (s : state)
  | OutOfFuel (s : state).
Arguments Ret {A} a s.
Arguments Panic {A} msg s.
Arguments Sleeping {A} s.
Arguments OutOfFuel {A} s.

Definition M (A : Type) : Type := state -> outcome A.

Definition ret {A} (a : A) : M A := fun s => Ret a s.
Definition bind {A B} (m : M A) (k : A -> M B) : M B :=
  fun s =>
    match m s with
    | Ret a s' => k a s'
    | Panic msg s' => Panic msg s'
    | Sleeping s' => Sleeping s'
    | OutOfFuel s' => OutOfFuel s'
    end.
Definition panic {A} (msg : string) : M A := fun s => Panic msg s.
Definition get : M state := fun s => Ret s s.
Definition modify (f : state -> state) : M unit := fun s => Ret tt (f s).

Notation "x <- m ;; k" := (bind m (fun x => k))
  (at level 100, m at next level, right associativity).
Notation "m ;;; k" := (bind m (fun _ => k))
  (at level 100, right associativity).

(** The state an outcome leaves behind. *)
Definition state_of {A} (o : outcome A) : state :=
  match o with
  | Ret _ s | Panic _ s | Sleeping s | OutOfFuel s => s
  end.

(** ** Locks and the disk *)

Definition acquire (l : spinlock) : M unit := modify (log [EvAcquire l]).
Definition release (l : spinlock) : M unit := modify (log [EvRelease l]).

(** Modelled from the spec: the sleep-lock of [sleeplock.c], the "exclusive
    content lock" of a slot.  [initsleeplock] leaves it free, [acquiresleep]
    parks the caller while it is taken and takes it otherwise,
    [holdingsleep] tells whether the calling process is the holder, and
    [releasesleep] frees it. *)
Definition initsleeplock (b : nat) : M unit := modify (upd_slot b (set_lock None)).
Definition acquiresleep (pid : Z) (b : nat) : M unit :=
  fun s =>
    match lock (slot s b) with
    | None => Ret tt (upd_slot b (set_lock (Some pid)) s)
    | Some _ => Sleeping s
    end.
Definition holdingsleep (pid : Z) (b : buf) : bool :=
  bool_decide (lock b = Some pid).
Definition releasesleep (b : nat) : M unit := modify (upd_slot b (set_lock None)).

(** Modelled from the spec: the Block Transfer Port [virtio_disk_rw] of
    [virtio_disk.c].  A write copies the slot's payload to the block
    [(dev, blockno)] of the disk, a read copies that block into the payload;
    either is one transfer. *)
Definition disk_store (d n : Z) (bytes : list byte) (dsk : Z -> Z -> list byte)
  : Z -> Z -> list byte :=
  fun d' n' => if bool_decide (d' = d /\ n' = n) then bytes else dsk d' n'.
Definition virtio_disk_rw (b : nat) (write : bool) : M unit :=
  s <- get;;
  let bf := slot s b in
  (if write
   then modify (upd_disk (disk_store (dev bf) (blockno bf) (data bf)))
   else modify (upd_slot b (set_data (disk s (dev bf) (blockno bf)))));;;
  modify (log [EvTransfer b write]).

(** ** The bucket table *)

Definition bhashgetline (blockno : Z) : nat := Z.to_nat (blockno mod Z.of_nat MODNUM).

(** [bhashadd] links [b] right after the list head. *)
Definition bhashadd (h : nat) (b : nat) : M unit :=
  modify (fun s => upd_bhashmap (fun m => <[h := b :: bucket s h]> m) s).

(** The [for] loop of [bhashget]: the first slot of the list with the
    identity asked for. *)
Fixpoint bhashget_walk (bs : list buf) (l : list nat) (d n : Z) : option nat :=
  match l with
  | [] => None
  | b :: l' =>
      if (dev (bs !!! b) =? d) && (blockno (bs !!! b) =? n)
      then Some b
      else bhashget_walk bs l' d n
  end.
Definition bhashget (h : nat) (d n : Z) : M (option nat) :=
  s <- get;; ret (bhashget_walk (bufs s) (bucket s h) d n).

(** [bhashdel] unlinks [b] from its two neighbours; it does not look at [h],
    so [b] leaves the list it is linked in, whichever that is. *)
Definition unlink (b : nat) (l : list nat) : list nat := filter (fun i => i ≠ b) l.
Definition bhashdel (h : nat) (b : nat) : M unit :=
  modify (upd_bhashmap (fun m => unlink b <$> m)).

(** A [for] loop over a list. *)
Fixpoint mfor {A} (l : list A) (body : A -> M unit) : M unit :=
  match l with
  | [] => ret tt
  | x :: l' => body x;;; mfor l' body
  end.

(** ** The operations *)

Section Pool.

(** [NBUF] of [param.h] and [BSIZE] of [fs.h]. *)
Variable NBUF : nat.
Variable BSIZE : nat.

(** The kernel's zeroed memory before [binit], over a given disk: the clock
    is 0 and the list heads are not yet linked. *)
Definition boot (dsk : Z -> Z -> list byte) : state :=
  State (replicate NBUF (zero_buf BSIZE)) (replicate MODNUM []) 0 dsk [].

Definition binit : M unit :=
  mfor (seq 0 MODNUM) (fun i =>
    modify (upd_bhashmap (fun m => <[i := []]> m)));;;
  mfor (seq 0 NBUF) (fun b =>
    initsleeplock b;;;
    bhashadd 0 b).

End Pool.

(** One step of the inner [while] of the eviction scan: the test on [b] and
    the update of [(lru_b, lru_time)]. *)
Definition scan_slot (bs : list buf) (acc : option nat * Z) (b : nat) : option nat * Z :=
  if (refcnt (bs !!! b) =? 0) && (timestamp (bs !!! b) <? acc.2)
  then (Some b, timestamp (bs !!! b))
  else acc.
Definition scan_bucket (bs : list buf) (acc : option nat * Z) (l : list nat) : option nat * Z :=
  fold_left (scan_slot bs) l acc.

(** The [for] loop over the buckets [ks], each walked under its lock. *)
Fixpoint scan_buckets (ks : list nat) (acc : option nat * Z) : M (option nat * Z) :=
  match ks with
  | [] => ret acc
  | i :: ks' =>
      acquire (hash_lock i);;;
      s <- get;;
      let acc' := scan_bucket (bufs s) acc (bucket s i) in
      release (hash_lock i);;;
      scan_buckets ks' acc'
  end.

(** What other processors do to the state between the scan of round [r] and
    the moment this one holds the candidate's bucket lock again. *)
Definition interference := nat -> state -> state.
Definition quiet : interference := fun _ s => s.

(** The [while (1)] loop of [bget], entered on a miss with [bcache.lock_del]
    and the admission lock of bucket [h] held.  [fuel] bounds the number of
    rounds. *)
Fixpoint bget_evict (fuel : nat) (env : interference) (round : nat)
    (pid : Z) (h : nat) (d n : Z) : M nat :=
  match fuel with
  | O => fun s => OutOfFuel s
  | S fuel' =>
      cand <- scan_buckets (seq 0 MODNUM) (None, UINT_MAX);;
      match cand with
      | (None, _) => panic "bget: no buffers"
      | (Some lru_b, lru_time) =>
          modify (env round);;;
          s <- get;;
          let lru_h := bhashgetline (blockno (slot s lru_b)) in
          acquire (hash_lock lru_h);;;
          s <- get;;
          if negb (refcnt (slot s lru_b) =? 0) || negb (timestamp (slot s lru_b) =? lru_time)
          then release (hash_lock lru_h);;;
               bget_evict fuel' env (S round) pid h d n
          else
            bhashdel lru_h lru_b;;;
            release (hash_lock lru_h);;;
            release bcache_lock_del;;;
            modify (upd_slot lru_b (set_dev d));;;
            modify (upd_slot lru_b (set_blockno n));;;
            modify (upd_slot lru_b (set_valid 0));;;
            modify (upd_slot lru_b (set_refcnt 1));;;
            acquire (hash_lock h);;;
            bhashadd h lru_b;;;
            release (hash_lock h);;;
            release (hash_lock_add h);;;
            acquiresleep pid lru_b;;;
            ret lru_b
      end
  end.

Definition bget (fuel : nat) (env : interference) (pid : Z) (d n : Z) : M nat :=
  let h := bhashgetline n in
  acquire (hash_lock_add h);;;
  acquire (hash_lock h);;;
  ob <- bhashget h d n;;
  match ob with
  | Some b =>
      modify (upd_slot b (fun bf => set_refcnt (to_uint (refcnt bf + 1)) bf));;;
      release (hash_lock h);;;
      release (hash_lock_add h);;;
      acquiresleep pid b;;;
      ret b
  | None =>
      release (hash_lock h);;;
      acquire bcache_lock_del;;;
      bget_evict fuel env 0 pid h d n
  end.

Definition bread (fuel : nat) (env : interference) (pid : Z) (d n : Z) : M nat :=
  b <- bget fuel env pid d n;;
  s <- get;;
  if valid (slot s b) =? 0
  then virtio_disk_rw b false;;;
       modify (upd_slot b (set_valid 1));;;
       ret b
  else ret b.

Definition bwrite (pid : Z) (b : nat) : M unit :=
  s <- get;;
  if negb (holdingsleep pid (slot s b))
  then panic "bwrite"
  else virtio_disk_rw b true.

Definition brelse (pid : Z) (b : nat) : M unit :=
  s <- get;;
  if negb (holdingsleep pid (slot s b))
  then panic "brelse"
  else
    releasesleep b;;;
    acquire tickslock;;;
    s <- get;;
    let timestamp := ticks s in
    release tickslock;;;
    s <- get;;
    let h := bhashgetline (blockno (slot s b)) in
    acquire (hash_lock h);;;
    modify (upd_slot b (fun bf => set_refcnt (to_uint (refcnt bf - 1)) bf));;;
    modify (upd_slot b (set_timestamp timestamp));;;
    release (hash_lock h).

Definition bpin (b : nat) : M unit :=
  s <- get;;
  acquire (hash_lock (bhashgetline (blockno (slot s b))));;;
  modify (upd_slot b (fun bf => set_refcnt (to_uint (refcnt bf + 1)) bf));;;
  s <- get;;
  release (hash_lock (bhashgetline (blockno (slot s b)))).

Definition bunpin (b : nat) : M unit :=
  s <- get;;
  acquire (hash_lock (bhashgetline (blockno (slot s b))));;;
  modify (upd_slot b (fun bf => set_refcnt (to_uint (refcnt bf - 1)) bf));;;
  s <- get;;
  release (hash_lock (bhashgetline (blockno (slot s b)))).

(** ** Specification vocabulary *)

Definition scan_events (ks : list nat) : list event :=
  ks ≫= (fun i => [EvAcquire (hash_lock i); EvRelease (hash_lock i)]).
Definition scan_order (s : state) : list nat :=
  seq 0 MODNUM ≫= bucket s.
Definition scan_pool (s : state) : option nat * Z :=
  fold_left (scan_slot (bufs s)) (scan_order s) (None, UINT_MAX).

Definition eligible (bs : list buf) (bound : Z) (b : nat) : Prop :=
  refcnt (bs !!! b) = 0 ∧ timestamp (bs !!! b) < bound.

Definition recycle (v lru_h h : nat) (d n : Z) (s : state) : state :=
  log [EvRelease (hash_lock_add h)]
    (log [EvRelease (hash_lock h)]
      (state_of (bhashadd h v
        (log [EvAcquire (hash_lock h)]
          (upd_slot v (set_refcnt 1)
            (upd_slot v (set_valid 0)
              (upd_slot v (set_blockno n)
                (upd_slot v (set_dev d)
                  (log [EvRelease bcache_lock_del]
                    (log [EvRelease (hash_lock lru_h)]
                      (upd_bhashmap (fmap (unlink v))
                        (log [EvAcquire (hash_lock lru_h)] s)))))))))))).

Definition revalidate (s : state) (lru_b : nat) (lru_time : Z) : bool :=
  negb (negb (refcnt (slot s lru_b) =? 0) || negb (timestamp (slot s lru_b) =? lru_time)).

Definition hit_state (b h : nat) (s : state) : state :=
  log [EvRelease (hash_lock_add h)]
    (log [EvRelease (hash_lock h)]
      (upd_slot b (fun bf => set_refcnt (to_uint (refcnt bf + 1)) bf)
        (log [EvAcquire (hash_lock h)] (log [EvAcquire (hash_lock_add h)] s)))).
Definition miss_state (h : nat) (s : state) : state :=
  log [EvAcquire bcache_lock_del]
    (log [EvRelease (hash_lock h)]
      (log [EvAcquire (hash_lock h)] (log [EvAcquire (hash_lock_add h)] s))).

Definition evict_state (v h : nat) (d n : Z) (s : state) : state :=
  recycle v (bhashgetline (blockno (slot s v))) h d n
    (log (scan_events (seq 0 MODNUM)) (miss_state h s)).

(** The state [brelse] leaves when the caller holds the lock. *)
Definition release_state (b : nat) (s : state) : state :=
  let s1 := log [EvRelease tickslock] (log [EvAcquire tickslock] (upd_slot b (set_lock None) s)) in
  let h := bhashgetline (blockno (slot s1 b)) in
  log [EvRelease (hash_lock h)]
    (upd_slot b (set_timestamp (ticks s))
      (upd_slot b (fun bf => set_refcnt (to_uint (refcnt bf - 1)) bf)
        (log [EvAcquire (hash_lock h)] s1))).

(** The state [bpin] ([delta = 1]) and [bunpin] ([delta = -1]) leave. *)
Definition pin_state (delta : Z) (b : nat) (s : state) : state :=
  let s1 :=
    upd_slot b (fun bf => set_refcnt (to_uint (refcnt bf + delta)) bf)
      (log [EvAcquire (hash_lock (bhashgetline (blockno (slot s b))))] s) in
  log [EvRelease (hash_lock (bhashgetline (blockno (slot s1 b))))] s1.

(** The states a block write and a block read of slot [b] leave. *)
Definition write_state (b : nat) (s : state) : state :=
  log [EvTransfer b true]
    (upd_disk (disk_store (dev (slot s b)) (blockno (slot s b)) (data (slot s b))) s).
Definition read_state (b : nat) (s : state) : state :=
  upd_slot b (set_valid 1)
    (log [EvTransfer b false]
      (upd_slot b (set_data (disk s (dev (slot s b)) (blockno (slot s b)))) s)).

(** Everything but slot [b] and the trace is the same in [s] and [s']. *)
Definition same_except (b : nat) (s s' : state) : Prop :=
  bhashmap s' = bhashmap s ∧ ticks s' = ticks s ∧ disk s' = disk s ∧
  length (bufs s') = length (bufs s) ∧
  ∀ j, j ≠ b → slot s' j = slot s j.

(** The identity of a slot, and the slots linked into some bucket. *)
Definition identity (bf : buf) : Z * Z := (dev bf, blockno bf).
Definition linked (s : state) (b : nat) : Prop := ∃ i, b ∈ bucket s i.

(** The invariant of the cache between operations: there are [MODNUM]
    buckets, the linked slots are the slots of the pool, each is linked in the
    bucket its block number selects, and two different slots with one identity
    both have the identity [(0, 0)]. *)
Record cache_inv (s : state) : Prop := CacheInv {
  inv_buckets : length (bhashmap s) = MODNUM;
  inv_linked : ∀ b, (b < length (bufs s))%nat ↔ linked s b;
  inv_home : ∀ i b, b ∈ bucket s i → bhashgetline (blockno (slot s b)) = i;
  inv_unique : ∀ i j,
    (i < length (bufs s))%nat → (j < length (bufs s))%nat →
    identity (slot s i) = identity (slot s j) →
    i = j ∨ identity (slot s i) = (0, 0)
}.

(** Modelled from the spec: the timer interrupt of [trap.c], which advances
    the clock [ticks] that [brelse] stamps slots with. *)
Definition clockintr : M unit :=
  modify (fun s => State (bufs s) (bhashmap s) (to_uint (ticks s + 1)) (disk s) (trace s)).

(** The calls a client of the cache makes, one after the other, with no
    other processor active. *)
Inductive call :=
  | Cbget (pid d n : Z)
  | Cbread (pid d n : Z)
  | Cbwrite (pid : Z) (b : nat)
  | Cbrelse (pid : Z) (b : nat)
  | Cbpin (b : nat)
  | Cbunpin (b : nat)
  | Ctick.

Definition do_call (c : call) (s : state) : state :=
  match c with
  | Cbget pid d n => state_of (bget 1 quiet pid d n s)
  | Cbread pid d n => state_of (bread 1 quiet pid d n s)
  | Cbwrite pid b => state_of (bwrite pid b s)
  | Cbrelse pid b => state_of (brelse pid b s)
  | Cbpin b => state_of (bpin b s)
  | Cbunpin b => state_of (bunpin b s)
  | Ctick => state_of (clockintr s)
  end.

Definition run (cs : list call) (s : state) : state :=
  fold_left (fun s c => do_call c s) cs s.

(** [s'] has the buckets of [s] and every slot keeps its identity. *)
Definition same_ids (s s' : state) : Prop :=
  bhashmap s' = bhashmap s ∧ length (bufs s') = length (bufs s) ∧
  ∀ j, identity (slot s' j) = identity (slot s j).

(** What the miss path of [bget] writes into its victim. *)
Definition reassign (d n : Z) (bf : buf) : buf :=
  set_refcnt 1 (set_valid 0 (set_blockno n (set_dev d bf))).

(** The state [binit] leaves: every slot zeroed and linked in bucket 0, the
    slot added last first. *)
Definition init_state (NBUF BSIZE : nat) (dsk : Z -> Z -> list byte) : state :=
  State (replicate NBUF (zero_buf BSIZE))
        (<[0%nat := reverse (seq 0 NBUF)]> (replicate MODNUM [])) 0 dsk [].

(** The message of a panic and the value of a return, to state what a run
    on a given state does. *)
Definition panic_msg {A} (o : outcome A) : option string :=
  match o with Panic msg _ => Some msg | _ => None end.
Definition returned {A} (o : outcome A) : option A :=
  match o with Ret a _ => Some a | _ => None end.

(** Example states.  [no_disk] is a disk of empty blocks. *)
Definition no_disk : Z -> Z -> list byte := fun _ _ => [].

(** A one-slot pool whose slot, block (1, 1), is held by process 7 at the
    last tick before the clock wraps. *)
Definition last_tick_state : state :=
  State [Buf 1 1 1 (Some 7) 1 0 []]
        (<[1%nat := [0%nat]]> (replicate MODNUM [])) UINT_MAX no_disk [].

(** A two-slot pool with both slots referenced. *)
Definition busy_state : state :=
  State [Buf 1 1 1 (Some 7) 1 0 []; Buf 1 1 2 None 2 3 []]
        (<[2%nat := [1%nat]]> (<[1%nat := [0%nat]]> (replicate MODNUM []))) 5 no_disk [].

(** What [bpin]/[bunpin] ([frees delta]) and [brelse] ([released tk]) do to
    the slot they are called on. *)
Definition frees (delta : Z) (bf : buf) : buf := set_refcnt (to_uint (refcnt bf + delta)) bf.
Definition released (tk : Z) (bf : buf) : buf :=
  set_timestamp tk (set_refcnt (to_uint (refcnt bf - 1)) (set_lock None bf)).

(** Slot [b] differs between [s] and [s'] in its reference count only. *)
Definition only_refcnt_changed (b : nat) (s s' : state) : Prop :=
  same_except b s s' ∧
  dev (slot s' b) = dev (slot s b) ∧ blockno (slot s' b) = blockno (slot s b) ∧
  valid (slot s' b) = valid (slot s b) ∧ data (slot s' b) = data (slot s b) ∧
  timestamp (slot s' b) = timestamp (slot s b) ∧ lock (slot s' b) = lock (slot s b).

(** A one-slot pool whose slot is cached, unlocked and unreferenced. *)
Definition idle_state : state :=
  State [Buf 1 1 1 None 0 4 []] (<[1%nat := [0%nat]]> (replicate MODNUM [])) 6 no_disk [].

(** A one-slot pool whose slot is locked by process 7 and referenced twice,
    last stamped at tick 5, at tick 9. *)
Definition shared_state : state :=
  State [Buf 1 1 1 (Some 7) 2 5 []] (<[1%nat := [0%nat]]> (replicate MODNUM [])) 9 no_disk [].

(** A three-slot pool after process 7 has read block (1, 20). *)
Definition cached_state : state := state_of (bread 1 quiet 7 1 20 (init_state 3 2 no_disk)).

(** What a returning eviction loop has done: its last round [r'] scanned a
    state [sr], picked [b] with stamp [t], and found [b] still unreferenced
    and still stamped [t] once it held [b]'s bucket lock again. *)
Definition recycled_after_revalidation
    (env : interference) (pid : Z) (h : nat) (d n : Z) (r : nat) (b : nat) (s' : state) : Prop :=
  ∃ r' sr t,
    (r ≤ r')%nat ∧
    scan_pool sr = (Some b, t) ∧
    let s1 := env r' (log (scan_events (seq 0 MODNUM)) sr) in
    refcnt (slot s1 b) = 0 ∧ timestamp (slot s1 b) = t ∧
    s' = upd_slot b (set_lock (Some pid))
           (recycle b (bhashgetline (blockno (slot s1 b))) h d n s1).

(** Another processor pins slot 2 while round 0 is between its scan and its
    second look at the candidate. *)
Definition pin_in_round_0 : interference :=
  fun r s => match r with O => state_of (bpin 2 s) | S _ => s end.

(** Every slot is linked once, and a valid slot is the one a lookup of its
    identity finds. *)
Record cache_inv2 (s : state) : Prop := CacheInv2 {
  inv_nodup : NoDup (concat (bhashmap s));
  inv_valid_first : ∀ i b,
    b ∈ bucket s i → valid (slot s b) ≠ 0 →
    bhashget_walk (bufs s) (bucket s i) (dev (slot s b)) (blockno (slot s b)) = Some b
}.

(** [s'] has the buckets of [s] and every slot keeps its identity and its
    [valid] flag. *)
Definition same_keys (s s' : state) : Prop :=
  same_ids s s' ∧ ∀ j, valid (slot s' j) = valid (slot s j).

(** The two invariants together. *)
Definition cache_ok (s : state) : Prop := cache_inv s ∧ cache_inv2 s.

(** The states the cache goes through: [binit] on a pool of [NBUF] slots,
    then the calls [cs]. *)
Definition after_calls (NBUF BSIZE : nat) (dsk : Z -> Z -> list byte) (cs : list call) : state :=
  run cs (state_of (binit NBUF (boot NBUF BSIZE dsk))).

(** Whether a lookup of [(d, n)] in [s] finds a slot whose payload is valid. *)
Definition cached_valid (s : state) (d n : Z) : bool :=
  match bhashget_walk (bufs s) (bucket s (bhashgetline n)) d n with
  | Some b => negb (valid (slot s b) =? 0)
  | None => false
  end.

#[global] Instance spinlock_eq_dec : EqDecision spinlock.
Proof. solve_decision. Defined.

Definition is_bucket_lock (l : spinlock) : bool :=
  match l with hash_lock _ => true | _ => false end.

(** The spin-locks a processor holds after the events [evs], having started
    with [held]; [None] if on the way it acquires a lock it holds, takes a
    bucket lock while it holds another, releases a lock it does not hold, or
    starts a block transfer (which sleeps) with a spin-lock held. *)
Fixpoint lock_discipline (held : list spinlock) (evs : list event) : option (list spinlock) :=
  match evs with
  | [] => Some held
  | EvAcquire l :: evs' =>
      if bool_decide (l ∈ held) || (is_bucket_lock l && existsb is_bucket_lock held)
      then None
      else lock_discipline (l :: held) evs'
  | EvRelease l :: evs' =>
      if bool_decide (l ∈ held)
      then lock_discipline (filter (fun l' => l' ≠ l) held) evs'
      else None
  | EvTransfer _ _ :: evs' =>
      match held with
      | [] => lock_discipline held evs'
      | _ :: _ => None
      end
  end.

Definition hit_events (h : nat) : list event :=
  [EvAcquire (hash_lock_add h); EvAcquire (hash_lock h);
   EvRelease (hash_lock h); EvRelease (hash_lock_add h)].
Definition miss_events (h : nat) : list event :=
  [EvAcquire (hash_lock_add h); EvAcquire (hash_lock h);
   EvRelease (hash_lock h); EvAcquire bcache_lock_del] ++ scan_events (seq 0 MODNUM).
Definition recycle_events (lru_h h : nat) : list event :=
  [EvAcquire (hash_lock lru_h); EvRelease (hash_lock lru_h); EvRelease bcache_lock_del;
   EvAcquire (hash_lock h); EvRelease (hash_lock h); EvRelease (hash_lock_add h)].

(** The events the outcome [o] of a call on [s] added obey the lock
    discipline, and unless the call panicked it ended with no spin-lock
    held. *)
Definition keeps_lock_discipline {A} (s : state) (o : outcome A) : Prop :=
  ∃ evs held,
    trace (state_of o) = trace s ++ evs ∧
    lock_discipline [] evs = Some held ∧
    (panic_msg o = None → held = []).

(** Three blocks read into a pool of three slots and released in the order
    22, 21, 20, one tick apart. *)
Definition aged_state : state :=
  after_calls 3 2 no_disk
    [Cbread 7 1 20; Cbread 7 1 21; Cbread 7 1 22;
     Ctick; Cbrelse 7 0; Ctick; Cbrelse 7 1; Ctick; Cbrelse 7 2].

(** A one-slot pool whose slot is not linked into any bucket. *)
Definition unlinked_state : state :=
  State [Buf 1 1 1 None 0 4 []] (replicate MODNUM []) 6 no_disk [].

(** ** The free-list variant

    The file holds an earlier variant of the cache next to the one above: the
    buckets are singly linked lists through [buf->hashnext], and the
    unreferenced slots form a doubly linked list through [prev]/[next] around
    [bcache.head], most recently released first.  Here the links are modelled
    as they are stored. *)
Module Lru.

(** A [struct buf *] used as a list link: null, [&bcache.head], or a slot of
    the pool. *)
Inductive link := Null | Head | Slot (i : nat).

#[global] Instance link_eq_dec : EqDecision link.
Proof. solve_decision. Defined.

(** [struct buf] of [buf.h], without the fields [disk] and [bcache], which
    this file does not use.  [hashnext] is [None] for the null pointer. *)
Record buf := Buf {
  valid : Z;
  dev : Z;
  blockno : Z;
  lock : option Z;
  refcnt : Z;
  prev : link;
  next : link;
  hashnext : option nat;
  data : list byte
}.

Definition set_valid (v : Z) (b : buf) : buf :=
  Buf v (dev b) (blockno b) (lock b) (refcnt b) (prev b) (next b) (hashnext b) (data b).
Definition set_dev (d : Z) (b : buf) : buf :=
  Buf (valid b) d (blockno b) (lock b) (refcnt b) (prev b) (next b) (hashnext b) (data b).
Definition set_blockno (n : Z) (b : buf) : buf :=
  Buf (valid b) (dev b) n (lock b) (refcnt b) (prev b) (next b) (hashnext b) (data b).
Definition set_lock (l : option Z) (b : buf) : buf :=
  Buf (valid b) (dev b) (blockno b) l (refcnt b) (prev b) (next b) (hashnext b) (data b).
Definition set_refcnt (r : Z) (b : buf) : buf :=
  Buf (valid b) (dev b) (blockno b) (lock b) r (prev b) (next b) (hashnext b) (data b).
Definition set_prev (p : link) (b : buf) : buf :=
  Buf (valid b) (dev b) (blockno b) (lock b) (refcnt b) p (next b) (hashnext b) (data b).
Definition set_next (p : link) (b : buf) : buf :=
  Buf (valid b) (dev b) (blockno b) (lock b) (refcnt b) (prev b) p (hashnext b) (data b).
Definition set_hashnext (p : option nat) (b : buf) : buf :=
  Buf (valid b) (dev b) (blockno b) (lock b) (refcnt b) (prev b) (next b) p (data b).

Definition zero_buf (bsize : nat) : buf :=
  Buf 0 0 0 None 0 Null Null None (replicate bsize x00).

#[global] Instance buf_inhabited : Inhabited buf := populate (zero_buf 0).

(** The spin-locks of this variant and the events on them. *)
Inductive spinlock :=
  | bcache_lock
  | hash_lock (i : nat)
  | hash_new_lock (i : nat).

Inductive event :=
  | EvAcquire (l : spinlock)
  | EvRelease (l : spinlock).

(** The pool [bcache.buf], the links of [bcache.head], the bucket heads
    [bhashmap[i].head], and the lock events so far. *)
Record state := State {
  bufs : list buf;
  head_prev : link;
  head_next : link;
  head : list (option nat);
  trace : list event
}.

Definition upd_slot (b : nat) (f : buf -> buf) (s : state) : state :=
  State (<[b := f (bufs s !!! b)]> (bufs s)) (head_prev s) (head_next s) (head s) (trace s).
Definition set_head (h : nat) (p : option nat) (s : state) : state :=
  State (bufs s) (head_prev s) (head_next s) (<[h := p]> (head s)) (trace s).
Definition log (evs : list event) (s : state) : state :=
  State (bufs s) (head_prev s) (head_next s) (head s) (trace s ++ evs).
Definition slot (s : state) (b : nat) : buf := bufs s !!! b.

(** A call returns, panics, sleeps on a sleep-lock that is taken,
    dereferences the null pointer, or (in the model only) uses up the fuel of
    a loop. *)
Inductive result (A : Type) :=
  | Done (a : A) (s : state)
  | Panic (msg : string) (s : state)
  | Sleeping (s : state)
  | NullDeref
  | OutOfFuel.
Arguments Done {A} a s.
Arguments Panic {A} msg s.
Arguments Sleeping {A} s.
Arguments NullDeref {A}.
Arguments OutOfFuel {A}.

Definition M (A : Type) : Type := state -> result A.
Definition ret {A} (a : A) : M A := fun s => Done a s.
Definition bind {A B} (m : M A) (k : A -> M B) : M B :=
  fun s =>
    match m s with
    | Done a s' => k a s'
    | Panic msg s' => Panic msg s'
    | Sleeping s' => Sleeping s'
    | NullDeref => NullDeref
    | OutOfFuel => OutOfFuel
    end.
Definition panic {A} (msg : string) : M A := fun s => Panic msg s.
Definition get : M state := fun s => Done s s.
Definition modify (f : state -> state) : M unit := fun s => Done tt (f s).

Declare Scope lru_scope.
Delimit Scope lru_scope with lru.
Notation "x <- m ;; k" := (bind m (fun x => k))
  (at level 100, m at next level, right associativity) : lru_scope.
Notation "m ;;; k" := (bind m (fun _ => k))
  (at level 100, right associativity) : lru_scope.
Local Open Scope lru_scope.

Definition acquire (l : spinlock) : M unit := modify (log [EvAcquire l]).
Definition release (l : spinlock) : M unit := modify (log [EvRelease l]).

(** [p->prev], [p->next] and the assignments to them. *)
Definition load_prev (p : link) : M link :=
  fun s =>
    match p with
    | Null => NullDeref
    | Head => Done (head_prev s) s
    | Slot i => Done (prev (slot s i)) s
    end.
Definition load_next (p : link) : M link :=
  fun s =>
    match p with
    | Null => NullDeref
    | Head => Done (head_next s) s
    | Slot i => Done (next (slot s i)) s
    end.
Definition store_prev (p : link) (v : link) : M unit :=
  fun s =>
    match p with
    | Null => NullDeref
    | Head => Done tt (State (bufs s) v (head_next s) (head s) (trace s))
    | Slot i => Done tt (upd_slot i (set_prev v) s)
    end.
Definition store_next (p : link) (v : link) : M unit :=
  fun s =>
    match p with
    | Null => NullDeref
    | Head => Done tt (State (bufs s) (head_prev s) v (head s) (trace s))
    | Slot i => Done tt (upd_slot i (set_next v) s)
    end.

(** Modelled from the spec: the sleep-lock of [sleeplock.c], as for the
    variant above. *)
Definition initsleeplock (b : nat) : M unit := modify (upd_slot b (set_lock None)).
Definition acquiresleep (pid : Z) (b : nat) : M unit :=
  fun s =>
    match lock (slot s b) with
    | None => Done tt (upd_slot b (set_lock (Some pid)) s)
    | Some _ => Sleeping s
    end.
Definition holdingsleep (pid : Z) (b : buf) : bool := bool_decide (lock b = Some pid).
Definition releasesleep (b : nat) : M unit := modify (upd_slot b (set_lock None)).

(** [buf->hashnext = h->head; h->head = buf;] *)
Definition bhashadd (h : nat) (b : nat) : M unit :=
  s <- get;;
  modify (upd_slot b (set_hashnext (head s !!! h)));;;
  modify (set_head h (Some b)).

(** The [for] loop of [bhashget], from the pointer [p]. *)
Fixpoint bhashget_from (fuel : nat) (bs : list buf) (p : option nat) (d n : Z)
  : option (option nat) :=
  match fuel with
  | O => None
  | S fuel' =>
      match p with
      | None => Some None
      | Some b =>
          if (dev (bs !!! b) =? d) && (blockno (bs !!! b) =? n)
          then Some (Some b)
          else bhashget_from fuel' bs (hashnext (bs !!! b)) d n
      end
  end.
Definition bhashget (fuel : nat) (h : nat) (d n : Z) : M (option nat) :=
  fun s =>
    match bhashget_from fuel (bufs s) (head s !!! h) d n with
    | Some r => Done r s
    | None => OutOfFuel
    end.

(** The [for] loop of [bhashdel], with [b] a non-null pointer. *)
Fixpoint bhashdel_from (fuel : nat) (b : nat) (buf : nat) : M unit :=
  match fuel with
  | O => fun _ => OutOfFuel
  | S fuel' =>
      s <- get;;
      match hashnext (slot s b) with
      | None => ret tt
      | Some nb =>
          if decide (nb = buf)
          then modify (upd_slot b (set_hashnext (hashnext (slot s buf))))
          else bhashdel_from fuel' nb buf
      end
  end.
Definition bhashdel (fuel : nat) (h : nat) (buf : nat) : M unit :=
  s <- get;;
  match head s !!! h with
  | Some b =>
      if decide (b = buf)
      then modify (set_head h (hashnext (slot s b)))
      else bhashdel_from fuel b buf
  | None => fun _ => NullDeref
  end.

Fixpoint mfor {A} (l : list A) (body : A -> M unit) : M unit :=
  match l with
  | [] => ret tt
  | x :: l' => body x;;; mfor l' body
  end.

(** The kernel's zeroed memory before [binit]. *)
Definition boot (NBUF BSIZE : nat) : state :=
  State (replicate NBUF (zero_buf BSIZE)) Null Null (replicate MODNUM None) [].

(** [binit]: [b] and the counter [i] run together, so [b->blockno = i++]
    stores the index of the slot.  The [initlock] calls leave no event. *)
Definition binit (NBUF : nat) : M unit :=
  store_prev Head Head;;;
  store_next Head Head;;;
  mfor (seq 0 NBUF) (fun b =>
    first <- load_next Head;;
    store_next (Slot b) first;;;
    store_prev (Slot b) Head;;;
    initsleeplock b;;;
    first <- load_next Head;;
    store_prev first (Slot b);;;
    store_next Head (Slot b);;;
    modify (upd_slot b (set_blockno (to_uint (Z.of_nat b))));;;
    s <- get;;
    bhashadd (bhashgetline (blockno (slot s b))) b).

(** [b->prev->next = b->next; b->next->prev = b->prev;] *)
Definition unlink_hit (b : nat) : M unit :=
  p <- load_prev (Slot b);;
  n <- load_next (Slot b);;
  store_next p n;;;
  n <- load_next (Slot b);;
  p <- load_prev (Slot b);;
  store_prev n p.

(** [b->next->prev = b->prev; b->prev->next = b->next;] *)
Definition unlink_miss (b : nat) : M unit :=
  n <- load_next (Slot b);;
  p <- load_prev (Slot b);;
  store_prev n p;;;
  p <- load_prev (Slot b);;
  n <- load_next (Slot b);;
  store_next p n.

(** The [while] loop of [bget], entered on a miss with the admission lock of
    bucket [h] held.  A [continue] tests the same slot again, after whatever
    the other processors ([env]) have done meanwhile. *)
Fixpoint bget_recycle (fuel : nat) (env : nat -> state -> state) (round : nat)
    (pid : Z) (h : nat) (d n : Z) : M nat :=
  match fuel with
  | O => fun _ => OutOfFuel
  | S fuel' =>
      s <- get;;
      match head_prev s with
      | Head => panic "bget: no buffers"
      | Null => fun _ => NullDeref
      | Slot b =>
          let oh := bhashgetline (blockno (slot s b)) in
          acquire (hash_lock oh);;;
          found <- bhashget fuel oh (dev (slot s b)) (blockno (slot s b));;
          match found with
          | None =>
              release (hash_lock oh);;;
              modify (env round);;;
              bget_recycle fuel' env (S round) pid h d n
          | Some _ =>
              s <- get;;
              if negb (refcnt (slot s b) =? 0)
              then release (hash_lock oh);;;
                   modify (env round);;;
                   bget_recycle fuel' env (S round) pid h d n
              else
                acquire bcache_lock;;;
                unlink_miss b;;;
                release bcache_lock;;;
                bhashdel fuel oh b;;;
                release (hash_lock oh);;;
                modify (upd_slot b (set_dev d));;;
                modify (upd_slot b (set_blockno n));;;
                modify (upd_slot b (set_valid 0));;;
                modify (upd_slot b (set_refcnt 1));;;
                acquire (hash_lock h);;;
                bhashadd h b;;;
                release (hash_lock h);;;
                release (hash_new_lock h);;;
                acquiresleep pid b;;;
                ret b
          end
      end
  end.

Definition bget (fuel : nat) (env : nat -> state -> state) (pid : Z) (d n : Z) : M nat :=
  let h := bhashgetline n in
  acquire (hash_new_lock h);;;
  acquire (hash_lock h);;;
  ob <- bhashget fuel h d n;;
  match ob with
  | Some b =>
      s <- get;;
      (if refcnt (slot s b) =? 0
       then acquire bcache_lock;;;
            unlink_hit b;;;
            release bcache_lock
       else ret tt);;;
      modify (upd_slot b (fun bf => set_refcnt (to_uint (refcnt bf + 1)) bf));;;
      release (hash_lock h);;;
      release (hash_new_lock h);;;
      acquiresleep pid b;;;
      ret b
  | None =>
      release (hash_lock h);;;
      bget_recycle fuel env 0 pid h d n
  end.

(** [brelse]: on the last release the slot goes to the head of the list. *)
Definition brelse (pid : Z) (b : nat) : M unit :=
  s <- get;;
  if negb (holdingsleep pid (slot s b))
  then panic "brelse"
  else
    releasesleep b;;;
    s <- get;;
    let h := bhashgetline (blockno (slot s b)) in
    acquire (hash_lock h);;;
    modify (upd_slot b (fun bf => set_refcnt (to_uint (refcnt bf - 1)) bf));;;
    s <- get;;
    (if refcnt (slot s b) =? 0
     then acquire bcache_lock;;;
          first <- load_next Head;;
          store_prev first (Slot b);;;
          first <- load_next Head;;
          store_next (Slot b) first;;;
          store_next Head (Slot b);;;
          store_prev (Slot b) Head;;;
          release bcache_lock
     else ret tt);;;
    release (hash_lock h).

Definition bpin (b : nat) : M unit :=
  s <- get;;
  acquire (hash_lock (bhashgetline (blockno (slot s b))));;;
  modify (upd_slot b (fun bf => set_refcnt (to_uint (refcnt bf + 1)) bf));;;
  s <- get;;
  release (hash_lock (bhashgetline (blockno (slot s b)))).

Definition bunpin (b : nat) : M unit :=
  s <- get;;
  acquire (hash_lock (bhashgetline (blockno (slot s b))));;;
  modify (upd_slot b (fun bf => set_refcnt (to_uint (refcnt bf - 1)) bf));;;
  s <- get;;
  release (hash_lock (bhashgetline (blockno (slot s b)))).

(** *** Reading the links as lists *)

(** The chain from [p] through [hashnext] visits the slots [l] and ends at
    the null pointer. *)
Inductive chain (bs : list buf) : option nat -> list nat -> Prop :=
  | chain_nil : chain bs None []
  | chain_cons b l : chain bs (hashnext (bs !!! b)) l -> chain bs (Some b) (b :: l).

(** The first slot of [l] with identity [(d, n)]. *)
Fixpoint first_match (bs : list buf) (l : list nat) (d n : Z) : option nat :=
  match l with
  | [] => None
  | b :: l' =>
      if (dev (bs !!! b) =? d) && (blockno (bs !!! b) =? n) then Some b
      else first_match bs l' d n
  end.

(** Entered at [p] from [pv], the [next] links visit the slots [l] and leave
    for [nx], the last node visited being [lst]; the [prev] links lead back. *)
Fixpoint dlseg (bs : list buf) (pv p : link) (l : list nat) (lst nx : link) : Prop :=
  match l with
  | [] => p = nx ∧ lst = pv
  | x :: l' =>
      p = Slot x ∧ prev (bs !!! x) = pv ∧
      dlseg bs (Slot x) (next (bs !!! x)) l' lst nx
  end.

(** [bcache.head] and the slots [l], in this order from [head.next], form the
    circular list. *)
Definition ring (s : state) (l : list nat) : Prop :=
  dlseg (bufs s) Head (head_next s) l (head_prev s) Head ∧
  NoDup l ∧ ∀ x, x ∈ l → (x < length (bufs s))%nat.

(** Bucket [i] is the chain [buckets !!! i], and every linked slot is in the
    bucket its block number selects. *)
Definition chains (s : state) (buckets : list (list nat)) : Prop :=
  length (head s) = MODNUM ∧
  length buckets = MODNUM ∧
  (∀ i, (i < MODNUM)%nat → chain (bufs s) (head s !!! i) (buckets !!! i)) ∧
  (∀ i x, (i < MODNUM)%nat → x ∈ buckets !!! i →
     (x < length (bufs s))%nat ∧ bhashgetline (blockno (bufs s !!! x)) = i).

(** The free list is [free] and the buckets are [buckets]. *)
Definition rep (s : state) (free : list nat) (buckets : list (list nat)) : Prop :=
  ring s free ∧ chains s buckets.

(** The buckets [binit] builds from [k] slots: slot [b] gets block number
    [b], so bucket [i] holds the slots that select [i], last one first. *)
Definition binit_buckets (k : nat) : list (list nat) :=
  (fun i => reverse (filter (fun b => bhashgetline (to_uint (Z.of_nat b)) = i) (seq 0 k)))
    <$> seq 0 MODNUM.

(** [p->prev] and [p->next] as values, and the stores as state updates, for
    a pointer that is not null. *)
Definition prv (s : state) (p : link) : link :=
  match p with Null => Null | Head => head_prev s | Slot i => prev (slot s i) end.
Definition nxt (s : state) (p : link) : link :=
  match p with Null => Null | Head => head_next s | Slot i => next (slot s i) end.
Definition put_prev (p v : link) (s : state) : state :=
  match p with
  | Null => s
  | Head => State (bufs s) v (head_next s) (head s) (trace s)
  | Slot i => upd_slot i (set_prev v) s
  end.
Definition put_next (p v : link) (s : state) : state :=
  match p with
  | Null => s
  | Head => State (bufs s) (head_prev s) v (head s) (trace s)
  | Slot i => upd_slot i (set_next v) s
  end.

(** A pointer to [bcache.head] or into the pool. *)
Definition valid_link (s : state) (p : link) : Prop :=
  match p with Null => False | Head => True | Slot i => (i < length (bufs s))%nat end.

(** The state after slot [b] is taken out of the list it is linked in. *)
Definition unlinked (b : nat) (s : state) : state :=
  put_next (prv s (Slot b)) (nxt s (Slot b))
    (put_prev (nxt s (Slot b)) (prv s (Slot b)) s).

(** The fields of a slot other than its three links. *)
Definition payload (b : buf) : Z * Z * Z * option Z * Z * list byte :=
  (valid b, dev b, blockno b, lock b, refcnt b, data b).

(** The state after one round of the loop of [binit], for slot [k]. *)
Definition binit_step (k : nat) (s : state) : state :=
  let f := head_next s in
  let s1 :=
    put_next Head (Slot k) (put_prev f (Slot k)
      (upd_slot k (set_lock None)
        (put_prev (Slot k) Head (put_next (Slot k) f s)))) in
  let s2 := upd_slot k (set_blockno (to_uint (Z.of_nat k))) s1 in
  let h := bhashgetline (to_uint (Z.of_nat k)) in
  set_head h (Some k) (upd_slot k (set_hashnext (head s2 !!! h)) s2).

(** What holds after [k] rounds of the loop of [binit]. *)
Definition binit_inv (NBUF BSIZE k : nat) (s : state) : Prop :=
  rep s (reverse (seq 0 k)) (binit_buckets k) ∧
  length (bufs s) = NBUF ∧
  trace s = [] ∧
  (∀ b, (b < k)%nat →
     payload (slot s b) = (0, 0, to_uint (Z.of_nat b), None, 0, replicate BSIZE x00)) ∧
  (∀ b, (k ≤ b < NBUF)%nat → payload (slot s b) = payload (zero_buf BSIZE)).

(** The state after [b] is put in front of the free list, as [brelse]
    does it. *)
Definition pushed (b : nat) (s : state) : state :=
  put_prev (Slot b) Head (put_next Head (Slot b)
    (put_next (Slot b) (head_next s) (put_prev (head_next s) (Slot b) s))).

(** The state after [brelse] by the process that holds the slot. *)
Definition brelse_state (b : nat) (s : state) : state :=
  let h := bhashgetline (blockno (slot s b)) in
  let s2 :=
    upd_slot b (fun bf => set_refcnt (to_uint (refcnt bf - 1)) bf)
      (log [EvAcquire (hash_lock h)] (upd_slot b (set_lock None) s)) in
  log [EvRelease (hash_lock h)]
    (if refcnt (slot s2 b) =? 0
     then log [EvRelease bcache_lock] (pushed b (log [EvAcquire bcache_lock] s2))
     else s2).

Definition quiet : nat -> state -> state := fun _ s => s.

(** The state a call leaves, for the examples below. *)
Definition state_of {A} (r : result A) (dflt : state) : state :=
  match r with
  | Done _ s => s
  | Panic _ s => s
  | Sleeping s => s
  | NullDeref => dflt
  | OutOfFuel => dflt
  end.

(** A pool of three slots after [binit]; the same after process 7 has got
    block 1 of device 0; and after slot 0 has been pinned instead. *)
Definition init3 : state  := Eval vm_compute in
  state_of (binit 3 (boot 3 1)) (boot 3 1).
Definition held3 : state  := Eval vm_compute in
  state_of (bget 3 quiet 7 0 1 init3) init3.
Definition pinned3 : state  := Eval vm_compute in
  state_of (bpin 0 init3) init3.

(** A pool without slots after [binit], and one of twenty slots, where
    slots 0 and 19 share bucket 0. *)
Definition init0 : state  := Eval vm_compute in
  state_of (binit 0 (boot 0 1)) (boot 0 1).
Definition init20 : state  := Eval vm_compute in
  state_of (binit 20 (boot 20 1)) (boot 20 1).

End Lru.

(** * Basic facts *)

Lemma log_log evs1 evs2 s : log evs2 (log evs1 s) = log (evs1 ++ evs2) s.
Proof. unfold log; simpl. by rewrite app_assoc. Qed.

Lemma log_nil s : log [] s = s.
Proof. destruct s; unfold log; simpl. by rewrite app_nil_r. Qed.

Lemma scan_buckets_eq ks acc s :
  scan_buckets ks acc s =
  Ret (fold_left (scan_slot (bufs s)) (ks ≫= bucket s) acc) (log (scan_events ks) s).
Proof.
  revert acc s. induction ks as [|i ks IH]; intros acc s.
  - simpl. unfold ret. by rewrite log_nil.
  - cbn [scan_buckets]. unfold bind at 1. unfold acquire at 1, modify at 1.
    unfold bind at 1, get at 1. unfold bind at 1, release at 1, modify at 1.
    rewrite IH. rewrite !log_log. cbn -[scan_events].
    unfold scan_bucket. rewrite fold_left_app. reflexivity.
Qed.

Lemma scan_slot_cases bs acc b :
  (eligible bs acc.2 b ∧ scan_slot bs acc b = (Some b, timestamp (bs !!! b))) ∨
  (¬ eligible bs acc.2 b ∧ scan_slot bs acc b = acc).
Proof.
  unfold scan_slot, eligible.
  destruct (refcnt (bs !!! b) =? 0) eqn:Hr; destruct (timestamp (bs !!! b) <? acc.2) eqn:Ht;
    simpl; [left|right..]; split; try reflexivity; lia.
Qed.

Lemma scan_fold_spec bs l acc :
  (fold_left (scan_slot bs) l acc = acc ∧ ∀ b, b ∈ l → ¬ eligible bs acc.2 b) ∨
  (∃ l1 v l2,
      l = l1 ++ v :: l2 ∧
      fold_left (scan_slot bs) l acc = (Some v, timestamp (bs !!! v)) ∧
      eligible bs acc.2 v ∧
      (∀ b, b ∈ l1 → refcnt (bs !!! b) = 0 → timestamp (bs !!! v) < timestamp (bs !!! b)) ∧
      (∀ b, b ∈ l2 → refcnt (bs !!! b) = 0 → timestamp (bs !!! v) ≤ timestamp (bs !!! b))).
Proof.
  revert acc. induction l as [|x l IH]; intros acc.
  - left. split; [done|]. intros b Hb. by apply elem_of_nil in Hb.
  - cbn [fold_left].
    destruct (scan_slot_cases bs acc x) as [[Hel ->]|[Hnel ->]].
    + destruct (IH (Some x, timestamp (bs !!! x))) as [[-> Hnone]|(l1 & v & l2 & -> & -> & Hv & Hl1 & Hl2)].
      * right. exists [], x, l. repeat split; try done; try apply Hel.
        -- intros b Hb. by apply elem_of_nil in Hb.
        -- intros b Hb Hr. specialize (Hnone b Hb). unfold eligible in Hnone. simpl in Hnone. lia.
      * right. exists (x :: l1), v, l2. destruct Hv as [Hv1 Hv2]. simpl in Hv2.
        destruct Hel as [Hx1 Hx2].
        repeat split; try done; try lia.
        intros b Hb Hr. apply elem_of_cons in Hb as [->|Hb]; [lia|by apply Hl1].
    + destruct (IH acc) as [[-> Hnone]|(l1 & v & l2 & -> & -> & Hv & Hl1 & Hl2)].
      * left. split; [done|]. intros b Hb. apply elem_of_cons in Hb as [->|Hb]; [done|by apply Hnone].
      * right. exists (x :: l1), v, l2. repeat split; try done; try apply Hv.
        intros b Hb Hr. apply elem_of_cons in Hb as [->|Hb]; [|by apply Hl1].
        destruct Hv as [_ Hv]. unfold eligible in Hnel. lia.
Qed.

Lemma scan_order_log evs s : scan_order (log evs s) = scan_order s.
Proof. reflexivity. Qed.

Lemma bget_evict_unroll fuel env r pid h d n s :
  bget_evict (S fuel) env r pid h d n s =
  match scan_pool s with
  | (None, _) => Panic "bget: no buffers" (log (scan_events (seq 0 MODNUM)) s)
  | (Some v, t) =>
      let s1 := env r (log (scan_events (seq 0 MODNUM)) s) in
      let lru_h := bhashgetline (blockno (slot s1 v)) in
      if revalidate s1 v t
      then (acquiresleep pid v;;; ret v) (recycle v lru_h h d n s1)
      else bget_evict fuel env (S r) pid h d n
             (log [EvRelease (hash_lock lru_h)] (log [EvAcquire (hash_lock lru_h)] s1))
  end.
Proof.
  cbn [bget_evict]. unfold bind at 1. rewrite scan_buckets_eq.
  unfold scan_pool, scan_order.
  destruct (fold_left _ _ _) as [[v|] t]; [|reflexivity].
  cbv zeta. unfold revalidate, recycle.
  cbv [bind modify get acquire release bhashdel bhashadd state_of].
  change (slot (log ?e ?x) ?b) with (slot x b).
  destruct (negb (refcnt _ =? 0) || negb (timestamp _ =? t)); cbn [negb]; reflexivity.
Qed.

Lemma bget_unroll fuel env pid d n s :
  bget fuel env pid d n s =
  let h := bhashgetline n in
  match bhashget_walk (bufs s) (bucket s h) d n with
  | Some b => (acquiresleep pid b;;; ret b) (hit_state b h s)
  | None => bget_evict fuel env 0 pid h d n (miss_state h s)
  end.
Proof.
  unfold bget. cbv zeta. unfold bind at 1, acquire at 1, modify at 1.
  unfold bind at 1, acquire at 1, modify at 1.
  unfold bind at 1, bhashget at 1. unfold bind at 1, get at 1. unfold ret at 1.
  change (bufs (log _ (log _ s))) with (bufs s).
  change (bucket (log _ (log _ s))) with (bucket s).
  destruct (bhashget_walk _ _ _ _); reflexivity.
Qed.

Lemma slot_upd_slot_eq b f s :
  (b < length (bufs s))%nat → slot (upd_slot b f s) b = f (slot s b).
Proof.
  intros Hb. unfold slot, upd_slot, upd_bufs; simpl.
  apply list_lookup_total_insert_eq. done.
Qed.
Lemma slot_upd_slot_ne b j f s :
  j ≠ b → slot (upd_slot b f s) j = slot s j.
Proof.
  intros Hb. unfold slot, upd_slot, upd_bufs; simpl.
  by apply list_lookup_total_insert_ne.
Qed.
Lemma length_upd_slot b f s : length (bufs (upd_slot b f s)) = length (bufs s).
Proof. unfold upd_slot, upd_bufs; simpl. apply length_insert. Qed.
Lemma slot_upd_slot_ge b f s :
  (length (bufs s) ≤ b)%nat → upd_slot b f s = upd_bufs (fun bs => bs) s.
Proof.
  intros Hb. unfold upd_slot, upd_bufs. f_equal. by apply list_insert_ge.
Qed.

Lemma scan_pool_log evs s : scan_pool (log evs s) = scan_pool s.
Proof. reflexivity. Qed.

Lemma scan_pool_Some s v t :
  scan_pool s = (Some v, t) →
  ∃ l1 l2,
    scan_order s = l1 ++ v :: l2 ∧
    refcnt (slot s v) = 0 ∧ timestamp (slot s v) = t ∧ t < UINT_MAX ∧
    (∀ b, b ∈ l1 → refcnt (slot s b) = 0 → t < timestamp (slot s b)) ∧
    (∀ b, b ∈ l2 → refcnt (slot s b) = 0 → t ≤ timestamp (slot s b)).
Proof.
  unfold scan_pool. intros H.
  destruct (scan_fold_spec (bufs s) (scan_order s) (None, UINT_MAX))
    as [[E _]|(l1 & v' & l2 & Hl & E & [Hr Ht] & H1 & H2)];
    rewrite E in H; [discriminate|].
  injection H as -> <-. by exists l1, l2.
Qed.

Lemma scan_pool_None s t :
  scan_pool s = (None, t) →
  ∀ b, b ∈ scan_order s → ¬ (refcnt (slot s b) = 0 ∧ timestamp (slot s b) < UINT_MAX).
Proof.
  unfold scan_pool. intros H.
  destruct (scan_fold_spec (bufs s) (scan_order s) (None, UINT_MAX))
    as [[E Hn]|(l1 & v' & l2 & Hl & E & _)];
    rewrite E in H; [|discriminate].
  exact Hn.
Qed.

Lemma scan_pool_finds s b :
  b ∈ scan_order s → refcnt (slot s b) = 0 → timestamp (slot s b) < UINT_MAX →
  ∃ v, scan_pool s = (Some v, timestamp (slot s v)).
Proof.
  intros Hb Hr Ht. destruct (scan_pool s) as [[v|] t] eqn:E.
  - exists v. apply scan_pool_Some in E as (? & ? & ? & ? & <- & ?). done.
  - exfalso. by eapply scan_pool_None.
Qed.

Lemma revalidate_true s v t :
  revalidate s v t = true ↔ refcnt (slot s v) = 0 ∧ timestamp (slot s v) = t.
Proof.
  unfold revalidate.
  destruct (refcnt (slot s v) =? 0) eqn:E1; destruct (timestamp (slot s v) =? t) eqn:E2;
    simpl; split; try discriminate; try (intros; split; lia); try (intros [? ?]; lia); done.
Qed.

Lemma acquiresleep_ret pid b s :
  (acquiresleep pid b;;; ret b) s =
  match lock (slot s b) with
  | None => Ret b (upd_slot b (set_lock (Some pid)) s)
  | Some _ => Sleeping s
  end.
Proof. unfold bind, acquiresleep. by destruct (lock (slot s b)). Qed.

Lemma bget_quiet_miss fuel pid d n s v t :
  bhashget_walk (bufs s) (bucket s (bhashgetline n)) d n = None →
  scan_pool s = (Some v, t) →
  bget (S fuel) quiet pid d n s =
  (acquiresleep pid v;;; ret v) (evict_state v (bhashgetline n) d n s).
Proof.
  intros Hmiss Hscan. rewrite bget_unroll. cbv zeta. rewrite Hmiss.
  rewrite bget_evict_unroll.
  change (scan_pool (miss_state (bhashgetline n) s)) with (scan_pool s).
  rewrite Hscan. cbv zeta. unfold quiet at 1 2.
  assert (revalidate (log (scan_events (seq 0 MODNUM)) (miss_state (bhashgetline n) s)) v t = true) as ->.
  { apply revalidate_true. apply scan_pool_Some in Hscan as (? & ? & ? & ? & ? & ?). done. }
  reflexivity.
Qed.

Lemma bget_quiet_exhausted fuel env pid d n s t :
  bhashget_walk (bufs s) (bucket s (bhashgetline n)) d n = None →
  scan_pool s = (None, t) →
  bget (S fuel) env pid d n s =
  Panic "bget: no buffers" (log (scan_events (seq 0 MODNUM)) (miss_state (bhashgetline n) s)).
Proof.
  intros Hmiss Hscan. rewrite bget_unroll. cbv zeta. rewrite Hmiss.
  rewrite bget_evict_unroll.
  change (scan_pool (miss_state (bhashgetline n) s)) with (scan_pool s).
  by rewrite Hscan.
Qed.

Lemma bread_unroll fuel env pid d n s :
  bread fuel env pid d n s =
  match bget fuel env pid d n s with
  | Ret b s' => if valid (slot s' b) =? 0 then Ret b (read_state b s') else Ret b s'
  | Panic msg s' => Panic msg s'
  | Sleeping s' => Sleeping s'
  | OutOfFuel s' => OutOfFuel s'
  end.
Proof.
  unfold bread. unfold bind at 1.
  destruct (bget fuel env pid d n s) as [b s'| | |]; try reflexivity.
  unfold bind at 1, get at 1.
  destruct (valid (slot s' b) =? 0); reflexivity.
Qed.

Lemma bwrite_unroll pid b s :
  bwrite pid b s =
  if holdingsleep pid (slot s b) then Ret tt (write_state b s) else Panic "bwrite" s.
Proof.
  unfold bwrite. unfold bind at 1, get at 1.
  destruct (holdingsleep pid (slot s b)); reflexivity.
Qed.

Lemma brelse_unroll pid b s :
  brelse pid b s =
  if holdingsleep pid (slot s b) then Ret tt (release_state b s) else Panic "brelse" s.
Proof.
  unfold brelse. unfold bind at 1, get at 1.
  destruct (holdingsleep pid (slot s b)); reflexivity.
Qed.

Lemma bpin_unroll b s : bpin b s = Ret tt (pin_state 1 b s).
Proof. reflexivity. Qed.

Lemma bunpin_unroll b s : bunpin b s = Ret tt (pin_state (-1) b s).
Proof. reflexivity. Qed.

Lemma slot_upd_slot b j f s :
  slot (upd_slot b f s) j =
  if decide (j = b ∧ (b < length (bufs s))%nat) then f (slot s b) else slot s j.
Proof.
  case_decide as H.
  - destruct H as [-> H]. by apply slot_upd_slot_eq.
  - destruct (decide (j = b)) as [->|Hne].
    + assert (length (bufs s) ≤ b)%nat as Hge by lia.
      unfold slot, upd_slot, upd_bufs; simpl. by rewrite list_insert_ge.
    + by apply slot_upd_slot_ne.
Qed.

Lemma same_ids_refl s : same_ids s s.
Proof. by repeat split. Qed.

Lemma same_ids_trans s1 s2 s3 : same_ids s1 s2 → same_ids s2 s3 → same_ids s1 s3.
Proof.
  intros (H1 & H2 & H3) (H4 & H5 & H6). split; [congruence|]. split; [congruence|].
  intros j. by rewrite H6.
Qed.

Lemma same_ids_log evs s : same_ids s (log evs s).
Proof. by repeat split. Qed.

Lemma same_ids_upd_disk f s : same_ids s (upd_disk f s).
Proof. by repeat split. Qed.

Lemma same_ids_upd_slot b f s :
  (∀ bf, identity (f bf) = identity bf) → same_ids s (upd_slot b f s).
Proof.
  intros Hf. split; [done|]. split.
  - apply length_upd_slot.
  - intros j. rewrite slot_upd_slot. case_decide as H; [|done].
    destruct H as [-> _]. apply Hf.
Qed.

Ltac same_ids_step :=
  first
    [ apply same_ids_refl
    | eapply same_ids_trans; [|apply same_ids_log]
    | eapply same_ids_trans; [|apply same_ids_upd_disk]
    | eapply same_ids_trans; [|apply same_ids_upd_slot; intros []; reflexivity] ].

Lemma same_ids_release_state b s : same_ids s (release_state b s).
Proof. unfold release_state. cbv zeta. repeat same_ids_step. Qed.

Lemma same_ids_pin_state delta b s : same_ids s (pin_state delta b s).
Proof. unfold pin_state. cbv zeta. repeat same_ids_step. Qed.

Lemma same_ids_write_state b s : same_ids s (write_state b s).
Proof. unfold write_state. repeat same_ids_step. Qed.

Lemma same_ids_read_state b s : same_ids s (read_state b s).
Proof. unfold read_state. repeat same_ids_step. Qed.

Lemma same_ids_hit_state b h s : same_ids s (hit_state b h s).
Proof. unfold hit_state. repeat same_ids_step. Qed.

Lemma same_ids_miss_state h s : same_ids s (miss_state h s).
Proof. unfold miss_state. repeat same_ids_step. Qed.

Lemma same_ids_clockintr s : same_ids s (state_of (clockintr s)).
Proof. by repeat split. Qed.

Lemma same_ids_bucket s s' i : same_ids s s' → bucket s' i = bucket s i.
Proof. intros (H & _). unfold bucket. by rewrite H. Qed.

Lemma cache_inv_same_ids s s' : same_ids s s' → cache_inv s → cache_inv s'.
Proof.
  intros Hs [I1 I2 I3 I4]. pose proof Hs as (Hm & Hl & Hid).
  assert (∀ j, blockno (slot s' j) = blockno (slot s j)) as Hbn.
  { intros j. specialize (Hid j). unfold identity in Hid. congruence. }
  split.
  - by rewrite Hm.
  - intros b. rewrite Hl, I2. unfold linked.
    split; intros [i Hi]; exists i.
    + by rewrite (same_ids_bucket _ _ _ Hs).
    + by rewrite (same_ids_bucket _ _ _ Hs) in Hi.
  - intros i b Hb. rewrite (same_ids_bucket _ _ _ Hs) in Hb. rewrite Hbn. by apply I3.
  - intros i j Hi Hj. rewrite !Hid. rewrite Hl in Hi, Hj. by apply I4.
Qed.

Lemma bhashgetline_lt n : (bhashgetline n < MODNUM)%nat.
Proof.
  unfold bhashgetline, MODNUM.
  pose proof (Z.mod_pos_bound n (Z.of_nat 19) ltac:(lia)). lia.
Qed.

Lemma bhashget_walk_None bs l d n :
  bhashget_walk bs l d n = None ↔
  ∀ b, b ∈ l → identity (bs !!! b) ≠ (d, n).
Proof.
  unfold identity. induction l as [|x l IH]; simpl.
  - split; [|done]. intros _ b Hb. by apply elem_of_nil in Hb.
  - destruct (dev (bs !!! x) =? d) eqn:Ed; destruct (blockno (bs !!! x) =? n) eqn:En; simpl.
    + split; [done|]. intros H. exfalso. apply (H x); [left|]. f_equal; lia.
    + rewrite IH. split; intros H b Hb.
      * apply elem_of_cons in Hb as [->|Hb]; [|by apply H]. intros [=]. lia.
      * apply H. by right.
    + rewrite IH. split; intros H b Hb.
      * apply elem_of_cons in Hb as [->|Hb]; [|by apply H]. intros [=]. lia.
      * apply H. by right.
    + rewrite IH. split; intros H b Hb.
      * apply elem_of_cons in Hb as [->|Hb]; [|by apply H]. intros [=]. lia.
      * apply H. by right.
Qed.

Lemma bhashget_walk_Some bs l d n b :
  bhashget_walk bs l d n = Some b →
  ∃ l1 l2, l = l1 ++ b :: l2 ∧ identity (bs !!! b) = (d, n) ∧
           ∀ x, x ∈ l1 → identity (bs !!! x) ≠ (d, n).
Proof.
  unfold identity. induction l as [|x l IH]; simpl; [done|].
  destruct ((dev (bs !!! x) =? d) && (blockno (bs !!! x) =? n)) eqn:E.
  - intros [= ->]. exists [], l. split; [done|]. split.
    + apply andb_true_iff in E as [? ?]. f_equal; lia.
    + intros x Hx. by apply elem_of_nil in Hx.
  - intros H. destruct (IH H) as (l1 & l2 & -> & Hid & Hl1).
    exists (x :: l1), l2. split; [done|]. split; [done|].
    intros y Hy. apply elem_of_cons in Hy as [->|Hy]; [|by apply Hl1].
    intros [=]. apply andb_false_iff in E as [E|E]; lia.
Qed.

Lemma lookup_total_unlink v (m : list (list nat)) i :
  (unlink v <$> m) !!! i = unlink v (m !!! i).
Proof.
  rewrite !list_lookup_total_alt, list_lookup_fmap.
  by destruct (m !! i).
Qed.

Lemma elem_of_unlink v b l : b ∈ unlink v l ↔ b ≠ v ∧ b ∈ l.
Proof. unfold unlink. by rewrite list_elem_of_filter. Qed.

Lemma bhashmap_evict_state v h d n s :
  bhashmap (evict_state v h d n s) =
  <[h := v :: unlink v (bucket s h)]> (unlink v <$> bhashmap s).
Proof.
  unfold evict_state, recycle, bhashadd, modify, state_of. cbn.
  unfold bucket. cbn. by rewrite lookup_total_unlink.
Qed.

Lemma bucket_evict_state v h d n s i :
  (h < length (bhashmap s))%nat →
  bucket (evict_state v h d n s) i =
  if decide (i = h) then v :: unlink v (bucket s h) else unlink v (bucket s i).
Proof.
  intros Hh. unfold bucket at 1. rewrite bhashmap_evict_state.
  case_decide as E.
  - subst i. apply list_lookup_total_insert_eq. by rewrite length_fmap.
  - rewrite list_lookup_total_insert_ne by done. apply lookup_total_unlink.
Qed.

Lemma slot_log evs s b : slot (log evs s) b = slot s b.
Proof. reflexivity. Qed.
Lemma slot_upd_bhashmap f s b : slot (upd_bhashmap f s) b = slot s b.
Proof. reflexivity. Qed.
Lemma slot_upd_disk f s b : slot (upd_disk f s) b = slot s b.
Proof. reflexivity. Qed.
Lemma length_bufs_log evs s : length (bufs (log evs s)) = length (bufs s).
Proof. reflexivity. Qed.
Lemma length_bufs_upd_bhashmap f s : length (bufs (upd_bhashmap f s)) = length (bufs s).
Proof. reflexivity. Qed.

Lemma upd_slot_upd_slot b f g s :
  upd_slot b g (upd_slot b f s) = upd_slot b (fun bf => g (f bf)) s.
Proof.
  unfold upd_slot, upd_bufs; simpl. f_equal.
  destruct (decide (b < length (bufs s))%nat) as [Hb|Hb].
  - rewrite list_lookup_total_insert_eq by done. apply list_insert_insert_eq.
  - rewrite !list_insert_ge by (rewrite ?length_insert; lia). done.
Qed.

Lemma upd_slot_log b f evs s : upd_slot b f (log evs s) = log evs (upd_slot b f s).
Proof. reflexivity. Qed.

Lemma upd_slot_upd_bhashmap b f g s :
  upd_slot b f (upd_bhashmap g s) = upd_bhashmap g (upd_slot b f s).
Proof. reflexivity. Qed.

Lemma bufs_log evs s : bufs (log evs s) = bufs s.
Proof. reflexivity. Qed.

Lemma bufs_upd_bhashmap g s : bufs (upd_bhashmap g s) = bufs s.
Proof. reflexivity. Qed.

Lemma evict_state_bufs v h d n s :
  bufs (evict_state v h d n s) = bufs (upd_slot v (reassign d n) s).
Proof.
  unfold evict_state, recycle, bhashadd, modify, state_of, miss_state.
  rewrite !bufs_log, bufs_upd_bhashmap, bufs_log.
  rewrite !upd_slot_upd_slot.
  rewrite !upd_slot_log, upd_slot_upd_bhashmap, !upd_slot_log.
  rewrite !bufs_log, bufs_upd_bhashmap, !bufs_log.
  reflexivity.
Qed.

Lemma slot_evict_state v h d n s j :
  slot (evict_state v h d n s) j =
  if decide (j = v ∧ (v < length (bufs s))%nat) then reassign d n (slot s v) else slot s j.
Proof.
  unfold slot at 1. rewrite evict_state_bufs. apply slot_upd_slot.
Qed.

Lemma length_bufs_evict_state v h d n s :
  length (bufs (evict_state v h d n s)) = length (bufs s).
Proof. rewrite evict_state_bufs. apply length_upd_slot. Qed.

Lemma elem_of_scan_order s b :
  b ∈ scan_order s ↔ ∃ i, (i < MODNUM)%nat ∧ b ∈ bucket s i.
Proof.
  unfold scan_order. rewrite list_elem_of_bind. split.
  - intros (i & Hb & Hi). exists i. split; [|done].
    apply elem_of_seq in Hi. lia.
  - intros (i & Hi & Hb). exists i. split; [done|]. apply elem_of_seq. lia.
Qed.

Lemma bucket_nil_ge s i : (length (bhashmap s) ≤ i)%nat → bucket s i = [].
Proof. intros H. unfold bucket. by rewrite list_lookup_total_alt, lookup_ge_None_2. Qed.

Lemma linked_scan_order s b :
  length (bhashmap s) = MODNUM → linked s b ↔ b ∈ scan_order s.
Proof.
  intros Hl. rewrite elem_of_scan_order. unfold linked. split.
  - intros [i Hi]. exists i. split; [|done].
    destruct (decide (i < MODNUM)%nat); [done|].
    rewrite bucket_nil_ge in Hi by lia. by apply elem_of_nil in Hi.
  - intros (i & _ & Hi). by exists i.
Qed.

Lemma cache_inv_evict_state s v t d n :
  cache_inv s →
  bhashget_walk (bufs s) (bucket s (bhashgetline n)) d n = None →
  scan_pool s = (Some v, t) →
  cache_inv (evict_state v (bhashgetline n) d n s).
Proof.
  intros [I1 I2 I3 I4] Hmiss Hscan.
  set (h := bhashgetline n) in *.
  assert (h < length (bhashmap s))%nat as Hh by (rewrite I1; apply bhashgetline_lt).
  assert (v < length (bufs s))%nat as Hv.
  { apply I2, linked_scan_order; [done|].
    apply scan_pool_Some in Hscan as (l1 & l2 & -> & _).
    apply elem_of_app. right. by left. }
  assert (∀ j, (j < length (bufs s))%nat → j ≠ v → identity (slot s j) ≠ (d, n)) as Hfresh.
  { intros j Hj Hne Hid. apply I2 in Hj as [i Hi].
    pose proof (I3 i j Hi) as Hhome.
    assert (blockno (slot s j) = n) as Hn by (unfold identity in Hid; congruence).
    rewrite Hn in Hhome. fold h in Hhome. subst i.
    rewrite bhashget_walk_None in Hmiss. by apply (Hmiss j). }
  split.
  - rewrite bhashmap_evict_state, length_insert, length_fmap. done.
  - intros b. rewrite length_bufs_evict_state. unfold linked.
    split.
    + intros Hb. destruct (decide (b = v)) as [->|Hne].
      * exists h. rewrite bucket_evict_state by done. rewrite decide_True by done. by left.
      * apply I2 in Hb as [i Hi]. exists i.
        rewrite bucket_evict_state by done. case_decide; subst.
        -- right. by apply elem_of_unlink.
        -- by apply elem_of_unlink.
    + intros [i Hi]. rewrite bucket_evict_state in Hi by done.
      case_decide; subst.
      * apply elem_of_cons in Hi as [->|Hi]; [done|].
        apply elem_of_unlink in Hi as [_ Hi]. apply I2. by exists h.
      * apply elem_of_unlink in Hi as [_ Hi]. apply I2. by exists i.
  - intros i b Hb. rewrite bucket_evict_state in Hb by done.
    rewrite slot_evict_state.
    case_decide as Hi; subst.
    + apply elem_of_cons in Hb as [->|Hb].
      * rewrite decide_True by done. reflexivity.
      * apply elem_of_unlink in Hb as [Hne Hb].
        rewrite decide_False by (intros [? _]; done). by apply I3.
    + apply elem_of_unlink in Hb as [Hne Hb].
      rewrite decide_False by (intros [? _]; done). by apply I3.
  - intros i j. rewrite length_bufs_evict_state, !slot_evict_state. intros Hi Hj.
    destruct (decide (i = v)) as [->|Hiv]; destruct (decide (j = v)) as [->|Hjv].
    + by left.
    + rewrite decide_True by done. rewrite decide_False by (intros [? _]; done).
      intros Hid. exfalso. by apply (Hfresh j).
    + rewrite decide_False by (intros [? _]; done). rewrite decide_True by done.
      intros Hid. exfalso. by apply (Hfresh i).
    + rewrite !decide_False by (intros [? _]; done). by apply I4.
Qed.

Lemma upd_slot_id b f s : f (slot s b) = slot s b → upd_slot b f s = s.
Proof.
  intros Hf. destruct s as [bs m tk dsk tr]. unfold upd_slot, upd_bufs, slot in *; simpl in *.
  f_equal. rewrite Hf.
  destruct (decide (b < length bs)%nat) as [Hb|Hb].
  - apply list_insert_id. by apply list_lookup_lookup_total_lt.
  - apply list_insert_ge. lia.
Qed.

Lemma binit_link_loop k a bs m tk dsk tr :
  (∀ b, lock (bs !!! b) = None) → (0 < length m)%nat →
  mfor (seq a k) (fun b => initsleeplock b;;; bhashadd 0 b) (State bs m tk dsk tr) =
  Ret tt (State bs (<[0%nat := reverse (seq a k) ++ m !!! 0%nat]> m) tk dsk tr).
Proof.
  intros Hlock. revert a m. induction k as [|k IH]; intros a m Hm.
  - simpl. unfold ret. f_equal. f_equal. symmetry. apply list_insert_id.
    by apply list_lookup_lookup_total_lt.
  - cbn [seq mfor]. unfold bind at 1. unfold bind at 1, initsleeplock, modify at 1.
    rewrite upd_slot_id.
    2:{ unfold slot; simpl. specialize (Hlock a). by destruct (bs !!! a); simpl in *; subst. }
    unfold bhashadd, modify, upd_bhashmap, bucket. cbn [bufs bhashmap ticks disk trace].
    rewrite IH by (rewrite length_insert; done).
    f_equal. f_equal.
    rewrite list_lookup_total_insert_eq by done.
    rewrite list_insert_insert_eq. f_equal.
    rewrite reverse_cons, <- app_assoc. done.
Qed.

Lemma binit_boot NBUF BSIZE dsk :
  binit NBUF (boot NBUF BSIZE dsk) = Ret tt (init_state NBUF BSIZE dsk).
Proof.
  unfold binit, boot. unfold bind at 1.
  change (mfor (seq 0 MODNUM) _ _) with
    (Ret tt (State (replicate NBUF (zero_buf BSIZE)) (replicate MODNUM []) 0 dsk [])).
  cbv iota beta.
  rewrite binit_link_loop.
  - unfold init_state. f_equal. f_equal. f_equal. apply app_nil_r.
  - intros b. rewrite list_lookup_total_alt.
    destruct (replicate NBUF (zero_buf BSIZE) !! b) as [bf|] eqn:E; [|done].
    apply lookup_replicate in E as [-> _]. done.
  - rewrite length_replicate. unfold MODNUM. lia.
Qed.

Lemma slot_init_state NBUF BSIZE dsk b :
  identity (slot (init_state NBUF BSIZE dsk) b) = (0, 0).
Proof.
  unfold slot, init_state; simpl. rewrite list_lookup_total_alt.
  destruct (replicate NBUF (zero_buf BSIZE) !! b) as [bf|] eqn:E; [|done].
  apply lookup_replicate in E as [-> _]. done.
Qed.

Lemma bucket_init_state NBUF BSIZE dsk i :
  bucket (init_state NBUF BSIZE dsk) i = if decide (i = 0%nat) then reverse (seq 0 NBUF) else [].
Proof.
  unfold bucket, init_state. cbn [bhashmap]. case_decide as E.
  - subst. reflexivity.
  - rewrite list_lookup_total_insert_ne by done.
    rewrite list_lookup_total_alt.
    destruct (replicate MODNUM ([] : list nat) !! i) as [l|] eqn:El; [|done].
    apply lookup_replicate in El as [-> _]. done.
Qed.

Lemma cache_inv_init_state NBUF BSIZE dsk : cache_inv (init_state NBUF BSIZE dsk).
Proof.
  split.
  - reflexivity.
  - intros b. unfold linked. change (bufs (init_state NBUF BSIZE dsk)) with (replicate NBUF (zero_buf BSIZE)).
    rewrite length_replicate. split.
    + intros Hb. exists 0%nat. rewrite bucket_init_state. simpl.
      apply elem_of_reverse, elem_of_seq. lia.
    + intros [i Hi]. rewrite bucket_init_state in Hi. case_decide.
      * apply elem_of_reverse, elem_of_seq in Hi. lia.
      * by apply elem_of_nil in Hi.
  - intros i b Hb. rewrite bucket_init_state in Hb. case_decide.
    + subst. pose proof (slot_init_state NBUF BSIZE dsk b) as H. unfold identity in H.
      injection H as _ ->. reflexivity.
    + by apply elem_of_nil in Hb.
  - intros i j _ _ _. right. apply slot_init_state.
Qed.

Lemma cache_inv_acquiresleep pid b s :
  cache_inv s → cache_inv (state_of ((acquiresleep pid b;;; ret b) s)).
Proof.
  intros H. rewrite acquiresleep_ret. destruct (lock (slot s b)); [done|]. simpl.
  eapply cache_inv_same_ids; [|done]. apply same_ids_upd_slot. by intros [].
Qed.

Lemma cache_inv_bget fuel pid d n s :
  cache_inv s → cache_inv (state_of (bget (S fuel) quiet pid d n s)).
Proof.
  intros H.
  destruct (bhashget_walk (bufs s) (bucket s (bhashgetline n)) d n) as [b|] eqn:Hw.
  - rewrite bget_unroll. cbv zeta. rewrite Hw.
    apply cache_inv_acquiresleep. eapply cache_inv_same_ids; [|done]. apply same_ids_hit_state.
  - destruct (scan_pool s) as [[v|] t] eqn:Hscan.
    + erewrite bget_quiet_miss by done. apply cache_inv_acquiresleep.
      by eapply cache_inv_evict_state.
    + erewrite bget_quiet_exhausted by done. simpl.
      eapply cache_inv_same_ids; [|done].
      eapply same_ids_trans; [apply same_ids_miss_state|apply same_ids_log].
Qed.

Lemma cache_inv_bread fuel pid d n s :
  cache_inv s → cache_inv (state_of (bread (S fuel) quiet pid d n s)).
Proof.
  intros H. rewrite bread_unroll.
  pose proof (cache_inv_bget fuel pid d n s H) as H'.
  destruct (bget (S fuel) quiet pid d n s) as [b s'| | |]; simpl in *; try done.
  destruct (valid (slot s' b) =? 0); simpl; [|done].
  eapply cache_inv_same_ids; [|done]. apply same_ids_read_state.
Qed.

Lemma cache_inv_do_call c s : cache_inv s → cache_inv (do_call c s).
Proof.
  intros H. destruct c; simpl.
  - by apply cache_inv_bget.
  - by apply cache_inv_bread.
  - rewrite bwrite_unroll. destruct (holdingsleep _ _); simpl; [|done].
    eapply cache_inv_same_ids; [|done]. apply same_ids_write_state.
  - rewrite brelse_unroll. destruct (holdingsleep _ _); simpl; [|done].
    eapply cache_inv_same_ids; [|done]. apply same_ids_release_state.
  - eapply cache_inv_same_ids; [|done]. apply (same_ids_pin_state 1).
  - eapply cache_inv_same_ids; [|done]. apply (same_ids_pin_state (-1)).
  - eapply cache_inv_same_ids; [|done]. apply same_ids_clockintr.
Qed.

Lemma cache_inv_run cs s : cache_inv s → cache_inv (run cs s).
Proof.
  revert s. induction cs as [|c cs IH]; intros s H; [done|].
  simpl. apply IH. by apply cache_inv_do_call.
Qed.

Lemma scan_pool_exhausted s :
  (∀ b, b ∈ scan_order s → refcnt (slot s b) ≠ 0) → ∃ t, scan_pool s = (None, t).
Proof.
  intros H. destruct (scan_pool s) as [[v|] t] eqn:E; [|by exists t].
  apply scan_pool_Some in E as (l1 & l2 & Hl & Hr & _).
  exfalso. apply (H v); [|done]. rewrite Hl. apply elem_of_app. right. by left.
Qed.

(** C3.  When [bget] misses and no slot of the pool has reference count 0,
    it panics with "bget: no buffers": it does not sleep, does not scan again
    (one round of fuel is enough, whatever the other processors do) and
    returns no value.  The pool and the buckets are left as they were. *)
Theorem bget_exhausted_panics fuel env pid d n s :
  bhashget_walk (bufs s) (bucket s (bhashgetline n)) d n = None →
  (∀ b, b ∈ scan_order s → (b < length (bufs s))%nat) →
  (∀ b, (b < length (bufs s))%nat → refcnt (slot s b) ≠ 0) →
  ∃ s', bget (S fuel) env pid d n s = Panic "bget: no buffers" s' ∧
        bufs s' = bufs s ∧ bhashmap s' = bhashmap s.
Proof.
  intros Hmiss Hin Hbusy.
  destruct (scan_pool_exhausted s) as [t Ht].
  { intros b Hb. by apply Hbusy, Hin. }
  eexists. split; [by eapply bget_quiet_exhausted|]. done.
Qed.

Lemma bget_exhausted_panics_witness :
  ∃ s', bget 1 quiet 9 1 3 busy_state = Panic "bget: no buffers" s' ∧
        bufs s' = bufs busy_state ∧ bhashmap s' = bhashmap busy_state.
Proof.
  apply (bget_exhausted_panics 0 quiet 9 1 3 busy_state).
  - reflexivity.
  - intros b Hb. vm_compute in Hb.
    apply elem_of_cons in Hb as [->|Hb]; [simpl; lia|].
    apply elem_of_cons in Hb as [->|Hb]; [simpl; lia|].
    by apply elem_of_nil in Hb.
  - intros b Hb. simpl in Hb.
    destruct b as [|[|b]]; [vm_compute; discriminate|vm_compute; discriminate|lia].
Defined.

(** C1 (the code departs from the claim).  A slot released at tick
    [0xFFFFFFFF] has reference count 0 and is linked, yet the scan, which
    starts from [lru_time = 0xFFFFFFFF] and compares with [<], never selects
    it: a miss on another block panics with "bget: no buffers" although a
    slot with reference count 0 exists. *)
Theorem bget_panics_on_sentinel_stamp :
  let s := state_of (brelse 7 0 last_tick_state) in
  returned (brelse 7 0 last_tick_state) = Some tt ∧
  scan_order s = [0%nat] ∧
  refcnt (slot s 0) = 0 ∧ timestamp (slot s 0) = UINT_MAX ∧
  bhashget_walk (bufs s) (bucket s (bhashgetline 2)) 1 2 = None ∧
  panic_msg (bget 1 quiet 7 1 2 s) = Some "bget: no buffers"%string.
Proof. vm_compute. repeat split; reflexivity. Qed.

Lemma bucket_upd_slot b f s i : bucket (upd_slot b f s) i = bucket s i.
Proof. reflexivity. Qed.
Lemma bucket_log evs s i : bucket (log evs s) i = bucket s i.
Proof. reflexivity. Qed.
Lemma bucket_upd_disk f s i : bucket (upd_disk f s) i = bucket s i.
Proof. reflexivity. Qed.
Lemma bhashmap_upd_slot b f s : bhashmap (upd_slot b f s) = bhashmap s.
Proof. reflexivity. Qed.
Lemma bhashmap_log evs s : bhashmap (log evs s) = bhashmap s.
Proof. reflexivity. Qed.
Lemma bhashmap_upd_disk f s : bhashmap (upd_disk f s) = bhashmap s.
Proof. reflexivity. Qed.
Lemma disk_upd_slot b f s : disk (upd_slot b f s) = disk s.
Proof. reflexivity. Qed.
Lemma disk_log evs s : disk (log evs s) = disk s.
Proof. reflexivity. Qed.
Lemma disk_upd_bhashmap f s : disk (upd_bhashmap f s) = disk s.
Proof. reflexivity. Qed.
Lemma disk_upd_disk f s : disk (upd_disk f s) = f (disk s).
Proof. reflexivity. Qed.
Lemma ticks_upd_slot b f s : ticks (upd_slot b f s) = ticks s.
Proof. reflexivity. Qed.
Lemma ticks_log evs s : ticks (log evs s) = ticks s.
Proof. reflexivity. Qed.
Lemma ticks_upd_bhashmap f s : ticks (upd_bhashmap f s) = ticks s.
Proof. reflexivity. Qed.
Lemma ticks_upd_disk f s : ticks (upd_disk f s) = ticks s.
Proof. reflexivity. Qed.
Lemma trace_upd_slot b f s : trace (upd_slot b f s) = trace s.
Proof. reflexivity. Qed.
Lemma trace_log evs s : trace (log evs s) = trace s ++ evs.
Proof. reflexivity. Qed.
Lemma trace_upd_bhashmap f s : trace (upd_bhashmap f s) = trace s.
Proof. reflexivity. Qed.
Lemma trace_upd_disk f s : trace (upd_disk f s) = trace s.
Proof. reflexivity. Qed.
Lemma length_bufs_upd_disk f s : length (bufs (upd_disk f s)) = length (bufs s).
Proof. reflexivity. Qed.

Create Rewrite HintDb bio.
#[global] Hint Rewrite
  slot_log slot_upd_bhashmap slot_upd_disk
  bucket_upd_slot bucket_log bucket_upd_disk
  bhashmap_upd_slot bhashmap_log bhashmap_upd_disk
  disk_upd_slot disk_log disk_upd_bhashmap disk_upd_disk
  ticks_upd_slot ticks_log ticks_upd_bhashmap ticks_upd_disk
  trace_upd_slot trace_log trace_upd_bhashmap trace_upd_disk
  length_upd_slot length_bufs_log length_bufs_upd_bhashmap length_bufs_upd_disk : bio.

Lemma disk_evict_state v h d n s : disk (evict_state v h d n s) = disk s.
Proof.
  unfold evict_state, recycle, bhashadd, modify, state_of, miss_state.
  by autorewrite with bio.
Qed.
Lemma ticks_evict_state v h d n s : ticks (evict_state v h d n s) = ticks s.
Proof.
  unfold evict_state, recycle, bhashadd, modify, state_of, miss_state.
  by autorewrite with bio.
Qed.

(** The slot a miss hands out: the victim, re-keyed and locked. *)
Lemma bget_miss_returns fuel pid d n s v t :
  bhashget_walk (bufs s) (bucket s (bhashgetline n)) d n = None →
  scan_pool s = (Some v, t) →
  (v < length (bufs s))%nat →
  lock (slot s v) = None →
  bget (S fuel) quiet pid d n s =
  Ret v (upd_slot v (set_lock (Some pid)) (evict_state v (bhashgetline n) d n s)).
Proof.
  intros Hmiss Hscan Hv Hlock.
  erewrite bget_quiet_miss by done. rewrite acquiresleep_ret.
  rewrite slot_evict_state, decide_True by done.
  cbn [reassign set_refcnt set_valid set_blockno set_dev lock]. by rewrite Hlock.
Qed.

(** C4.  On a miss whose scan picks the victim [v], [bget] returns [v] with
    identity [(d, n)], [valid = 0] and [refcnt = 1]; [v] is the head of the
    bucket [n] selects and is gone from every other bucket, whose other
    members are unchanged.  [bread] of the same block from the same state then
    does one device read into [v] and sets [valid]. *)
Theorem bget_miss_postcondition fuel pid d n s v t :
  bhashget_walk (bufs s) (bucket s (bhashgetline n)) d n = None →
  scan_pool s = (Some v, t) →
  (v < length (bufs s))%nat →
  (bhashgetline n < length (bhashmap s))%nat →
  lock (slot s v) = None →
  ∃ s',
    bget (S fuel) quiet pid d n s = Ret v s' ∧
    dev (slot s' v) = d ∧ blockno (slot s' v) = n ∧
    valid (slot s' v) = 0 ∧ refcnt (slot s' v) = 1 ∧
    bucket s' (bhashgetline n) = v :: unlink v (bucket s (bhashgetline n)) ∧
    (∀ i, i ≠ bhashgetline n → bucket s' i = unlink v (bucket s i) ∧ v ∉ bucket s' i) ∧
    ∃ s'',
      bread (S fuel) quiet pid d n s = Ret v s'' ∧
      trace s'' = trace s' ++ [EvTransfer v false] ∧
      valid (slot s'' v) = 1 ∧ data (slot s'' v) = disk s d n.
Proof.
  intros Hmiss Hscan Hv Hh Hlock.
  pose proof (bget_miss_returns fuel pid d n s v t Hmiss Hscan Hv Hlock) as Hget.
  set (s1 := evict_state v (bhashgetline n) d n s) in *.
  assert (v < length (bufs s1))%nat as Hv1 by (unfold s1; by rewrite length_bufs_evict_state).
  assert (slot (upd_slot v (set_lock (Some pid)) s1) v =
          set_lock (Some pid) (reassign d n (slot s v))) as Hslot.
  { rewrite slot_upd_slot_eq by done. unfold s1.
    rewrite slot_evict_state, decide_True by done. done. }
  eexists. split; [exact Hget|].
  rewrite Hslot. repeat split.
  - rewrite bucket_upd_slot. unfold s1. rewrite bucket_evict_state by done.
    by rewrite decide_True.
  - rewrite bucket_upd_slot. unfold s1. rewrite bucket_evict_state by done.
    by rewrite decide_False.
  - rewrite bucket_upd_slot. unfold s1. rewrite bucket_evict_state by done.
    rewrite decide_False by done. rewrite elem_of_unlink. by intros [? _].
  - eexists. split.
    + rewrite bread_unroll, Hget, Hslot.
      cbn [valid set_lock reassign set_refcnt set_valid set_blockno set_dev Z.eqb]. reflexivity.
    + assert (v < length (bufs (upd_slot v (set_lock (Some pid)) s1)))%nat as Hv2
        by (by rewrite length_upd_slot).
      unfold read_state. split; [by autorewrite with bio|].
      rewrite slot_upd_slot_eq by (by autorewrite with bio).
      rewrite slot_log, slot_upd_slot_eq by done.
      rewrite Hslot. split; [reflexivity|].
      cbn [data set_data dev blockno set_lock reassign set_refcnt set_valid set_blockno set_dev].
      rewrite disk_upd_slot. unfold s1. by rewrite disk_evict_state.
Qed.

Lemma bget_miss_postcondition_witness :
  ∃ s',
    bget 1 quiet 7 1 20 (init_state 3 2 no_disk) = Ret 2%nat s' ∧
    dev (slot s' 2) = 1 ∧ blockno (slot s' 2) = 20 ∧
    valid (slot s' 2) = 0 ∧ refcnt (slot s' 2) = 1 ∧
    bucket s' (bhashgetline 20) = 2%nat :: unlink 2 (bucket (init_state 3 2 no_disk) (bhashgetline 20)) ∧
    (∀ i, i ≠ bhashgetline 20 →
       bucket s' i = unlink 2 (bucket (init_state 3 2 no_disk) i) ∧ 2%nat ∉ bucket s' i) ∧
    ∃ s'',
      bread 1 quiet 7 1 20 (init_state 3 2 no_disk) = Ret 2%nat s'' ∧
      trace s'' = trace s' ++ [EvTransfer 2 false] ∧
      valid (slot s'' 2) = 1 ∧ data (slot s'' 2) = no_disk 1 20.
Proof.
  apply (bget_miss_postcondition 0 7 1 20 (init_state 3 2 no_disk) 2 0).
  - reflexivity.
  - reflexivity.
  - simpl. lia.
  - vm_compute. lia.
  - reflexivity.
Defined.

Lemma bufs_upd_disk f s : bufs (upd_disk f s) = bufs s.
Proof. reflexivity. Qed.
Lemma upd_slot_upd_disk b f g s :
  upd_slot b f (upd_disk g s) = upd_disk g (upd_slot b f s).
Proof. reflexivity. Qed.

Lemma bufs_pin_state delta b s :
  bufs (pin_state delta b s) = bufs (upd_slot b (frees delta) s).
Proof.
  unfold pin_state. cbv zeta. rewrite bufs_log, upd_slot_log, bufs_log. reflexivity.
Qed.

Lemma bufs_release_state b s :
  bufs (release_state b s) = bufs (upd_slot b (released (ticks s)) s).
Proof.
  unfold release_state. cbv zeta.
  rewrite bufs_log, !upd_slot_log, !bufs_log, !upd_slot_upd_slot. reflexivity.
Qed.

Lemma bufs_hit_state b h s :
  bufs (hit_state b h s) = bufs (upd_slot b (frees 1) s).
Proof.
  unfold hit_state. rewrite !bufs_log, !upd_slot_log, !bufs_log. reflexivity.
Qed.

Lemma bufs_write_state b s : bufs (write_state b s) = bufs s.
Proof. reflexivity. Qed.

Lemma slot_pin_state delta b s j :
  slot (pin_state delta b s) j =
  if decide (j = b ∧ (b < length (bufs s))%nat) then frees delta (slot s b) else slot s j.
Proof. unfold slot at 1. rewrite bufs_pin_state. apply slot_upd_slot. Qed.

Lemma slot_release_state b s j :
  slot (release_state b s) j =
  if decide (j = b ∧ (b < length (bufs s))%nat) then released (ticks s) (slot s b) else slot s j.
Proof. unfold slot at 1. rewrite bufs_release_state. apply slot_upd_slot. Qed.

Lemma slot_hit_state b h s j :
  slot (hit_state b h s) j =
  if decide (j = b ∧ (b < length (bufs s))%nat) then frees 1 (slot s b) else slot s j.
Proof. unfold slot at 1. rewrite bufs_hit_state. apply slot_upd_slot. Qed.

Lemma same_except_pin_state delta b s : same_except b s (pin_state delta b s).
Proof.
  unfold same_except. repeat split.
  - rewrite bufs_pin_state. apply length_upd_slot.
  - intros j Hj. rewrite slot_pin_state. by rewrite decide_False by (by intros [? _]).
Qed.

Lemma same_except_release_state b s : same_except b s (release_state b s).
Proof.
  unfold same_except. repeat split.
  - rewrite bufs_release_state. apply length_upd_slot.
  - intros j Hj. rewrite slot_release_state. by rewrite decide_False by (by intros [? _]).
Qed.

Lemma only_refcnt_changed_pin_state delta b s :
  only_refcnt_changed b s (pin_state delta b s).
Proof.
  split; [apply same_except_pin_state|].
  rewrite slot_pin_state. case_decide; by repeat split.
Qed.

(** C10.  [bpin] and [bunpin] always return, and change nothing but the
    reference count of the slot they are given: its identity, [valid],
    payload, time stamp and lock, every other slot, the buckets, the clock and
    the disk are as before. *)
Theorem pin_unpin_frame b s :
  ∃ s1 s2,
    bpin b s = Ret tt s1 ∧ bunpin b s = Ret tt s2 ∧
    only_refcnt_changed b s s1 ∧ only_refcnt_changed b s s2.
Proof.
  exists (pin_state 1 b s), (pin_state (-1) b s).
  split; [apply bpin_unroll|]. split; [apply bunpin_unroll|].
  split; apply only_refcnt_changed_pin_state.
Qed.

(** C8 (counterexample).  [bunpin] on a slot with reference count 0 returns
    without a panic and leaves the count at 2^32 - 1. *)
Lemma bunpin_wraps_at_zero :
  refcnt (slot idle_state 0) = 0 ∧
  returned (bunpin 0 idle_state) = Some tt ∧
  panic_msg (bunpin 0 idle_state) = None ∧
  refcnt (slot (state_of (bunpin 0 idle_state)) 0) = 4294967295.
Proof. vm_compute. repeat split; reflexivity. Qed.

(** C8 (amended).  [bunpin] has no check: it always returns, with the
    reference count decremented modulo 2^32.  From 0 it wraps to [0xFFFFFFFF];
    from a positive count it goes down by one. *)
Theorem bunpin_decrements_modulo b s :
  (b < length (bufs s))%nat →
  ∃ s',
    bunpin b s = Ret tt s' ∧
    refcnt (slot s' b) = to_uint (refcnt (slot s b) - 1) ∧
    (refcnt (slot s b) = 0 → refcnt (slot s' b) = UINT_MAX) ∧
    (0 < refcnt (slot s b) ≤ UINT_MAX → refcnt (slot s' b) = refcnt (slot s b) - 1).
Proof.
  intros Hb. exists (pin_state (-1) b s). split; [apply bunpin_unroll|].
  rewrite slot_pin_state, decide_True by done.
  cbn [frees set_refcnt refcnt]. unfold to_uint, UINT_MAX.
  split; [reflexivity|]. split.
  - intros ->. reflexivity.
  - intros [H1 H2]. replace (refcnt (slot s b) + -1) with (refcnt (slot s b) - 1) by lia.
    apply Z.mod_small. lia.
Qed.

Lemma bunpin_decrements_modulo_witness :
  ∃ s',
    bunpin 0 idle_state = Ret tt s' ∧
    refcnt (slot s' 0) = to_uint (refcnt (slot idle_state 0) - 1) ∧
    (refcnt (slot idle_state 0) = 0 → refcnt (slot s' 0) = UINT_MAX) ∧
    (0 < refcnt (slot idle_state 0) ≤ UINT_MAX →
     refcnt (slot s' 0) = refcnt (slot idle_state 0) - 1).
Proof. apply (bunpin_decrements_modulo 0 idle_state). simpl. lia. Defined.

(** C7.  [bwrite] panics with "bwrite", leaving the state as it is, when the
    caller does not hold the slot's sleep-lock.  When the caller holds it,
    [bwrite] returns after one device write of the slot's payload to the
    block of its identity; the pool (so the lock, reference count, identity,
    [valid] and time stamp of every slot), the buckets and the clock are
    unchanged, and so is every other block of the disk. *)
Theorem bwrite_spec pid b s :
  bwrite pid b s =
    (if holdingsleep pid (slot s b) then Ret tt (write_state b s) else Panic "bwrite" s) ∧
  bufs (write_state b s) = bufs s ∧
  bhashmap (write_state b s) = bhashmap s ∧
  ticks (write_state b s) = ticks s ∧
  trace (write_state b s) = trace s ++ [EvTransfer b true] ∧
  disk (write_state b s) (dev (slot s b)) (blockno (slot s b)) = data (slot s b) ∧
  ∀ d n, (d, n) ≠ identity (slot s b) → disk (write_state b s) d n = disk s d n.
Proof.
  split; [apply bwrite_unroll|].
  unfold write_state. autorewrite with bio.
  repeat split.
  - unfold disk_store. by rewrite bool_decide_true.
  - intros d n Hne. unfold disk_store. rewrite bool_decide_false; [done|].
    intros [-> ->]. by apply Hne.
Qed.

(** C5 (counterexample).  A release that leaves the reference count at 1
    changes the time stamp from 5 to the current tick 9. *)
Lemma brelse_restamps_referenced_slot :
  returned (brelse 7 0 shared_state) = Some tt ∧
  refcnt (slot (state_of (brelse 7 0 shared_state)) 0) = 1 ∧
  timestamp (slot shared_state 0) = 5 ∧
  timestamp (slot (state_of (brelse 7 0 shared_state)) 0) = 9.
Proof. vm_compute. repeat split; reflexivity. Qed.

(** C5 (amended).  Called by the holder of the slot's sleep-lock, [brelse]
    releases the lock, decrements the reference count modulo 2^32 and sets
    the time stamp to the current [ticks], whether or not the count reaches 0;
    the slot's identity, [valid] and payload, and everything outside the slot,
    are unchanged. *)
Theorem brelse_spec pid b s :
  (b < length (bufs s))%nat →
  holdingsleep pid (slot s b) = true →
  ∃ s',
    brelse pid b s = Ret tt s' ∧
    lock (slot s' b) = None ∧
    refcnt (slot s' b) = to_uint (refcnt (slot s b) - 1) ∧
    timestamp (slot s' b) = ticks s ∧
    dev (slot s' b) = dev (slot s b) ∧ blockno (slot s' b) = blockno (slot s b) ∧
    valid (slot s' b) = valid (slot s b) ∧ data (slot s' b) = data (slot s b) ∧
    same_except b s s'.
Proof.
  intros Hb Hhold. rewrite brelse_unroll, Hhold.
  exists (release_state b s). split; [done|].
  rewrite slot_release_state, decide_True by done.
  split; [reflexivity|]. split; [reflexivity|]. split; [reflexivity|].
  split; [reflexivity|]. split; [reflexivity|]. split; [reflexivity|].
  split; [reflexivity|]. apply same_except_release_state.
Qed.

Lemma brelse_spec_witness :
  ∃ s',
    brelse 7 0 shared_state = Ret tt s' ∧
    lock (slot s' 0) = None ∧
    refcnt (slot s' 0) = to_uint (refcnt (slot shared_state 0) - 1) ∧
    timestamp (slot s' 0) = ticks shared_state ∧
    dev (slot s' 0) = dev (slot shared_state 0) ∧
    blockno (slot s' 0) = blockno (slot shared_state 0) ∧
    valid (slot s' 0) = valid (slot shared_state 0) ∧
    data (slot s' 0) = data (slot shared_state 0) ∧
    same_except 0 shared_state s'.
Proof.
  apply (brelse_spec 7 0 shared_state).
  - simpl. lia.
  - reflexivity.
Defined.

Lemma bhashget_walk_ext bs bs' l d n :
  (∀ j, identity (bs' !!! j) = identity (bs !!! j)) →
  bhashget_walk bs' l d n = bhashget_walk bs l d n.
Proof.
  intros H. induction l as [|x l IH]; [done|]. simpl.
  specialize (H x). unfold identity in H. injection H as -> ->. by rewrite IH.
Qed.

Lemma bhashget_walk_same_ids s s' i d n :
  same_ids s s' →
  bhashget_walk (bufs s') (bucket s' i) d n = bhashget_walk (bufs s) (bucket s i) d n.
Proof.
  intros Hs. rewrite (same_ids_bucket _ _ _ Hs).
  apply bhashget_walk_ext. intros j. destruct Hs as (_ & _ & H). exact (H j).
Qed.

(** C6.  For a slot [b] that is cached under its key, valid and locked by
    the caller: [bwrite b], then [brelse b], then [bread] of [b]'s key return
    [b] again, locked by the caller, with the payload that was written (which
    is what the disk holds for that block) and [valid] still 1.  The [bread]
    only takes and drops the two locks of the bucket: it makes no device
    transfer. *)
Theorem read_after_write fuel env pid b s :
  (b < length (bufs s))%nat →
  holdingsleep pid (slot s b) = true →
  valid (slot s b) = 1 →
  bhashget_walk (bufs s) (bucket s (bhashgetline (blockno (slot s b))))
    (dev (slot s b)) (blockno (slot s b)) = Some b →
  ∃ s1 s2 s3,
    bwrite pid b s = Ret tt s1 ∧
    brelse pid b s1 = Ret tt s2 ∧
    bread fuel env pid (dev (slot s b)) (blockno (slot s b)) s2 = Ret b s3 ∧
    trace s1 = trace s ++ [EvTransfer b true] ∧
    trace s3 = trace s2 ++
      [EvAcquire (hash_lock_add (bhashgetline (blockno (slot s b))));
       EvAcquire (hash_lock (bhashgetline (blockno (slot s b))));
       EvRelease (hash_lock (bhashgetline (blockno (slot s b))));
       EvRelease (hash_lock_add (bhashgetline (blockno (slot s b))))] ∧
    data (slot s3 b) = data (slot s b) ∧
    disk s3 (dev (slot s b)) (blockno (slot s b)) = data (slot s b) ∧
    valid (slot s3 b) = 1 ∧
    lock (slot s3 b) = Some pid ∧
    refcnt (slot s3 b) = to_uint (to_uint (refcnt (slot s b) - 1) + 1).
Proof.
  intros Hb Hhold Hvalid Hfind.
  set (h := bhashgetline (blockno (slot s b))) in *.
  set (s1 := write_state b s).
  set (s2 := release_state b s1).
  set (s3 := upd_slot b (set_lock (Some pid)) (hit_state b h s2)).
  assert (same_ids s s2) as Hids.
  { eapply same_ids_trans; [apply same_ids_write_state|apply same_ids_release_state]. }
  assert (slot s2 b = released (ticks s) (slot s b)) as Hs2.
  { unfold s2. rewrite slot_release_state, decide_True by done. reflexivity. }
  assert (length (bufs s2) = length (bufs s)) as Hlen by (by destruct Hids as (_ & ? & _)).
  assert (slot (hit_state b h s2) b = frees 1 (released (ticks s) (slot s b))) as Hhit.
  { rewrite slot_hit_state, decide_True by (split; [done|lia]). by rewrite Hs2. }
  assert (slot s3 b = set_lock (Some pid) (frees 1 (released (ticks s) (slot s b)))) as Hs3.
  { unfold s3. rewrite slot_upd_slot_eq.
    - by rewrite Hhit.
    - rewrite bufs_hit_state, length_upd_slot. lia. }
  assert (bget fuel env pid (dev (slot s b)) (blockno (slot s b)) s2 = Ret b s3) as Hget.
  { rewrite bget_unroll. cbv zeta. fold h.
    rewrite (bhashget_walk_same_ids s s2) by done. rewrite Hfind.
    rewrite acquiresleep_ret, Hhit. reflexivity. }
  exists s1, s2, s3.
  split. { rewrite bwrite_unroll, Hhold. reflexivity. }
  split. { rewrite brelse_unroll. change (slot s1 b) with (slot s b). rewrite Hhold. reflexivity. }
  split. { rewrite bread_unroll, Hget, Hs3.
           cbn [valid set_lock frees released set_refcnt set_timestamp].
           rewrite Hvalid. reflexivity. }
  split; [reflexivity|].
  split. { unfold s3, hit_state. autorewrite with bio. by rewrite <- !app_assoc. }
  rewrite Hs3. cbn [data valid lock refcnt set_lock frees released set_refcnt set_timestamp].
  split; [reflexivity|].
  split. { unfold s3, hit_state, s2, release_state. cbv zeta. autorewrite with bio.
           unfold s1, write_state. autorewrite with bio.
           unfold disk_store. by rewrite bool_decide_true. }
  split; [done|]. split; [reflexivity|]. reflexivity.
Qed.

Lemma read_after_write_witness :
  ∃ s1 s2 s3,
    bwrite 7 2 cached_state = Ret tt s1 ∧
    brelse 7 2 s1 = Ret tt s2 ∧
    bread 0 quiet 7 1 20 s2 = Ret 2%nat s3 ∧
    data (slot s3 2) = data (slot cached_state 2) ∧
    valid (slot s3 2) = 1.
Proof.
  destruct (read_after_write 0 quiet 7 2 cached_state)
    as (s1 & s2 & s3 & H1 & H2 & H3 & _ & _ & H6 & _ & H8 & _).
  - vm_compute. lia.
  - reflexivity.
  - reflexivity.
  - reflexivity.
  - exists s1, s2, s3. split; [exact H1|]. split; [exact H2|]. split; [exact H3|].
    split; [exact H6|exact H8].
Defined.

Lemma revalidate_false s v t :
  revalidate s v t = false ↔ refcnt (slot s v) ≠ 0 ∨ timestamp (slot s v) ≠ t.
Proof.
  unfold revalidate.
  destruct (refcnt (slot s v) =? 0) eqn:E1; destruct (timestamp (slot s v) =? t) eqn:E2;
    simpl; split; try discriminate; try done; try (intros; lia); intros [?|?]; lia.
Qed.

Lemma bget_evict_safe fuel env r pid h d n s b s' :
  bget_evict fuel env r pid h d n s = Ret b s' →
  recycled_after_revalidation env pid h d n r b s'.
Proof.
  revert r s. induction fuel as [|fuel IH]; intros r s; [done|].
  rewrite bget_evict_unroll.
  destruct (scan_pool s) as [[v|] t] eqn:Hscan; [|done].
  cbv zeta. destruct (revalidate _ v t) eqn:Hre.
  - rewrite acquiresleep_ret. destruct (lock _); [done|].
    intros [= <- <-]. apply revalidate_true in Hre as [Hr Ht].
    exists r, s, t. split; [lia|]. split; [done|]. cbv zeta. done.
  - intros H. apply IH in H as (r' & sr & t' & Hle & H).
    exists r', sr, t'. split; [lia|done].
Qed.

(** C9.  After a scan that picked [v] with stamp [t], [bget] takes the lock
    of the bucket [v]'s block number now selects and looks at [v] again, in
    the state [s1] the other processors have left.  If [v] is referenced or
    its stamp is no longer [t], the lock is dropped and the loop starts the
    next round with a new scan; otherwise [v] is recycled.  So whenever the
    loop returns a slot, that slot had reference count 0 and the scanned stamp
    while its bucket lock was held in the last round. *)
Theorem bget_evict_revalidates fuel env r pid h d n s v t :
  scan_pool s = (Some v, t) →
  let s1 := env r (log (scan_events (seq 0 MODNUM)) s) in
  let lru_h := bhashgetline (blockno (slot s1 v)) in
  let locked := log [EvAcquire (hash_lock lru_h)] s1 in
  (refcnt (slot s1 v) ≠ 0 ∨ timestamp (slot s1 v) ≠ t →
   bget_evict (S fuel) env r pid h d n s =
   bget_evict fuel env (S r) pid h d n (log [EvRelease (hash_lock lru_h)] locked)) ∧
  (refcnt (slot s1 v) = 0 ∧ timestamp (slot s1 v) = t →
   bget_evict (S fuel) env r pid h d n s =
   (acquiresleep pid v;;; ret v) (recycle v lru_h h d n s1)) ∧
  (∀ b s', bget_evict (S fuel) env r pid h d n s = Ret b s' →
           recycled_after_revalidation env pid h d n r b s').
Proof.
  intros Hscan. cbv zeta. split; [|split].
  - intros H. apply revalidate_false in H. rewrite bget_evict_unroll, Hscan. cbv zeta.
    by rewrite H.
  - intros H. apply revalidate_true in H. rewrite bget_evict_unroll, Hscan. cbv zeta.
    by rewrite H.
  - intros b s'. apply bget_evict_safe.
Qed.

Lemma bget_evict_revalidates_witness :
  scan_pool (init_state 3 2 no_disk) = (Some 2%nat, 0) ∧
  returned (bget_evict 2 pin_in_round_0 0 7 1 1 20 (init_state 3 2 no_disk)) = Some 1%nat.
Proof.
  split; [reflexivity|].
  destruct (bget_evict_revalidates 1 pin_in_round_0 0 7 1 1 20 (init_state 3 2 no_disk) 2 0)
    as (Hretry & _ & _); [reflexivity|].
  rewrite Hretry; [reflexivity|]. left. vm_compute. discriminate.
Defined.

(** C2 (counterexample).  Right after [binit] on a pool of two slots, both
    slots carry the identity [(0, 0)]. *)
Lemma binit_leaves_duplicate_identity :
  let s := state_of (binit 2 (boot 2 1 no_disk)) in
  length (bufs s) = 2%nat ∧ 0%nat ≠ 1%nat ∧
  identity (slot s 0) = (0, 0) ∧ identity (slot s 1) = (0, 0).
Proof. vm_compute. repeat split; try reflexivity. discriminate. Qed.

(** C2 (amended).  After [binit] and any sequence of [bget], [bread],
    [bwrite], [brelse], [bpin], [bunpin] calls and clock ticks, two different
    slots with the same (device, block) identity both carry [(0, 0)], the
    identity [binit] leaves on every slot; any other identity is carried by at
    most one slot. *)
Theorem identity_unique_except_zero NBUF BSIZE dsk cs i j :
  let s := run cs (state_of (binit NBUF (boot NBUF BSIZE dsk))) in
  (i < length (bufs s))%nat → (j < length (bufs s))%nat →
  identity (slot s i) = identity (slot s j) →
  i = j ∨ identity (slot s i) = (0, 0).
Proof.
  cbv zeta. rewrite binit_boot. cbn [state_of].
  apply inv_unique, cache_inv_run, cache_inv_init_state.
Qed.

Lemma identity_unique_except_zero_witness :
  let s := run [Cbread 7 1 20; Cbrelse 7 2] (state_of (binit 3 (boot 3 2 no_disk))) in
  (0%nat = 1%nat ∨ identity (slot s 0) = (0, 0)) ∧
  (2%nat = 2%nat ∨ identity (slot s 2) = (0, 0)).
Proof.
  cbv zeta. split.
  - apply (identity_unique_except_zero 3 2 no_disk [Cbread 7 1 20; Cbrelse 7 2] 0 1).
    + vm_compute. lia.
    + vm_compute. lia.
    + reflexivity.
  - apply (identity_unique_except_zero 3 2 no_disk [Cbread 7 1 20; Cbrelse 7 2] 2 2).
    + vm_compute. lia.
    + vm_compute. lia.
    + reflexivity.
Defined.

(** When some linked slot has reference count 0 and a stamp below
    [0xFFFFFFFF], a miss recycles the first slot in scan order (buckets 0 to
    18, each from its head) whose stamp is the least among the linked slots
    with reference count 0. *)
Theorem bget_evicts_global_lru fuel pid d n s b :
  bhashget_walk (bufs s) (bucket s (bhashgetline n)) d n = None →
  b ∈ scan_order s → refcnt (slot s b) = 0 → timestamp (slot s b) < UINT_MAX →
  ∃ v l1 l2,
    state_of (bget (S fuel) quiet pid d n s) = state_of ((acquiresleep pid v;;; ret v) (evict_state v (bhashgetline n) d n s)) ∧
    scan_order s = l1 ++ v :: l2 ∧
    refcnt (slot s v) = 0 ∧
    (∀ j, j ∈ l1 → refcnt (slot s j) = 0 → timestamp (slot s v) < timestamp (slot s j)) ∧
    (∀ j, j ∈ l2 → refcnt (slot s j) = 0 → timestamp (slot s v) ≤ timestamp (slot s j)).
Proof.
  intros Hmiss Hb Hr Ht.
  destruct (scan_pool_finds s b Hb Hr Ht) as [v Hscan].
  pose proof (scan_pool_Some _ _ _ Hscan) as (l1 & l2 & Hl & Hrv & _ & _ & H1 & H2).
  exists v, l1, l2. split; [by erewrite bget_quiet_miss|]. done.
Qed.

Lemma concat_unlink v (m : list (list nat)) :
  concat (unlink v <$> m) = unlink v (concat m).
Proof.
  induction m as [|l m IH]; [done|]. cbn [fmap list_fmap concat].
  rewrite IH. unfold unlink. by rewrite filter_app.
Qed.

Lemma concat_insert_cons (m : list (list nat)) h x l :
  m !! h = Some l → concat (<[h := x :: l]> m) ≡ₚ x :: concat m.
Proof.
  revert h. induction m as [|l0 m IH]; intros h Hh; [done|].
  destruct h as [|h]; simpl in *.
  - by injection Hh as ->.
  - rewrite (IH h Hh). by rewrite Permutation_middle.
Qed.

Lemma bucket_lookup s i l : bhashmap s !! i = Some l → bucket s i = l.
Proof. intros H. unfold bucket. by rewrite list_lookup_total_alt, H. Qed.

Lemma nodup_evict_state v h d n s :
  (h < length (bhashmap s))%nat →
  NoDup (concat (bhashmap s)) → NoDup (concat (bhashmap (evict_state v h d n s))).
Proof.
  intros Hh Hnd. rewrite bhashmap_evict_state.
  assert ((unlink v <$> bhashmap s) !! h = Some (unlink v (bucket s h))) as Hl.
  { rewrite list_lookup_fmap. apply lookup_lt_is_Some_2 in Hh as [l Hl].
    by rewrite Hl, (bucket_lookup _ _ _ Hl). }
  rewrite (concat_insert_cons _ _ _ _ Hl), concat_unlink.
  apply NoDup_cons. split.
  - rewrite elem_of_unlink. by intros [? _].
  - by apply NoDup_filter.
Qed.

Lemma same_keys_refl s : same_keys s s.
Proof. split; [apply same_ids_refl|done]. Qed.

Lemma same_keys_trans s1 s2 s3 : same_keys s1 s2 → same_keys s2 s3 → same_keys s1 s3.
Proof.
  intros [H1 V1] [H2 V2]. split; [by eapply same_ids_trans|].
  intros j. by rewrite V2.
Qed.

Lemma same_keys_log evs s : same_keys s (log evs s).
Proof. split; [apply same_ids_log|done]. Qed.

Lemma same_keys_upd_disk f s : same_keys s (upd_disk f s).
Proof. split; [apply same_ids_upd_disk|done]. Qed.

Lemma same_keys_upd_slot b f s :
  (∀ bf, identity (f bf) = identity bf ∧ valid (f bf) = valid bf) →
  same_keys s (upd_slot b f s).
Proof.
  intros Hf. split.
  - apply same_ids_upd_slot. intros bf. apply Hf.
  - intros j. rewrite slot_upd_slot. case_decide as H; [|done].
    destruct H as [-> _]. apply Hf.
Qed.

Ltac same_keys_step :=
  first
    [ apply same_keys_refl
    | eapply same_keys_trans; [|apply same_keys_log]
    | eapply same_keys_trans; [|apply same_keys_upd_disk]
    | eapply same_keys_trans; [|apply same_keys_upd_slot; intros []; split; reflexivity] ].

Lemma same_keys_release_state b s : same_keys s (release_state b s).
Proof. unfold release_state. cbv zeta. repeat same_keys_step. Qed.

Lemma same_keys_pin_state delta b s : same_keys s (pin_state delta b s).
Proof. unfold pin_state. cbv zeta. repeat same_keys_step. Qed.

Lemma same_keys_write_state b s : same_keys s (write_state b s).
Proof. unfold write_state. repeat same_keys_step. Qed.

Lemma same_keys_hit_state b h s : same_keys s (hit_state b h s).
Proof. unfold hit_state. repeat same_keys_step. Qed.

Lemma same_keys_miss_state h s : same_keys s (miss_state h s).
Proof. unfold miss_state. repeat same_keys_step. Qed.

Lemma same_keys_clockintr s : same_keys s (state_of (clockintr s)).
Proof. split; [apply same_ids_clockintr|done]. Qed.

Lemma same_keys_lock b l s : same_keys s (upd_slot b (set_lock l) s).
Proof. apply same_keys_upd_slot. by intros []. Qed.

Lemma cache_inv2_same_keys s s' : same_keys s s' → cache_inv2 s → cache_inv2 s'.
Proof.
  intros [Hs Hv] [N J]. pose proof Hs as (Hm & Hl & Hid). split.
  - by rewrite Hm.
  - intros i b Hb Hval. rewrite (same_ids_bucket _ _ _ Hs) in Hb. rewrite Hv in Hval.
    rewrite (bhashget_walk_same_ids s s') by done.
    pose proof (Hid b) as Hidb. unfold identity in Hidb. injection Hidb as -> ->.
    by apply J.
Qed.

Lemma bhashget_walk_unlink bs l d n b v :
  bhashget_walk bs l d n = Some b → b ≠ v → bhashget_walk bs (unlink v l) d n = Some b.
Proof.
  intros H Hne. induction l as [|x l IH]; [done|].
  simpl in H. unfold unlink. rewrite filter_cons.
  destruct ((dev (bs !!! x) =? d) && (blockno (bs !!! x) =? n)) eqn:E.
  - injection H as ->. rewrite decide_True by done. simpl. by rewrite E.
  - case_decide.
    + simpl. rewrite E. by apply IH.
    + by apply IH.
Qed.

Lemma bhashget_walk_agree bs bs' l d n :
  (∀ x, x ∈ l → bs' !!! x = bs !!! x) →
  bhashget_walk bs' l d n = bhashget_walk bs l d n.
Proof.
  induction l as [|x l IH]; intros H; [done|]. simpl.
  rewrite (H x) by (by left). rewrite IH; [done|].
  intros y Hy. apply H. by right.
Qed.

Lemma bhashget_walk_skip bs x l d n :
  identity (bs !!! x) ≠ (d, n) →
  bhashget_walk bs (x :: l) d n = bhashget_walk bs l d n.
Proof.
  intros H. simpl.
  destruct ((dev (bs !!! x) =? d) && (blockno (bs !!! x) =? n)) eqn:E; [|done].
  exfalso. apply H. apply andb_true_iff in E as [? ?]. unfold identity. f_equal; lia.
Qed.

Lemma bhashget_walk_head bs x l d n :
  identity (bs !!! x) = (d, n) → bhashget_walk bs (x :: l) d n = Some x.
Proof.
  unfold identity. intros [= Hd Hn]. simpl. by rewrite Hd, Hn, !Z.eqb_refl.
Qed.

Lemma cache_inv2_evict_state s v t d n :
  cache_inv s → cache_inv2 s →
  bhashget_walk (bufs s) (bucket s (bhashgetline n)) d n = None →
  scan_pool s = (Some v, t) →
  cache_inv2 (evict_state v (bhashgetline n) d n s).
Proof.
  intros [I1 I2 I3 I4] [N J] Hmiss Hscan.
  set (h := bhashgetline n) in *.
  assert (h < length (bhashmap s))%nat as Hh by (rewrite I1; apply bhashgetline_lt).
  assert (v < length (bufs s))%nat as Hv.
  { apply I2, linked_scan_order; [done|].
    apply scan_pool_Some in Hscan as (l1 & l2 & -> & _).
    apply elem_of_app. right. by left. }
  split; [by apply nodup_evict_state|].
  intros i b Hb Hval.
  rewrite slot_evict_state in Hval |- *.
  destruct (decide (b = v)) as [->|Hne].
  { rewrite decide_True in Hval by done. by exfalso. }
  rewrite decide_False in Hval |- * by (by intros [? _]).
  rewrite bucket_evict_state in Hb |- * by done.
  assert (b ∈ bucket s i) as Hb0.
  { case_decide; subst.
    - apply elem_of_cons in Hb as [?|Hb]; [done|]. by apply elem_of_unlink in Hb as [_ ?].
    - by apply elem_of_unlink in Hb as [_ ?]. }
  pose proof (J i b Hb0 Hval) as Hw.
  assert (bhashget_walk (bufs (evict_state v h d n s)) (unlink v (bucket s i))
            (dev (slot s b)) (blockno (slot s b)) = Some b) as Hw'.
  { rewrite (bhashget_walk_agree (bufs s)).
    - by apply bhashget_walk_unlink.
    - intros x Hx. apply elem_of_unlink in Hx as [Hxv _].
      pose proof (slot_evict_state v h d n s x) as Hsx.
      rewrite decide_False in Hsx by (by intros [? _]). exact Hsx. }
  case_decide; [|done]. subst i.
  rewrite bhashget_walk_skip; [done|].
  pose proof (slot_evict_state v h d n s v) as Hsv. rewrite decide_True in Hsv by done.
  unfold slot in Hsv. rewrite Hsv. cbn. intros Heq.
  rewrite bhashget_walk_None in Hmiss. apply (Hmiss b Hb0).
  unfold identity. by injection Heq as -> ->.
Qed.

Lemma same_keys_ids s s' : same_keys s s' → same_ids s s'.
Proof. by intros [? _]. Qed.

Lemma cache_ok_same_keys s s' : same_keys s s' → cache_ok s → cache_ok s'.
Proof.
  intros Hs [H1 H2]. split.
  - eapply cache_inv_same_ids; [by apply same_keys_ids|done].
  - by eapply cache_inv2_same_keys.
Qed.

Lemma cache_ok_evict_state s v t d n :
  cache_ok s →
  bhashget_walk (bufs s) (bucket s (bhashgetline n)) d n = None →
  scan_pool s = (Some v, t) →
  cache_ok (evict_state v (bhashgetline n) d n s).
Proof.
  intros [H1 H2] Hmiss Hscan. split.
  - by eapply cache_inv_evict_state.
  - by eapply cache_inv2_evict_state.
Qed.

Lemma in_bucket_in_pool s i b : cache_inv s → b ∈ bucket s i → (b < length (bufs s))%nat.
Proof. intros [_ I2 _ _] Hb. apply I2. by exists i. Qed.

(** What [bget] hands out is what a lookup of the key now finds. *)
Lemma bget_returns_cached fuel pid d n s b s' :
  cache_ok s →
  bget (S fuel) quiet pid d n s = Ret b s' →
  cache_ok s' ∧
  (b < length (bufs s'))%nat ∧
  identity (slot s' b) = (d, n) ∧
  lock (slot s' b) = Some pid ∧
  bhashget_walk (bufs s') (bucket s' (bhashgetline n)) d n = Some b.
Proof.
  intros Hok Hget. pose proof Hok as [Hinv _].
  set (h := bhashgetline n) in *.
  destruct (bhashget_walk (bufs s) (bucket s h) d n) as [b0|] eqn:Hw.
  - rewrite bget_unroll in Hget. cbv zeta in Hget. fold h in Hget. rewrite Hw in Hget.
    rewrite acquiresleep_ret in Hget.
    destruct (lock (slot (hit_state b0 h s) b0)) eqn:Hl; [done|].
    injection Hget as <- <-.
    assert (same_keys s (upd_slot b0 (set_lock (Some pid)) (hit_state b0 h s))) as Hk.
    { eapply same_keys_trans; [apply same_keys_hit_state|apply same_keys_lock]. }
    pose proof (bhashget_walk_Some _ _ _ _ _ Hw) as (l1 & l2 & Hl12 & Hid & _).
    assert (b0 < length (bufs s))%nat as Hb0.
    { apply (in_bucket_in_pool s h); [done|]. rewrite Hl12. apply elem_of_app. right. by left. }
    split; [by eapply cache_ok_same_keys|].
    split. { rewrite length_upd_slot, bufs_hit_state, length_upd_slot. done. }
    split. { destruct Hk as [(_ & _ & Hids) _]. rewrite Hids. exact Hid. }
    split. { rewrite slot_upd_slot_eq; [done|]. by rewrite bufs_hit_state, length_upd_slot. }
    rewrite (bhashget_walk_same_ids s) by (by apply same_keys_ids). exact Hw.
  - destruct (scan_pool s) as [[v|] t] eqn:Hscan.
    2:{ erewrite bget_quiet_exhausted in Hget by done. done. }
    erewrite bget_quiet_miss in Hget by done. rewrite acquiresleep_ret in Hget.
    fold h in Hget.
    destruct (lock (slot (evict_state v h d n s) v)) eqn:Hl; [done|].
    injection Hget as <- <-.
    pose proof (cache_ok_evict_state s v t d n Hok Hw Hscan) as Hok1. fold h in Hok1.
    assert (h < length (bhashmap s))%nat as Hh.
    { destruct Hinv as [-> _ _ _]. apply bhashgetline_lt. }
    assert (v < length (bufs s))%nat as Hv.
    { destruct Hinv as [I1 I2 _ _]. apply I2, linked_scan_order; [done|].
      apply scan_pool_Some in Hscan as (l1 & l2 & -> & _).
      apply elem_of_app. right. by left. }
    assert (same_keys (evict_state v h d n s)
              (upd_slot v (set_lock (Some pid)) (evict_state v h d n s))) as Hk
      by apply same_keys_lock.
    assert (identity (slot (evict_state v h d n s) v) = (d, n)) as Hid.
    { rewrite slot_evict_state, decide_True by done. reflexivity. }
    split; [by eapply cache_ok_same_keys|].
    split. { by rewrite length_upd_slot, length_bufs_evict_state. }
    split. { destruct Hk as [(_ & _ & Hids) _]. rewrite Hids. exact Hid. }
    split. { rewrite slot_upd_slot_eq; [done|]. by rewrite length_bufs_evict_state. }
    rewrite (bhashget_walk_same_ids (evict_state v h d n s)) by (by apply same_keys_ids).
    rewrite bucket_evict_state, decide_True by done.
    by apply bhashget_walk_head.
Qed.

Lemma cache_ok_acquiresleep pid b s :
  cache_ok s → cache_ok (state_of ((acquiresleep pid b;;; ret b) s)).
Proof.
  intros H. rewrite acquiresleep_ret. destruct (lock (slot s b)); [done|]. simpl.
  eapply cache_ok_same_keys; [|done]. apply same_keys_lock.
Qed.

Lemma cache_ok_bget fuel pid d n s :
  cache_ok s → cache_ok (state_of (bget (S fuel) quiet pid d n s)).
Proof.
  intros H.
  destruct (bhashget_walk (bufs s) (bucket s (bhashgetline n)) d n) as [b|] eqn:Hw.
  - rewrite bget_unroll. cbv zeta. rewrite Hw.
    apply cache_ok_acquiresleep. eapply cache_ok_same_keys; [|done]. apply same_keys_hit_state.
  - destruct (scan_pool s) as [[v|] t] eqn:Hscan.
    + erewrite bget_quiet_miss by done. apply cache_ok_acquiresleep.
      by eapply cache_ok_evict_state.
    + erewrite bget_quiet_exhausted by done. simpl.
      eapply cache_ok_same_keys; [|done].
      eapply same_keys_trans; [apply same_keys_miss_state|apply same_keys_log].
Qed.

Lemma valid_read_state b s j :
  valid (slot (read_state b s) j) =
  if decide (j = b ∧ (b < length (bufs s))%nat) then 1 else valid (slot s j).
Proof.
  unfold read_state. rewrite upd_slot_log, slot_log, upd_slot_upd_slot, slot_upd_slot.
  by case_decide.
Qed.

Lemma cache_ok_read_state b s d n :
  cache_ok s →
  bhashget_walk (bufs s) (bucket s (bhashgetline n)) d n = Some b →
  cache_ok (read_state b s).
Proof.
  intros [Hinv [N J]] Hw. pose proof (same_ids_read_state b s) as Hs.
  split; [by eapply cache_inv_same_ids|].
  pose proof Hs as (Hm & Hl & Hid). split; [by rewrite Hm|].
  intros i j Hj Hval. rewrite (same_ids_bucket _ _ _ Hs) in Hj.
  rewrite (bhashget_walk_same_ids s) by done.
  pose proof (Hid j) as Hidj. unfold identity in Hidj. injection Hidj as -> ->.
  rewrite valid_read_state in Hval. case_decide as Hc; [|by apply J].
  destruct Hc as [-> _].
  pose proof (bhashget_walk_Some _ _ _ _ _ Hw) as (l1 & l2 & Hl12 & Hidb & _).
  assert (b ∈ bucket s (bhashgetline n)) as Hb.
  { rewrite Hl12. apply elem_of_app. right. by left. }
  destruct Hinv as [_ _ I3 _].
  rewrite <- (I3 i b Hj), (I3 _ b Hb).
  unfold identity in Hidb. injection Hidb as Hd Hn. unfold slot. by rewrite Hd, Hn.
Qed.

Lemma cache_ok_bread fuel pid d n s :
  cache_ok s → cache_ok (state_of (bread (S fuel) quiet pid d n s)).
Proof.
  intros H. rewrite bread_unroll.
  pose proof (cache_ok_bget fuel pid d n s H) as H'.
  destruct (bget (S fuel) quiet pid d n s) as [b s'| | |] eqn:Hget; simpl in *; try done.
  destruct (valid (slot s' b) =? 0); simpl; [|done].
  apply (bget_returns_cached fuel pid d n s b s' H) in Hget as (_ & _ & _ & _ & Hw).
  by eapply cache_ok_read_state.
Qed.

Lemma cache_ok_do_call c s : cache_ok s → cache_ok (do_call c s).
Proof.
  intros H. destruct c; simpl.
  - by apply cache_ok_bget.
  - by apply cache_ok_bread.
  - rewrite bwrite_unroll. destruct (holdingsleep _ _); simpl; [|done].
    eapply cache_ok_same_keys; [|done]. apply same_keys_write_state.
  - rewrite brelse_unroll. destruct (holdingsleep _ _); simpl; [|done].
    eapply cache_ok_same_keys; [|done]. apply same_keys_release_state.
  - eapply cache_ok_same_keys; [|done]. apply (same_keys_pin_state 1).
  - eapply cache_ok_same_keys; [|done]. apply (same_keys_pin_state (-1)).
  - eapply cache_ok_same_keys; [|done]. apply same_keys_clockintr.
Qed.

Lemma cache_ok_run cs s : cache_ok s → cache_ok (run cs s).
Proof.
  revert s. induction cs as [|c cs IH]; intros s H; [done|].
  simpl. apply IH. by apply cache_ok_do_call.
Qed.

Lemma valid_init_state NBUF BSIZE dsk b : valid (slot (init_state NBUF BSIZE dsk) b) = 0.
Proof.
  unfold slot, init_state; simpl. rewrite list_lookup_total_alt.
  destruct (replicate NBUF (zero_buf BSIZE) !! b) as [bf|] eqn:E; [|done].
  apply lookup_replicate in E as [-> _]. done.
Qed.

Lemma concat_bhashmap_init_state NBUF BSIZE dsk :
  concat (bhashmap (init_state NBUF BSIZE dsk)) = reverse (seq 0 NBUF).
Proof. unfold init_state. cbn. by rewrite app_nil_r. Qed.

Lemma cache_ok_init_state NBUF BSIZE dsk : cache_ok (init_state NBUF BSIZE dsk).
Proof.
  split; [apply cache_inv_init_state|]. split.
  - rewrite concat_bhashmap_init_state, reverse_Permutation. apply NoDup_seq.
  - intros i b _ Hval. by rewrite valid_init_state in Hval.
Qed.

Lemma length_bufs_same_ids s s' : same_ids s s' → length (bufs s') = length (bufs s).
Proof. by intros (_ & ? & _). Qed.

Lemma length_bufs_acquiresleep pid b s :
  length (bufs (state_of ((acquiresleep pid b;;; ret b) s))) = length (bufs s).
Proof.
  rewrite acquiresleep_ret. destruct (lock (slot s b)); [done|]. apply length_upd_slot.
Qed.

Lemma length_bufs_bget fuel pid d n s :
  length (bufs (state_of (bget (S fuel) quiet pid d n s))) = length (bufs s).
Proof.
  destruct (bhashget_walk (bufs s) (bucket s (bhashgetline n)) d n) as [b|] eqn:Hw.
  - rewrite bget_unroll. cbv zeta. rewrite Hw, length_bufs_acquiresleep.
    apply length_bufs_same_ids, same_ids_hit_state.
  - destruct (scan_pool s) as [[v|] t] eqn:Hscan.
    + erewrite bget_quiet_miss by done.
      by rewrite length_bufs_acquiresleep, length_bufs_evict_state.
    + by erewrite bget_quiet_exhausted by done.
Qed.

Lemma length_bufs_do_call c s : length (bufs (do_call c s)) = length (bufs s).
Proof.
  destruct c; cbn [do_call].
  - apply length_bufs_bget.
  - rewrite bread_unroll. pose proof (length_bufs_bget 0 pid d n s) as H.
    destruct (bget 1 quiet pid d n s) as [b s'| | |]; cbn [state_of] in *; try done.
    destruct (valid (slot s' b) =? 0); cbn [state_of]; [|done].
    rewrite (length_bufs_same_ids s' _ (same_ids_read_state b s')). exact H.
  - rewrite bwrite_unroll. by destruct (holdingsleep _ _).
  - rewrite brelse_unroll. destruct (holdingsleep _ _); cbn [state_of]; [|done].
    apply length_bufs_same_ids, same_ids_release_state.
  - rewrite bpin_unroll. apply length_bufs_same_ids, (same_ids_pin_state 1).
  - rewrite bunpin_unroll. apply length_bufs_same_ids, (same_ids_pin_state (-1)).
  - done.
Qed.

Lemma length_bufs_run cs s : length (bufs (run cs s)) = length (bufs s).
Proof.
  revert s. induction cs as [|c cs IH]; intros s; [done|].
  simpl. by rewrite IH, length_bufs_do_call.
Qed.

Lemma elem_of_concat (b : nat) (m : list (list nat)) :
  b ∈ concat m ↔ ∃ l, l ∈ m ∧ b ∈ l.
Proof.
  induction m as [|l0 m IH]; simpl.
  - split; [intros H; by apply elem_of_nil in H|]. intros (l & Hl & _). by apply elem_of_nil in Hl.
  - rewrite elem_of_app, IH. split.
    + intros [H|(l & Hl & Hb)]; [exists l0; split; [by left|done]|exists l; split; [by right|done]].
    + intros (l & Hl & Hb). apply elem_of_cons in Hl as [->|Hl]; [by left|right; by exists l].
Qed.

Lemma linked_concat s b : linked s b ↔ b ∈ concat (bhashmap s).
Proof.
  unfold linked. rewrite elem_of_concat. split.
  - intros [i Hi]. unfold bucket in Hi. rewrite list_lookup_total_alt in Hi.
    destruct (bhashmap s !! i) as [l|] eqn:El; simpl in Hi.
    + exists l. split; [|done]. by eapply list_elem_of_lookup_2.
    + by apply elem_of_nil in Hi.
  - intros (l & Hl & Hb). apply list_elem_of_lookup_1 in Hl as [i Hi].
    exists i. by rewrite (bucket_lookup _ _ _ Hi).
Qed.

Lemma cache_ok_after_calls NBUF BSIZE dsk cs : cache_ok (after_calls NBUF BSIZE dsk cs).
Proof.
  unfold after_calls. rewrite binit_boot. cbn [state_of].
  apply cache_ok_run, cache_ok_init_state.
Qed.

Lemma length_bufs_after_calls NBUF BSIZE dsk cs :
  length (bufs (after_calls NBUF BSIZE dsk cs)) = NBUF.
Proof.
  unfold after_calls. rewrite length_bufs_run, binit_boot. cbn [state_of init_state bufs].
  apply length_replicate.
Qed.

Lemma home_bucket s b :
  cache_inv s → (b < length (bufs s))%nat → b ∈ bucket s (bhashgetline (blockno (slot s b))).
Proof.
  intros [_ I2 I3 _] Hb. apply I2 in Hb as [i Hi]. by rewrite (I3 i b Hi).
Qed.

(** X4.  The pool stays partitioned.  In every state reached from [binit]
    by any calls there are [NBUF] slots and [MODNUM] buckets, every slot is
    linked exactly once, and it is linked in the bucket its current block
    number selects. *)
Theorem pool_partitioned NBUF BSIZE dsk cs :
  let s := after_calls NBUF BSIZE dsk cs in
  length (bufs s) = NBUF ∧ length (bhashmap s) = MODNUM ∧
  NoDup (concat (bhashmap s)) ∧
  (∀ b, (b < NBUF)%nat ↔ b ∈ concat (bhashmap s)) ∧
  (∀ i b, b ∈ bucket s i ↔ (b < NBUF)%nat ∧ i = bhashgetline (blockno (slot s b))).
Proof.
  cbv zeta. pose proof (cache_ok_after_calls NBUF BSIZE dsk cs) as [Hinv [N _]].
  pose proof (length_bufs_after_calls NBUF BSIZE dsk cs) as Hlen.
  pose proof Hinv as [I1 I2 I3 _].
  split; [done|]. split; [done|]. split; [done|]. split.
  - intros b. by rewrite <- linked_concat, <- I2, Hlen.
  - intros i b. split.
    + intros Hb. split.
      * rewrite <- Hlen. apply I2. by exists i.
      * symmetry. by apply I3.
    + intros [Hb ->]. apply home_bucket; [done|]. by rewrite Hlen.
Qed.

(** X6.  In every state reached from [binit] by any calls, a lookup of the
    identity of a valid slot finds that slot. *)
Theorem lookup_finds_valid_copy NBUF BSIZE dsk cs b :
  let s := after_calls NBUF BSIZE dsk cs in
  (b < NBUF)%nat → valid (slot s b) ≠ 0 →
  bhashget_walk (bufs s) (bucket s (bhashgetline (blockno (slot s b))))
    (dev (slot s b)) (blockno (slot s b)) = Some b.
Proof.
  cbv zeta. intros Hb Hval.
  pose proof (cache_ok_after_calls NBUF BSIZE dsk cs) as [Hinv [_ J]].
  apply J; [|done]. apply home_bucket; [done|].
  by rewrite length_bufs_after_calls.
Qed.

(** X7.  One valid copy per block.  In every state reached from [binit] by
    any calls, two valid slots with the same identity are the same slot; this
    holds for the identity (0, 0) too. *)
Theorem valid_copy_unique NBUF BSIZE dsk cs i j :
  let s := after_calls NBUF BSIZE dsk cs in
  (i < NBUF)%nat → (j < NBUF)%nat →
  valid (slot s i) ≠ 0 → valid (slot s j) ≠ 0 →
  identity (slot s i) = identity (slot s j) →
  i = j.
Proof.
  cbv zeta. intros Hi Hj Hvi Hvj Hid.
  pose proof (cache_ok_after_calls NBUF BSIZE dsk cs) as [Hinv [_ J]].
  rewrite <- (length_bufs_after_calls NBUF BSIZE dsk cs) in Hi, Hj.
  pose proof (J _ i (home_bucket _ _ Hinv Hi) Hvi) as Wi.
  pose proof (J _ j (home_bucket _ _ Hinv Hj) Hvj) as Wj.
  unfold identity in Hid. injection Hid as Hd Hn.
  rewrite Hd, Hn, Wj in Wi. by injection Wi.
Qed.

(** X5.  In every state reached from [binit] by any calls, the lookup in the
    bucket of [n] misses exactly when no slot of the whole pool carries the
    identity [(d, n)]. *)
Theorem miss_iff_uncached NBUF BSIZE dsk cs d n :
  let s := after_calls NBUF BSIZE dsk cs in
  bhashget_walk (bufs s) (bucket s (bhashgetline n)) d n = None ↔
  ∀ b, (b < NBUF)%nat → identity (slot s b) ≠ (d, n).
Proof.
  cbv zeta. pose proof (cache_ok_after_calls NBUF BSIZE dsk cs) as [Hinv _].
  pose proof (length_bufs_after_calls NBUF BSIZE dsk cs) as Hlen.
  rewrite bhashget_walk_None. split.
  - intros H b Hb Hid. rewrite <- Hlen in Hb.
    pose proof (home_bucket _ _ Hinv Hb) as Hhome.
    assert (blockno (slot (after_calls NBUF BSIZE dsk cs) b) = n) as Hn
      by (unfold identity in Hid; congruence).
    rewrite Hn in Hhome. by apply (H b Hhome).
  - intros H b Hb. apply H. rewrite <- Hlen. by eapply in_bucket_in_pool.
Qed.

(** X1.  Global LRU.  On a miss, when the links point into the pool, the
    unreferenced slots are unlocked, and some linked slot has reference count
    0 and a stamp below [0xFFFFFFFF], [bget] returns the slot [v] now keyed
    [(d, n)] such that [v] had reference count 0, its stamp is strictly below
    that of every unreferenced slot scanned before it and at most that of
    every unreferenced slot scanned after it (scan order: buckets 0 to 18,
    each from its head). *)
Theorem miss_recycles_least_recent fuel pid d n s b :
  bhashget_walk (bufs s) (bucket s (bhashgetline n)) d n = None →
  (∀ j, j ∈ scan_order s →
        (j < length (bufs s))%nat ∧ (refcnt (slot s j) = 0 → lock (slot s j) = None)) →
  b ∈ scan_order s → refcnt (slot s b) = 0 → timestamp (slot s b) < UINT_MAX →
  ∃ v s' l1 l2,
    bget (S fuel) quiet pid d n s = Ret v s' ∧
    identity (slot s' v) = (d, n) ∧
    scan_order s = l1 ++ v :: l2 ∧
    refcnt (slot s v) = 0 ∧
    (∀ j, j ∈ l1 → refcnt (slot s j) = 0 → timestamp (slot s v) < timestamp (slot s j)) ∧
    (∀ j, j ∈ l2 → refcnt (slot s j) = 0 → timestamp (slot s v) ≤ timestamp (slot s j)).
Proof.
  intros Hmiss Hwf Hb Hr Ht.
  destruct (scan_pool_finds s b Hb Hr Ht) as [v Hscan].
  pose proof (scan_pool_Some _ _ _ Hscan) as (l1 & l2 & Hl & Hrv & _ & _ & H1 & H2).
  assert (v ∈ scan_order s) as Hv by (rewrite Hl; apply elem_of_app; right; by left).
  destruct (Hwf v Hv) as [Hlen Hlock].
  exists v, (upd_slot v (set_lock (Some pid)) (evict_state v (bhashgetline n) d n s)), l1, l2.
  split; [eapply bget_miss_returns; eauto|].
  split; [|done].
  rewrite slot_upd_slot_eq by (by rewrite length_bufs_evict_state).
  by rewrite slot_evict_state, decide_True.
Qed.

(** X2.  Hit.  When the lookup finds [b], [bget] needs no eviction round
    (any fuel, any interference): it adds one to [b]'s reference count modulo
    2^32, takes and drops only the two locks of the bucket, and changes
    nothing else.  It then returns [b] locked by the caller if [b]'s
    sleep-lock is free, and otherwise goes to sleep with the count already
    incremented. *)
Theorem bget_hit fuel env pid d n s b :
  bhashget_walk (bufs s) (bucket s (bhashgetline n)) d n = Some b →
  (b < length (bufs s))%nat →
  let s1 := hit_state b (bhashgetline n) s in
  bget fuel env pid d n s =
    match lock (slot s b) with
    | None => Ret b (upd_slot b (set_lock (Some pid)) s1)
    | Some _ => Sleeping s1
    end ∧
  slot s1 b = frees 1 (slot s b) ∧
  same_except b s s1 ∧
  trace s1 = trace s ++
    [EvAcquire (hash_lock_add (bhashgetline n)); EvAcquire (hash_lock (bhashgetline n));
     EvRelease (hash_lock (bhashgetline n)); EvRelease (hash_lock_add (bhashgetline n))].
Proof.
  intros Hw Hb. cbv zeta.
  assert (slot (hit_state b (bhashgetline n) s) b = frees 1 (slot s b)) as Hs
    by (by rewrite slot_hit_state, decide_True).
  split.
  { rewrite bget_unroll. cbv zeta. rewrite Hw, acquiresleep_ret, Hs. reflexivity. }
  split; [done|]. split.
  - unfold same_except. split; [reflexivity|]. split; [reflexivity|]. split; [reflexivity|].
    split; [by rewrite bufs_hit_state, length_upd_slot|].
    intros j Hj. rewrite slot_hit_state. by rewrite decide_False by (by intros [? _]).
  - unfold hit_state. autorewrite with bio. by rewrite <- !app_assoc.
Qed.

(** X9.  Use after release.  After the holder has released a slot with
    [brelse], a second [brelse] and a [bwrite] of that slot by the same
    process panic ("brelse", "bwrite") and leave the state as it is. *)
Theorem use_after_release_panics pid b s :
  (b < length (bufs s))%nat →
  holdingsleep pid (slot s b) = true →
  ∃ s',
    brelse pid b s = Ret tt s' ∧
    brelse pid b s' = Panic "brelse" s' ∧
    bwrite pid b s' = Panic "bwrite" s'.
Proof.
  intros Hb Hhold. exists (release_state b s).
  assert (holdingsleep pid (slot (release_state b s) b) = false) as Hfree
    by (by rewrite slot_release_state, decide_True).
  split; [by rewrite brelse_unroll, Hhold|].
  split; [by rewrite brelse_unroll, Hfree|by rewrite bwrite_unroll, Hfree].
Qed.

Lemma frees_frees delta bf :
  0 ≤ refcnt bf ≤ UINT_MAX → (delta = 1 ∨ delta = -1) →
  frees (- delta) (frees delta bf) = bf.
Proof.
  intros Hr Hd. destruct bf as [v d n l r t dt]. unfold frees, set_refcnt; simpl in *.
  f_equal. unfold to_uint, UINT_MAX in *.
  rewrite Zplus_mod_idemp_l. replace (r + delta + - delta) with r by lia.
  apply Z.mod_small. lia.
Qed.

(** X10.  Pin and unpin cancel.  For a reference count in the range of a
    [uint], [bpin] followed by [bunpin], and [bunpin] followed by [bpin],
    leave the pool, the buckets, the disk and the clock exactly as they
    were (including across the wrap at 0 and at 2^32 - 1). *)
Theorem pin_unpin_round_trip b s :
  0 ≤ refcnt (slot s b) ≤ UINT_MAX →
  ∃ s1 s2 s3 s4,
    bpin b s = Ret tt s1 ∧ bunpin b s1 = Ret tt s2 ∧
    bunpin b s = Ret tt s3 ∧ bpin b s3 = Ret tt s4 ∧
    bufs s2 = bufs s ∧ bhashmap s2 = bhashmap s ∧ disk s2 = disk s ∧ ticks s2 = ticks s ∧
    bufs s4 = bufs s ∧ bhashmap s4 = bhashmap s ∧ disk s4 = disk s ∧ ticks s4 = ticks s.
Proof.
  intros Hr.
  exists (pin_state 1 b s), (pin_state (-1) b (pin_state 1 b s)),
         (pin_state (-1) b s), (pin_state 1 b (pin_state (-1) b s)).
  split; [apply bpin_unroll|]. split; [apply bunpin_unroll|].
  split; [apply bunpin_unroll|]. split; [apply bpin_unroll|].
  assert (∀ delta, (delta = 1 ∨ delta = -1) →
            bufs (pin_state (- delta) b (pin_state delta b s)) = bufs s) as Hround.
  { intros delta Hd. rewrite bufs_pin_state.
    assert (upd_slot b (frees (- delta)) (pin_state delta b s) =
            upd_bufs (fun _ => bufs s) (pin_state delta b s)) as ->; [|done].
    unfold upd_slot at 1, upd_bufs. f_equal.
    rewrite bufs_pin_state.
    change (bufs (upd_slot b (frees delta) s)) with (<[b := frees delta (bufs s !!! b)]> (bufs s)).
    destruct (decide (b < length (bufs s))%nat) as [Hb|Hb].
    - rewrite list_lookup_total_insert_eq by done.
      rewrite list_insert_insert_eq, frees_frees by done.
      apply list_insert_id. by apply list_lookup_lookup_total_lt.
    - rewrite !list_insert_ge by (rewrite ?length_insert; lia). done. }
  split; [apply (Hround 1); by left|].
  split; [reflexivity|]. split; [reflexivity|]. split; [reflexivity|].
  split; [apply (Hround (-1)); by right|].
  split; [reflexivity|]. split; reflexivity.
Qed.

Lemma slot_read_state b s j :
  slot (read_state b s) j =
  if decide (j = b ∧ (b < length (bufs s))%nat)
  then set_valid 1 (set_data (disk s (dev (slot s b)) (blockno (slot s b))) (slot s b))
  else slot s j.
Proof.
  unfold read_state. rewrite upd_slot_log, slot_log, upd_slot_upd_slot, slot_upd_slot.
  by case_decide.
Qed.

(** X3.  What [bread] returns.  In a state reached from [binit] by any
    calls, a [bread] of [(d, n)] that returns [b] leaves [b] a slot of the
    pool, keyed [(d, n)], valid, locked by the caller and found by a lookup of
    the key.  Its payload is the payload it had if the key was cached and
    valid, and the disk block otherwise.  No other slot, and neither the disk
    nor the clock, has changed. *)
Theorem bread_postcondition NBUF BSIZE dsk cs fuel pid d n b s' :
  let s := after_calls NBUF BSIZE dsk cs in
  bread (S fuel) quiet pid d n s = Ret b s' →
  (b < NBUF)%nat ∧
  identity (slot s' b) = (d, n) ∧
  valid (slot s' b) ≠ 0 ∧
  lock (slot s' b) = Some pid ∧
  bhashget_walk (bufs s') (bucket s' (bhashgetline n)) d n = Some b ∧
  data (slot s' b) = (if cached_valid s d n then data (slot s b) else disk s d n) ∧
  (∀ j, j ≠ b → slot s' j = slot s j) ∧
  disk s' = disk s ∧ ticks s' = ticks s.
Proof.
  cbv zeta. set (s := after_calls NBUF BSIZE dsk cs).
  pose proof (cache_ok_after_calls NBUF BSIZE dsk cs) as Hok. fold s in Hok.
  pose proof (length_bufs_after_calls NBUF BSIZE dsk cs) as Hlen. fold s in Hlen.
  rewrite bread_unroll.
  destruct (bget (S fuel) quiet pid d n s) as [b0 s0| | |] eqn:Hget; try done.
  pose proof (bget_returns_cached fuel pid d n s b0 s0 Hok Hget)
    as (Hok0 & Hb0 & Hid0 & Hlock0 & Hw0).
  (* what bget did to the pool *)
  assert ((∀ j, j ≠ b0 → slot s0 j = slot s j) ∧ disk s0 = disk s ∧ ticks s0 = ticks s ∧
          length (bufs s0) = length (bufs s) ∧
          valid (slot s0 b0) = (if cached_valid s d n then valid (slot s b0) else 0) ∧
          data (slot s0 b0) = data (slot s b0) ∧
          (cached_valid s d n = true → valid (slot s b0) ≠ 0)) as (Hfr & Hdisk & Hticks & Hlen0 & Hval0 & Hdata0 & Hcv).
  { unfold cached_valid.
    destruct (bhashget_walk (bufs s) (bucket s (bhashgetline n)) d n) as [b1|] eqn:Hw.
    - rewrite bget_unroll in Hget. cbv zeta in Hget. rewrite Hw, acquiresleep_ret in Hget.
      destruct (lock (slot (hit_state b1 (bhashgetline n) s) b1)); [done|].
      injection Hget as <- <-.
      assert (b1 < length (bufs s))%nat as Hb1.
      { rewrite length_upd_slot, bufs_hit_state, length_upd_slot in Hb0. done. }
      split.
      { intros j Hj. rewrite slot_upd_slot_ne by done.
        rewrite slot_hit_state. by rewrite decide_False by (by intros [? _]). }
      split; [reflexivity|]. split; [reflexivity|].
      split; [by rewrite length_upd_slot, bufs_hit_state, length_upd_slot|].
      rewrite slot_upd_slot_eq by (by rewrite bufs_hit_state, length_upd_slot).
      rewrite slot_hit_state, decide_True by done.
      cbn [valid data set_lock frees set_refcnt].
      split; [destruct (valid (slot s b1) =? 0) eqn:E; simpl; [lia|done]|].
      split; [done|]. intros H. destruct (valid (slot s b1) =? 0) eqn:E; [done|lia].
    - destruct (scan_pool s) as [[v|] t] eqn:Hscan.
      2:{ erewrite bget_quiet_exhausted in Hget by done. done. }
      erewrite bget_quiet_miss in Hget by done. rewrite acquiresleep_ret in Hget.
      destruct (lock (slot (evict_state v (bhashgetline n) d n s) v)); [done|].
      injection Hget as <- <-.
      assert (v < length (bufs s))%nat as Hv.
      { by rewrite length_upd_slot, length_bufs_evict_state in Hb0. }
      split.
      { intros j Hj. rewrite slot_upd_slot_ne by done.
        rewrite slot_evict_state. by rewrite decide_False by (by intros [? _]). }
      split; [by rewrite disk_upd_slot, disk_evict_state|].
      split; [by rewrite ticks_upd_slot, ticks_evict_state|].
      split; [by rewrite length_upd_slot, length_bufs_evict_state|].
      rewrite slot_upd_slot_eq by (by rewrite length_bufs_evict_state).
      rewrite slot_evict_state, decide_True by done.
      split; [reflexivity|]. split; [reflexivity|]. done. }
  rewrite Hlen0, Hlen in Hb0.
  destruct (valid (slot s0 b0) =? 0) eqn:Ev.
  - intros [= <- <-].
    assert (b0 < length (bufs s0))%nat as Hb0' by lia.
    rewrite slot_read_state, decide_True by done.
    cbn [identity valid lock data dev blockno set_valid set_data].
    split; [done|]. split; [exact Hid0|]. split; [done|]. split; [done|].
    split. { rewrite (bhashget_walk_same_ids s0) by apply same_ids_read_state. done. }
    split. { destruct (cached_valid s d n) eqn:Ecv.
             - exfalso. apply (Hcv eq_refl). rewrite Hval0 in Ev. lia.
             - unfold identity in Hid0. injection Hid0 as -> ->. by rewrite Hdisk. }
    split. { intros j Hj. rewrite slot_read_state.
             rewrite decide_False by (by intros [? _]). by apply Hfr. }
    split; [|done]. unfold read_state. by autorewrite with bio.
  - intros [= <- <-].
    split; [done|]. split; [done|]. split; [lia|]. split; [done|]. split; [done|].
    split. { destruct (cached_valid s d n); [done|]. rewrite Hval0 in Ev. done. }
    done.
Qed.

Lemma slot_zero_init_state NBUF BSIZE dsk b :
  (b < NBUF)%nat → slot (init_state NBUF BSIZE dsk) b = zero_buf BSIZE.
Proof.
  intros Hb. unfold slot, init_state; cbn [bufs].
  apply list_lookup_total_correct, lookup_replicate. done.
Qed.

(** X8.  Initialisation.  [binit] on the zeroed kernel image returns with
    [NBUF] zero-filled, unlocked slots, all linked in bucket 0 with the last
    slot of the pool at the head, the other 18 buckets empty, the disk and
    the clock untouched and no event logged; a lookup of block (0, 0) then
    finds the last slot (and nothing when the pool is empty). *)
Theorem binit_links_every_slot NBUF BSIZE dsk :
  ∃ s,
    binit NBUF (boot NBUF BSIZE dsk) = Ret tt s ∧
    length (bufs s) = NBUF ∧
    (∀ b, (b < NBUF)%nat → slot s b = zero_buf BSIZE) ∧
    length (bhashmap s) = MODNUM ∧
    bucket s 0 = reverse (seq 0 NBUF) ∧
    (∀ i, i ≠ 0%nat → bucket s i = []) ∧
    disk s = dsk ∧ ticks s = 0 ∧ trace s = [] ∧
    bhashget_walk (bufs s) (bucket s (bhashgetline 0)) 0 0 =
      (match NBUF with O => None | S k => Some k end).
Proof.
  exists (init_state NBUF BSIZE dsk).
  split; [apply binit_boot|].
  split; [apply length_replicate|].
  split; [intros b Hb; by apply slot_zero_init_state|].
  split; [reflexivity|].
  split; [by rewrite bucket_init_state|].
  split; [intros i Hi; by rewrite bucket_init_state, decide_False|].
  split; [reflexivity|]. split; [reflexivity|]. split; [reflexivity|].
  change (bhashgetline 0) with 0%nat. rewrite bucket_init_state, decide_True by done.
  destruct NBUF as [|k]; [reflexivity|].
  rewrite seq_S, reverse_app. cbn [reverse rev_append app Nat.add].
  apply bhashget_walk_head. apply slot_init_state.
Qed.

(** The retry loop ends once the other processors leave the pool alone. *)
Lemma eviction_retries_bounded k fuel env r pid h d n s :
  (∀ r' s0, (k ≤ r')%nat → env r' s0 = s0) →
  (k ≤ r + fuel)%nat →
  ∀ s', bget_evict (S fuel) env r pid h d n s ≠ OutOfFuel s'.
Proof.
  intros Hquiet. revert r s. induction fuel as [|fuel IH]; intros r s Hk s'.
  - rewrite bget_evict_unroll.
    destruct (scan_pool s) as [[v|] t] eqn:Hscan; [|done].
    cbv zeta. rewrite Hquiet by lia.
    assert (revalidate (log (scan_events (seq 0 MODNUM)) s) v t = true) as ->.
    { apply revalidate_true. apply scan_pool_Some in Hscan as (? & ? & ? & ? & ? & ?). done. }
    rewrite acquiresleep_ret. by destruct (lock _).
  - rewrite bget_evict_unroll.
    destruct (scan_pool s) as [[v|] t] eqn:Hscan; [|done].
    cbv zeta. destruct (revalidate _ v t).
    + rewrite acquiresleep_ret. by destruct (lock _).
    + apply IH. lia.
Qed.

Lemma ld_acquire held l evs :
  l ∉ held → (is_bucket_lock l = true → existsb is_bucket_lock held = false) →
  lock_discipline held (EvAcquire l :: evs) = lock_discipline (l :: held) evs.
Proof.
  intros Hl Hb. cbn [lock_discipline]. rewrite bool_decide_false by done.
  destruct (is_bucket_lock l); [|done]. by rewrite Hb.
Qed.

Lemma ld_release held l evs :
  l ∉ held →
  lock_discipline (l :: held) (EvRelease l :: evs) = lock_discipline held evs.
Proof.
  intros Hl. cbn [lock_discipline]. rewrite bool_decide_true by (by left).
  rewrite filter_cons, decide_False by (by intros H; apply H).
  f_equal. induction held as [|x held IH]; [done|].
  rewrite filter_cons. apply not_elem_of_cons in Hl as [Hne Hl].
  rewrite decide_True by done. f_equal. by apply IH.
Qed.

Lemma ld_pair held l evs :
  l ∉ held → (is_bucket_lock l = true → existsb is_bucket_lock held = false) →
  lock_discipline held (EvAcquire l :: EvRelease l :: evs) = lock_discipline held evs.
Proof. intros Hl Hb. by rewrite ld_acquire, ld_release. Qed.

Lemma no_bucket_lock_not_elem held i :
  existsb is_bucket_lock held = false → hash_lock i ∉ held.
Proof.
  intros H Hin. induction held as [|x held IH]; [by apply elem_of_nil in Hin|].
  simpl in H. apply orb_false_iff in H as [Hx H].
  apply elem_of_cons in Hin as [<-|Hin]; [done|by apply IH].
Qed.

Lemma ld_scan held ks evs :
  existsb is_bucket_lock held = false →
  lock_discipline held (scan_events ks ++ evs) = lock_discipline held evs.
Proof.
  intros H. induction ks as [|i ks IH]; [done|].
  change (scan_events (i :: ks) ++ evs)
    with (EvAcquire (hash_lock i) :: EvRelease (hash_lock i) :: (scan_events ks ++ evs)).
  rewrite ld_pair; [done|by apply no_bucket_lock_not_elem|done].
Qed.

Ltac not_held :=
  let H := fresh in
  intros H;
  repeat (apply elem_of_cons in H as [H|H]; [discriminate H|]);
  by apply elem_of_nil in H.

Lemma trace_hit_state b h s : trace (hit_state b h s) = trace s ++ hit_events h.
Proof. unfold hit_state. autorewrite with bio. by rewrite <- !app_assoc. Qed.

Lemma trace_evict_state v h d n s :
  trace (evict_state v h d n s) =
  trace s ++ miss_events h ++ recycle_events (bhashgetline (blockno (slot s v))) h.
Proof.
  unfold evict_state, recycle, miss_state, bhashadd, modify, state_of.
  autorewrite with bio. unfold miss_events, recycle_events.
  by rewrite <- !app_assoc.
Qed.

Lemma ld_hit_events h evs : lock_discipline [] (hit_events h ++ evs) = lock_discipline [] evs.
Proof.
  unfold hit_events. cbn [app].
  rewrite ld_acquire; [|not_held|done].
  rewrite ld_pair; [|not_held|done].
  rewrite ld_release; [done|not_held].
Qed.

Lemma ld_miss_events h evs :
  lock_discipline [] (miss_events h ++ evs) =
  lock_discipline [bcache_lock_del; hash_lock_add h] evs.
Proof.
  unfold miss_events. rewrite <- app_assoc. cbn [app].
  rewrite ld_acquire; [|not_held|done].
  rewrite ld_pair; [|not_held|done].
  rewrite ld_acquire; [|not_held|done].
  by rewrite ld_scan.
Qed.

Lemma ld_recycle_events lru_h h evs :
  lock_discipline [bcache_lock_del; hash_lock_add h] (recycle_events lru_h h ++ evs) =
  lock_discipline [] evs.
Proof.
  unfold recycle_events. cbn [app].
  rewrite ld_pair; [|not_held|done].
  rewrite ld_release; [|not_held].
  rewrite ld_pair; [|not_held|done].
  rewrite ld_release; [done|not_held].
Qed.

Lemma bget_lock_events fuel pid d n s :
  ∃ evs held,
    trace (state_of (bget (S fuel) quiet pid d n s)) = trace s ++ evs ∧
    (∀ evs', lock_discipline [] (evs ++ evs') = lock_discipline held evs') ∧
    (panic_msg (bget (S fuel) quiet pid d n s) = None → held = []).
Proof.
  set (h := bhashgetline n).
  destruct (bhashget_walk (bufs s) (bucket s h) d n) as [b|] eqn:Hw.
  - exists (hit_events h), [].
    rewrite bget_unroll. cbv zeta. fold h. rewrite Hw, acquiresleep_ret.
    split; [|split; [apply ld_hit_events|done]].
    destruct (lock _); cbn [state_of]; autorewrite with bio; apply trace_hit_state.
  - destruct (scan_pool s) as [[v|] t] eqn:Hscan.
    + exists (miss_events h ++ recycle_events (bhashgetline (blockno (slot s v))) h), [].
      erewrite bget_quiet_miss by done. fold h. rewrite acquiresleep_ret.
      split; [|split; [|done]].
      * destruct (lock _); cbn [state_of]; autorewrite with bio; apply trace_evict_state.
      * intros evs'. by rewrite <- app_assoc, ld_miss_events, ld_recycle_events.
    + exists (miss_events h), [bcache_lock_del; hash_lock_add h].
      erewrite bget_quiet_exhausted by done. fold h.
      split; [|split; [apply ld_miss_events|done]].
      cbn [state_of]. unfold miss_state, miss_events. autorewrite with bio.
      by rewrite <- !app_assoc.
Qed.

Lemma blockno_upd_frees delta b s :
  blockno (slot (upd_slot b (fun bf => set_refcnt (to_uint (refcnt bf + delta)) bf) s) b) =
  blockno (slot s b).
Proof. rewrite slot_upd_slot. by case_decide. Qed.

(** X11.  Spin-lock discipline.  Without interference, the events of
    [bget], [bread], [bwrite], [brelse], [bpin] and [bunpin] never acquire a
    spin-lock that is held, never hold two bucket locks at once, never release
    a lock that is not held and never start a block transfer with a spin-lock
    held; and unless the call panics it ends with no spin-lock held. *)
Theorem spinlocks_well_bracketed fuel pid d n b s :
  keeps_lock_discipline s (bget (S fuel) quiet pid d n s) ∧
  keeps_lock_discipline s (bread (S fuel) quiet pid d n s) ∧
  keeps_lock_discipline s (bwrite pid b s) ∧
  keeps_lock_discipline s (brelse pid b s) ∧
  keeps_lock_discipline s (bpin b s) ∧
  keeps_lock_discipline s (bunpin b s).
Proof.
  unfold keeps_lock_discipline.
  destruct (bget_lock_events fuel pid d n s) as (evs & held & Htr & Hld & Hheld).
  split; [|split; [|split; [|split; [|split]]]].
  - exists evs, held. split; [done|]. split; [|done].
    by rewrite <- (app_nil_r evs), Hld.
  - rewrite bread_unroll.
    destruct (bget (S fuel) quiet pid d n s) as [b0 s0| | |] eqn:Hget;
      cbn [state_of panic_msg] in *.
    + destruct (valid (slot s0 b0) =? 0).
      * exists (evs ++ [EvTransfer b0 false]), [].
        split; [|split; [|done]].
        -- cbn [state_of]. unfold read_state. autorewrite with bio.
           by rewrite Htr, <- app_assoc.
        -- rewrite Hld, Hheld by done. reflexivity.
      * exists evs, held. split; [done|]. split; [|done].
        by rewrite <- (app_nil_r evs), Hld.
    + exists evs, held. split; [done|]. split; [|done].
      by rewrite <- (app_nil_r evs), Hld.
    + exists evs, held. split; [done|]. split; [|done].
      by rewrite <- (app_nil_r evs), Hld.
    + exists evs, held. split; [done|]. split; [|done].
      by rewrite <- (app_nil_r evs), Hld.
  - rewrite bwrite_unroll. destruct (holdingsleep _ _).
    + exists [EvTransfer b true], []. split; [|done].
      cbn [state_of]. unfold write_state. by autorewrite with bio.
    + exists [], []. split; [|done]. cbn [state_of]. by rewrite app_nil_r.
  - rewrite brelse_unroll. destruct (holdingsleep _ _).
    + eexists _, []. split; [|split; [|done]].
      * cbn [state_of]. unfold release_state. cbv zeta. autorewrite with bio.
        rewrite <- !app_assoc. reflexivity.
      * cbn [app]. rewrite ld_pair; [|not_held|done]. rewrite ld_pair; [done|not_held|done].
    + exists [], []. split; [|done]. cbn [state_of]. by rewrite app_nil_r.
  - rewrite bpin_unroll. eexists _, []. split; [|split; [|done]].
    + cbn [state_of]. unfold pin_state. cbv zeta. autorewrite with bio.
      rewrite upd_slot_log, slot_log, blockno_upd_frees, <- !app_assoc. reflexivity.
    + cbn [app]. rewrite ld_pair; [done|not_held|done].
  - rewrite bunpin_unroll. eexists _, []. split; [|split; [|done]].
    + cbn [state_of]. unfold pin_state. cbv zeta. autorewrite with bio.
      rewrite upd_slot_log, slot_log, blockno_upd_frees, <- !app_assoc. reflexivity.
    + cbn [app]. rewrite ld_pair; [done|not_held|done].
Qed.

(** X12.  Bounded retry.  If the other processors change nothing from round
    [k] on, [bget] given more than [k] rounds of fuel never runs out of fuel:
    its loop ends by a return, a sleep or a panic after at most [k + 1]
    scans.  In particular, with no interference one scan is enough. *)
Theorem bget_retries_bounded k fuel env pid d n s :
  (∀ r s0, (k ≤ r)%nat → env r s0 = s0) →
  (k ≤ fuel)%nat →
  ∀ s', bget (S fuel) env pid d n s ≠ OutOfFuel s'.
Proof.
  intros Hquiet Hk s'. rewrite bget_unroll. cbv zeta.
  destruct (bhashget_walk _ _ _ _).
  - rewrite acquiresleep_ret. by destruct (lock _).
  - by apply (eviction_retries_bounded k).
Qed.

Ltac in_list H :=
  repeat (apply elem_of_cons in H as [->|H]; [|]); [..|by apply elem_of_nil in H].

Lemma miss_recycles_least_recent_witness :
  ∃ v s' l1 l2,
    bget 1 quiet 9 1 30 aged_state = Ret v s' ∧
    identity (slot s' v) = (1, 30) ∧
    scan_order aged_state = l1 ++ v :: l2 ∧
    refcnt (slot aged_state v) = 0 ∧
    (∀ j, j ∈ l1 → refcnt (slot aged_state j) = 0 →
          timestamp (slot aged_state v) < timestamp (slot aged_state j)) ∧
    (∀ j, j ∈ l2 → refcnt (slot aged_state j) = 0 →
          timestamp (slot aged_state v) ≤ timestamp (slot aged_state j)).
Proof.
  apply (miss_recycles_least_recent 0 9 1 30 aged_state 0).
  - reflexivity.
  - intros j Hj. change (scan_order aged_state) with [2%nat; 1%nat; 0%nat] in Hj.
    in_list Hj; (split; [vm_compute; lia|reflexivity]).
  - change (scan_order aged_state) with [2%nat; 1%nat; 0%nat].
    apply elem_of_cons. right. apply elem_of_cons. right. by left.
  - reflexivity.
  - reflexivity.
Defined.

Lemma bget_hit_witness :
  bget 0 quiet 9 1 21 aged_state =
    Ret 1%nat (upd_slot 1 (set_lock (Some 9)) (hit_state 1 (bhashgetline 21) aged_state)) ∧
  refcnt (slot (hit_state 1 (bhashgetline 21) aged_state) 1) = 1.
Proof.
  destruct (bget_hit 0 quiet 9 1 21 aged_state 1) as (Hget & Hslot & _).
  - reflexivity.
  - vm_compute. lia.
  - split; [exact Hget|]. rewrite Hslot. reflexivity.
Defined.

Lemma use_after_release_panics_witness :
  ∃ s',
    brelse 7 2 cached_state = Ret tt s' ∧
    brelse 7 2 s' = Panic "brelse" s' ∧
    bwrite 7 2 s' = Panic "bwrite" s'.
Proof.
  apply (use_after_release_panics 7 2 cached_state).
  - vm_compute. lia.
  - reflexivity.
Defined.

Lemma pin_unpin_round_trip_witness :
  ∃ s1 s2 s3 s4,
    bpin 0 idle_state = Ret tt s1 ∧ bunpin 0 s1 = Ret tt s2 ∧
    bunpin 0 idle_state = Ret tt s3 ∧ bpin 0 s3 = Ret tt s4 ∧
    bufs s2 = bufs idle_state ∧ bhashmap s2 = bhashmap idle_state ∧
    disk s2 = disk idle_state ∧ ticks s2 = ticks idle_state ∧
    bufs s4 = bufs idle_state ∧ bhashmap s4 = bhashmap idle_state ∧
    disk s4 = disk idle_state ∧ ticks s4 = ticks idle_state.
Proof. apply (pin_unpin_round_trip 0 idle_state). vm_compute. split; discriminate. Defined.

Lemma bread_postcondition_witness :
  let s := after_calls 3 2 no_disk [Cbread 7 1 20; Cbrelse 7 2] in
  ∃ s',
    bread 1 quiet 8 1 20 s = Ret 2%nat s' ∧
    identity (slot s' 2) = (1, 20) ∧ valid (slot s' 2) ≠ 0 ∧ lock (slot s' 2) = Some 8 ∧
    data (slot s' 2) = data (slot s 2).
Proof.
  cbv zeta.
  assert (bread 1 quiet 8 1 20 (after_calls 3 2 no_disk [Cbread 7 1 20; Cbrelse 7 2]) =
          Ret 2%nat (state_of (bread 1 quiet 8 1 20
                       (after_calls 3 2 no_disk [Cbread 7 1 20; Cbrelse 7 2])))) as Hrun
    by (vm_compute; reflexivity).
  eexists. split; [exact Hrun|].
  destruct (bread_postcondition 3 2 no_disk [Cbread 7 1 20; Cbrelse 7 2] 0 8 1 20 2 _ Hrun)
    as (_ & Hid & Hval & Hlock & _ & Hdata & _).
  split; [exact Hid|]. split; [exact Hval|]. split; [exact Hlock|].
  rewrite Hdata. vm_compute. reflexivity.
Defined.

Lemma bget_retries_bounded_witness :
  bget 2 pin_in_round_0 7 1 20 (init_state 3 2 no_disk) ≠
  OutOfFuel (state_of (bget 2 pin_in_round_0 7 1 20 (init_state 3 2 no_disk))).
Proof.
  apply (bget_retries_bounded 1 1 pin_in_round_0 7 1 20 (init_state 3 2 no_disk)).
  - intros r s0 Hr. destruct r; [lia|reflexivity].
  - lia.
Defined.

Lemma lookup_finds_valid_copy_witness :
  let s := after_calls 3 2 no_disk [Cbread 7 1 20] in
  bhashget_walk (bufs s) (bucket s (bhashgetline (blockno (slot s 2))))
    (dev (slot s 2)) (blockno (slot s 2)) = Some 2%nat.
Proof.
  apply (lookup_finds_valid_copy 3 2 no_disk [Cbread 7 1 20] 2).
  - lia.
  - vm_compute. discriminate.
Defined.

Lemma valid_copy_unique_witness :
  let s := after_calls 3 2 no_disk [Cbread 7 0 0; Cbread 8 1 20] in
  valid (slot s 2) = 1 ∧ valid (slot s 1) = 1 ∧ identity (slot s 1) ≠ identity (slot s 2).
Proof.
  cbv zeta. split; [reflexivity|]. split; [reflexivity|].
  intros Hid.
  assert (1%nat = 2%nat) as Habs; [|discriminate Habs].
  apply (valid_copy_unique 3 2 no_disk [Cbread 7 0 0; Cbread 8 1 20] 1 2).
  - lia.
  - lia.
  - vm_compute. discriminate.
  - vm_compute. discriminate.
  - exact Hid.
Defined.

Lemma unlink_absent b l : b ∉ l → unlink b l = l.
Proof.
  intros H. unfold unlink. induction l as [|x l IH]; [done|].
  apply not_elem_of_cons in H as [Hne H].
  rewrite filter_cons, decide_True by done. f_equal. by apply IH.
Qed.

(** X13.  Bucket round trip.  For a slot [b] that is linked nowhere,
    [bhashadd h b] puts [b] at the head of bucket [h] and leaves the other
    buckets alone, [bhashget] of [b]'s identity in [h] then finds [b], and
    [bhashdel h b] restores the state before the [bhashadd]. *)
Theorem bucket_add_del_lookup h b s d n :
  (h < length (bhashmap s))%nat →
  (∀ i, b ∉ bucket s i) →
  identity (slot s b) = (d, n) →
  ∃ s1,
    bhashadd h b s = Ret tt s1 ∧
    bucket s1 h = b :: bucket s h ∧
    (∀ i, i ≠ h → bucket s1 i = bucket s i) ∧
    bhashget h d n s1 = Ret (Some b) s1 ∧
    bhashdel h b s1 = Ret tt s.
Proof.
  intros Hh Hfresh Hid.
  set (s1 := upd_bhashmap (fun m => <[h := b :: bucket s h]> m) s).
  assert (bucket s1 h = b :: bucket s h) as Hb1.
  { unfold bucket at 1, s1. cbn [bhashmap upd_bhashmap]. by apply list_lookup_total_insert_eq. }
  assert (∀ i, i ≠ h → bucket s1 i = bucket s i) as Hb1'.
  { intros i Hne. unfold bucket, s1. cbn [bhashmap upd_bhashmap].
    by rewrite list_lookup_total_insert_ne. }
  exists s1.
  split; [reflexivity|]. split; [exact Hb1|]. split; [exact Hb1'|].
  split. { unfold bhashget, bind, get, ret. f_equal. change (bufs s1) with (bufs s).
           rewrite Hb1. by apply bhashget_walk_head. }
  unfold bhashdel, modify. f_equal.
  destruct s as [bs m tk dsk tr]. unfold s1, upd_bhashmap, bucket in *. cbn in *.
  f_equal. apply list_eq. intros i. rewrite list_lookup_fmap.
  destruct (decide (i = h)) as [->|Hne].
  - assert (unlink b (b :: m !!! h) = m !!! h) as Hx.
    { unfold unlink. rewrite filter_cons, decide_False by (by intros H; apply H).
      apply (unlink_absent b), Hfresh. }
    rewrite list_lookup_insert_eq by done.
    change (Some (unlink b (b :: m !!! h)) = m !! h). rewrite Hx.
    symmetry. by apply list_lookup_lookup_total_lt.
  - rewrite list_lookup_insert_ne by done.
    destruct (m !! i) as [l|] eqn:El; [|done].
    change (Some (unlink b l) = Some l). f_equal.
    apply unlink_absent. specialize (Hfresh i).
    by rewrite list_lookup_total_alt, El in Hfresh.
Qed.

Lemma bucket_add_del_lookup_witness :
  ∃ s1,
    bhashadd 1 0 unlinked_state = Ret tt s1 ∧
    bucket s1 1 = 0%nat :: bucket unlinked_state 1 ∧
    (∀ i, i ≠ 1%nat → bucket s1 i = bucket unlinked_state i) ∧
    bhashget 1 1 1 s1 = Ret (Some 0%nat) s1 ∧
    bhashdel 1 0 s1 = Ret tt unlinked_state.
Proof.
  apply (bucket_add_del_lookup 1 0 unlinked_state 1 1).
  - vm_compute. lia.
  - intros i Hi. unfold bucket, unlinked_state in Hi. cbn [bhashmap] in Hi.
    rewrite list_lookup_total_alt in Hi.
    destruct (replicate MODNUM ([] : list nat) !! i) as [l|] eqn:El.
    + apply lookup_replicate in El as [-> _]. by apply elem_of_nil in Hi.
    + by apply elem_of_nil in Hi.
  - reflexivity.
Defined.

(** * The free-list variant: chains and the free list *)

Section FreeList.
Import Lru.

(** ** Chains through [hashnext] *)

Lemma chain_functional bs p l1 l2 : chain bs p l1 → chain bs p l2 → l1 = l2.
Proof.
  intros H1. revert l2. induction H1 as [|b l H IH]; intros l2 H2; inversion H2; subst; [done|].
  f_equal. by apply IH.
Qed.

Lemma chain_suffix bs p l1 b l2 :
  chain bs p (l1 ++ b :: l2) → chain bs (Some b) (b :: l2).
Proof.
  revert p. induction l1 as [|x l1 IH]; intros p Hc.
  - simpl in Hc. by inversion Hc; subst.
  - inversion Hc; subst. by eapply IH.
Qed.

Lemma chain_head_not_in_tail bs b l : chain bs (Some b) (b :: l) → b ∉ l.
Proof.
  intros H Hin. apply list_elem_of_split in Hin as (l1 & l2 & ->).
  inversion H as [|? ? Hc]; subst.
  pose proof (chain_suffix _ _ _ _ _ Hc) as Hc2.
  pose proof (chain_functional _ _ _ _ H Hc2) as Heq.
  apply (f_equal length) in Heq. rewrite !length_cons, length_app, length_cons in Heq. lia.
Qed.

Lemma chain_nodup bs p l : chain bs p l → NoDup l.
Proof.
  induction 1 as [|b l H IH]; [apply NoDup_nil_2|].
  apply NoDup_cons. split; [|done].
  apply (chain_head_not_in_tail bs). by constructor.
Qed.

Lemma chain_ext bs bs' p l :
  (∀ x, x ∈ l → hashnext (bs' !!! x) = hashnext (bs !!! x)) →
  chain bs p l → chain bs' p l.
Proof.
  intros Hext H. induction H as [|b l H IH]; [constructor|].
  constructor. rewrite Hext by (by left). apply IH. intros x Hx. apply Hext. by right.
Qed.

Lemma chain_frame bs p l b x :
  chain bs p l → b ∉ l → chain (<[b := x]> bs) p l.
Proof.
  intros H Hb. apply (chain_ext bs); [|done].
  intros y Hy. rewrite list_lookup_total_insert_ne; [done|]. by intros ->.
Qed.

Lemma chain_next bs b x l :
  chain bs (Some b) (b :: x :: l) →
  hashnext (bs !!! b) = Some x ∧ chain bs (Some x) (x :: l).
Proof.
  intros H. inversion H as [|? ? H1]; subst.
  remember (hashnext (bs !!! b)) as p eqn:Hp.
  inversion H1; subst. split; [done|]. by constructor.
Qed.

Lemma chain_last bs b :
  chain bs (Some b) [b] → hashnext (bs !!! b) = None.
Proof.
  intros H. inversion H as [|? ? H1]; subst.
  remember (hashnext (bs !!! b)) as p eqn:Hp. by inversion H1.
Qed.

Lemma chain_head_eq bs p b l : chain bs p (b :: l) → p = Some b.
Proof. by inversion 1. Qed.

Lemma chain_empty bs p : chain bs p [] → p = None.
Proof. by inversion 1. Qed.

Lemma chain_bhashget_from bs p l d n fuel :
  chain bs p l → (length l < fuel)%nat →
  bhashget_from fuel bs p d n = Some (first_match bs l d n).
Proof.
  intros H. revert fuel. induction H as [|b l H IH]; intros fuel Hf.
  - destruct fuel; [simpl in Hf; lia|done].
  - destruct fuel as [|fuel]; [simpl in Hf; lia|]. simpl in *.
    destruct (_ && _); [done|]. apply IH. lia.
Qed.

Lemma first_match_ext bs bs' l d n :
  (∀ x, x ∈ l → dev (bs' !!! x) = dev (bs !!! x) ∧ blockno (bs' !!! x) = blockno (bs !!! x)) →
  first_match bs' l d n = first_match bs l d n.
Proof.
  intros H. induction l as [|x l IH]; [done|]. simpl.
  destruct (H x) as [-> ->]; [by left|]. rewrite IH; [done|].
  intros y Hy. apply H. by right.
Qed.

Lemma first_match_Some bs l d n b :
  first_match bs l d n = Some b → b ∈ l ∧ dev (bs !!! b) = d ∧ blockno (bs !!! b) = n.
Proof.
  induction l as [|x l IH]; [done|]. simpl.
  destruct (_ && _) eqn:E.
  - intros [= ->]. apply andb_true_iff in E as [? ?]. split; [by left|]. lia.
  - intros H. destruct (IH H) as (? & ? & ?). split; [by right|done].
Qed.

Lemma first_match_in bs l b :
  b ∈ l → is_Some (first_match bs l (dev (bs !!! b)) (blockno (bs !!! b))).
Proof.
  induction l as [|x l IH]; [by intros ?%elem_of_nil|]. simpl.
  destruct (_ && _) eqn:E; [by eexists|].
  intros [->|Hin]%elem_of_cons; [|by apply IH].
  by rewrite !Z.eqb_refl in E.
Qed.

Lemma unlink_middle b l1 l2 : NoDup (l1 ++ b :: l2) → unlink b (l1 ++ b :: l2) = l1 ++ l2.
Proof.
  intros Hnd. unfold unlink. rewrite filter_app, filter_cons.
  rewrite decide_False by (by intros H; apply H).
  apply NoDup_app in Hnd as (_ & H1 & Hnd2). apply NoDup_cons in Hnd2 as [H2 _].
  fold (unlink b l1) (unlink b l2). rewrite !unlink_absent; [done|done|].
  intros Hb. apply (H1 b Hb). by left.
Qed.

(** ** States *)

Lemma slot_upd_eq b f s :
  (b < length (bufs s))%nat → slot (upd_slot b f s) b = f (slot s b).
Proof. intros H. unfold slot, upd_slot; cbn [bufs]. by rewrite list_lookup_total_insert_eq. Qed.

Lemma slot_upd_ne b x f s : x ≠ b → slot (upd_slot b f s) x = slot s x.
Proof. intros H. unfold slot, upd_slot; cbn [bufs]. by rewrite list_lookup_total_insert_ne. Qed.

Lemma length_upd b f s : length (bufs (upd_slot b f s)) = length (bufs s).
Proof. unfold upd_slot; cbn [bufs]. by rewrite length_insert. Qed.

(** A field that [f] keeps is kept by [upd_slot b f] in every slot. *)
Lemma slot_upd_slot_field {A} (g : buf → A) b f s x :
  (∀ bf, g (f bf) = g bf) → g (slot (upd_slot b f s) x) = g (slot s x).
Proof.
  intros Hg. unfold slot, upd_slot; cbn [bufs].
  destruct (decide (x = b)) as [->|Hne].
  - destruct (decide (b < length (bufs s))%nat).
    + by rewrite list_lookup_total_insert_eq.
    + by rewrite list_insert_ge by lia.
  - by rewrite list_lookup_total_insert_ne.
Qed.

(** ** Segments of the free list *)

Lemma dlseg_ext bs bs' pv p l lst nx :
  (∀ x, x ∈ l → prev (bs' !!! x) = prev (bs !!! x) ∧ next (bs' !!! x) = next (bs !!! x)) →
  dlseg bs pv p l lst nx → dlseg bs' pv p l lst nx.
Proof.
  revert pv p. induction l as [|x l IH]; intros pv p Hext; [done|].
  cbn [dlseg]. intros (-> & Hp & Hseg).
  destruct (Hext x) as [Hpx Hnx]; [by left|]. rewrite Hpx, Hnx.
  split; [done|]. split; [done|]. apply IH; [|done].
  intros y Hy. apply Hext. by right.
Qed.

Lemma dlseg_app bs pv p l1 l2 lst nx :
  dlseg bs pv p (l1 ++ l2) lst nx ↔
  ∃ m q, dlseg bs pv p l1 m q ∧ dlseg bs m q l2 lst nx.
Proof.
  revert pv p. induction l1 as [|x l1 IH]; intros pv p; cbn [app dlseg].
  - split.
    + intros H. exists pv, p. done.
    + intros (m & q & [-> ->] & H). done.
  - rewrite IH. split.
    + intros (-> & Hp & m & q & H1 & H2). exists m, q. done.
    + intros (m & q & (-> & Hp & H1) & H2). split; [done|]. split; [done|]. by exists m, q.
Qed.

(** The last node of a segment is its entry's predecessor or one of its
    slots; its first node is its exit or one of its slots. *)
Lemma dlseg_last bs pv p l lst nx :
  dlseg bs pv p l lst nx →
  (l = [] ∧ lst = pv) ∨ (∃ l' a, l = l' ++ [a] ∧ lst = Slot a ∧ next (bs !!! a) = nx).
Proof.
  revert pv p. induction l as [|x l IH]; intros pv p; cbn [dlseg].
  - intros [_ ->]. by left.
  - intros (-> & Hp & H). right. destruct (IH _ _ H) as [[-> ->]|(l' & a & -> & -> & Ha)].
    + exists [], x. destruct H as [H _]. done.
    + exists (x :: l'), a. done.
Qed.

Lemma dlseg_first bs pv p l lst nx :
  dlseg bs pv p l lst nx →
  (l = [] ∧ p = nx) ∨ (∃ c l', l = c :: l' ∧ p = Slot c ∧ prev (bs !!! c) = pv).
Proof.
  destruct l as [|c l]; cbn [dlseg].
  - intros [-> _]. by left.
  - intros (-> & Hp & _). right. by exists c, l.
Qed.

Lemma ring_nil s : ring s [] ↔ head_next s = Head ∧ head_prev s = Head.
Proof.
  unfold ring. cbn [dlseg]. split.
  - by intros [[? ?] _].
  - intros [? ?]. split; [done|]. split; [apply NoDup_nil_2|]. by intros x ?%elem_of_nil.
Qed.

(** The least recently released slot is [head.prev]. *)
Lemma ring_tail s l v : ring s (l ++ [v]) → head_prev s = Slot v.
Proof.
  intros [H _]. apply dlseg_last in H as [[H _]|(l' & a & Heq & -> & _)].
  - by destruct l.
  - apply app_inj_tail in Heq as [_ ->]. done.
Qed.

Lemma ring_head s b l : ring s (b :: l) → head_next s = Slot b.
Proof. by intros [(? & _) _]. Qed.

(** ** Loads and stores of links *)

Lemma load_prev_eq p s : p ≠ Null → load_prev p s = Done (prv s p) s.
Proof. by destruct p. Qed.
Lemma load_next_eq p s : p ≠ Null → load_next p s = Done (nxt s p) s.
Proof. by destruct p. Qed.
Lemma store_prev_eq p v s : p ≠ Null → store_prev p v s = Done tt (put_prev p v s).
Proof. by destruct p. Qed.
Lemma store_next_eq p v s : p ≠ Null → store_next p v s = Done tt (put_next p v s).
Proof. by destruct p. Qed.

Lemma valid_link_not_null s p : valid_link s p → p ≠ Null.
Proof. by destruct p. Qed.

Lemma length_put_prev p v s : length (bufs (put_prev p v s)) = length (bufs s).
Proof. destruct p; [done|done|apply length_upd]. Qed.
Lemma length_put_next p v s : length (bufs (put_next p v s)) = length (bufs s).
Proof. destruct p; [done|done|apply length_upd]. Qed.

Lemma head_put_prev p v s : head (put_prev p v s) = head s.
Proof. by destruct p. Qed.
Lemma head_put_next p v s : head (put_next p v s) = head s.
Proof. by destruct p. Qed.
Lemma trace_put_prev p v s : trace (put_prev p v s) = trace s.
Proof. by destruct p. Qed.
Lemma trace_put_next p v s : trace (put_next p v s) = trace s.
Proof. by destruct p. Qed.

(** A field other than [prev] is the same after [put_prev]; likewise for
    [next]. *)
Lemma slot_put_prev_field {A} (g : buf → A) p v s x :
  (∀ w bf, g (set_prev w bf) = g bf) → g (slot (put_prev p v s) x) = g (slot s x).
Proof. intros Hg. destruct p; [done|done|]. by apply slot_upd_slot_field. Qed.
Lemma slot_put_next_field {A} (g : buf → A) p v s x :
  (∀ w bf, g (set_next w bf) = g bf) → g (slot (put_next p v s) x) = g (slot s x).
Proof. intros Hg. destruct p; [done|done|]. by apply slot_upd_slot_field. Qed.

Lemma nxt_put_prev p v s q : nxt (put_prev p v s) q = nxt s q.
Proof.
  destruct q as [| |x]; [done|by destruct p|]. cbn [nxt].
  by apply (slot_put_prev_field next).
Qed.
Lemma prv_put_next p v s q : prv (put_next p v s) q = prv s q.
Proof.
  destruct q as [| |x]; [done|by destruct p|]. cbn [prv].
  by apply (slot_put_next_field prev).
Qed.

Lemma prv_put_prev_eq p v s : valid_link s p → prv (put_prev p v s) p = v.
Proof.
  destruct p as [| |x]; [done|done|]. cbn [valid_link prv put_prev]. intros H.
  by rewrite slot_upd_eq.
Qed.
Lemma nxt_put_next_eq p v s : valid_link s p → nxt (put_next p v s) p = v.
Proof.
  destruct p as [| |x]; [done|done|]. cbn [valid_link nxt put_next]. intros H.
  by rewrite slot_upd_eq.
Qed.

Lemma prv_put_prev_ne p v s q : p ≠ q → prv (put_prev p v s) q = prv s q.
Proof.
  intros Hne. destruct q as [| |x]; [done|by destruct p|]. cbn [prv].
  destruct p as [| |y]; [done|done|]. cbn [put_prev]. apply f_equal, slot_upd_ne. congruence.
Qed.
Lemma nxt_put_next_ne p v s q : p ≠ q → nxt (put_next p v s) q = nxt s q.
Proof.
  intros Hne. destruct q as [| |x]; [done|by destruct p|]. cbn [nxt].
  destruct p as [| |y]; [done|done|]. cbn [put_next]. apply f_equal, slot_upd_ne. congruence.
Qed.

(** Storing the value a link already has changes nothing that is read. *)
Lemma prv_put_prev_same p s q : prv (put_prev p (prv s q) s) q = prv s q.
Proof.
  destruct (decide (p = q)) as [->|Hne]; [|by apply prv_put_prev_ne].
  destruct q as [| |x]; [done|done|]. cbn [prv put_prev].
  unfold slot, upd_slot; cbn [bufs].
  destruct (decide (x < length (bufs s))%nat).
  - by rewrite list_lookup_total_insert_eq.
  - by rewrite list_insert_ge by lia.
Qed.
Lemma nxt_put_next_same p s q : nxt (put_next p (nxt s q) s) q = nxt s q.
Proof.
  destruct (decide (p = q)) as [->|Hne]; [|by apply nxt_put_next_ne].
  destruct q as [| |x]; [done|done|]. cbn [nxt put_next].
  unfold slot, upd_slot; cbn [bufs].
  destruct (decide (x < length (bufs s))%nat).
  - by rewrite list_lookup_total_insert_eq.
  - by rewrite list_insert_ge by lia.
Qed.

Lemma put_next_put_prev p a q b s :
  put_next p a (put_prev q b s) = put_prev q b (put_next p a s).
Proof.
  destruct p as [| |i], q as [| |j]; try reflexivity.
  cbn [put_next put_prev]. unfold upd_slot; cbn [bufs head_prev head_next head trace].
  f_equal. destruct (decide (i = j)) as [->|Hne].
  - destruct (decide (j < length (bufs s))%nat).
    + rewrite !list_lookup_total_insert_eq by done. by rewrite !list_insert_insert_eq.
    + by rewrite !list_insert_ge by (rewrite ?length_insert; lia).
  - rewrite !list_lookup_total_insert_ne by done. by apply list_insert_insert_ne.
Qed.

(** Both orders of the two assignments that take a slot out of the list. *)
Lemma unlink_miss_eq b s :
  prv s (Slot b) ≠ Null → nxt s (Slot b) ≠ Null →
  unlink_miss b s = Done tt (unlinked b s).
Proof.
  intros Hp Hn. unfold unlink_miss, unlinked, bind.
  rewrite load_next_eq, load_prev_eq by done.
  rewrite store_prev_eq by done.
  rewrite load_prev_eq by done. rewrite load_next_eq by done.
  rewrite nxt_put_prev, prv_put_prev_same. by rewrite store_next_eq.
Qed.

Lemma unlink_hit_eq b s :
  prv s (Slot b) ≠ Null → nxt s (Slot b) ≠ Null →
  unlink_hit b s = Done tt (unlinked b s).
Proof.
  intros Hp Hn. unfold unlink_hit, unlinked, bind.
  rewrite load_prev_eq, load_next_eq by done.
  rewrite store_next_eq by done.
  rewrite load_next_eq by done. rewrite load_prev_eq by done.
  rewrite prv_put_next, nxt_put_next_same. rewrite store_prev_eq by done.
  by rewrite put_next_put_prev.
Qed.

(** ** Taking a slot out of the free list, and putting one in *)

Lemma dlseg_frame_put_prev s q v pv p l lst nx :
  (∀ i, q = Slot i → i ∉ l) →
  dlseg (bufs s) pv p l lst nx → dlseg (bufs (put_prev q v s)) pv p l lst nx.
Proof.
  intros Hq. apply dlseg_ext. intros x Hx. split.
  - apply (prv_put_prev_ne q v s (Slot x)). intros ->. by apply (Hq x).
  - apply (nxt_put_prev q v s (Slot x)).
Qed.

Lemma dlseg_frame_put_next s q v pv p l lst nx :
  (∀ i, q = Slot i → i ∉ l) →
  dlseg (bufs s) pv p l lst nx → dlseg (bufs (put_next q v s)) pv p l lst nx.
Proof.
  intros Hq. apply dlseg_ext. intros x Hx. split.
  - apply (prv_put_next q v s (Slot x)).
  - apply (nxt_put_next_ne q v s (Slot x)). intros ->. by apply (Hq x).
Qed.

(** Re-targeting the [prev] link of the node a segment is entered at. *)
Lemma dlseg_put_prev_entry s pv0 p n l :
  dlseg (bufs s) pv0 n l (head_prev s) Head → NoDup l →
  (∀ x, x ∈ l → (x < length (bufs s))%nat) →
  dlseg (bufs (put_prev n p s)) p n l (head_prev (put_prev n p s)) Head.
Proof.
  destruct l as [|c l]; cbn [dlseg].
  - intros [-> _] _ _. done.
  - intros (-> & _ & D) [Hc _]%NoDup_cons Hb. split; [done|].
    pose proof (prv_put_prev_eq (Slot c) p s) as Hp.
    pose proof (nxt_put_prev (Slot c) p s (Slot c)) as Hn.
    cbn [prv nxt] in Hp, Hn. unfold slot in Hp, Hn.
    rewrite Hp, Hn by (apply Hb; by left). split; [done|].
    apply dlseg_frame_put_prev; [|done]. by intros i [= <-].
Qed.

(** Re-targeting the [next] link of the last node of a segment that starts
    at [head.next]. *)
Lemma dlseg_put_next_exit s lst nx0 n l :
  dlseg (bufs s) Head (head_next s) l lst nx0 → NoDup l →
  (∀ x, x ∈ l → (x < length (bufs s))%nat) →
  dlseg (bufs (put_next lst n s)) Head (head_next (put_next lst n s)) l lst n.
Proof.
  intros D Hnd Hb.
  destruct (dlseg_last _ _ _ _ _ _ D) as [[-> ->]|(l' & a & -> & -> & Ha)]; [done|].
  apply dlseg_app in D as (m & q & D1 & D2). cbn [dlseg] in D2.
  destruct D2 as (-> & Hp & _).
  apply NoDup_app in Hnd as (_ & Hdis & _).
  apply dlseg_app. exists m, (Slot a). split.
  - apply (dlseg_frame_put_next s (Slot a) n); [|done].
    intros i [= <-] Hin. apply (Hdis a Hin). by left.
  - cbn [dlseg].
    pose proof (nxt_put_next_eq (Slot a) n s) as Hn.
    pose proof (prv_put_next (Slot a) n s (Slot a)) as Hp'.
    cbn [prv nxt] in Hp', Hn. unfold slot in Hp', Hn.
    rewrite Hp', Hn; [done|]. apply Hb, elem_of_app. right. by left.
Qed.

(** Taking [b] out of the free list [l1 ++ b :: l2] leaves [l1 ++ l2]. *)
Lemma ring_unlinked s l1 b l2 :
  ring s (l1 ++ b :: l2) → ring (unlinked b s) (l1 ++ l2).
Proof.
  intros (D & Hnd & Hb).
  apply dlseg_app in D as (m & q & D1 & D2). cbn [dlseg] in D2.
  destruct D2 as (-> & Hp & D2).
  pose proof Hnd as Hnd'.
  apply NoDup_app in Hnd' as (Hnd1 & Hdis & [Hb2 Hnd2]%NoDup_cons).
  unfold unlinked. cbn [prv nxt]. unfold slot. rewrite Hp.
  set (n := next (bufs s !!! b)) in *.
  split; [|split].
  - apply dlseg_app. exists m, n. split.
    + assert (m = Head ∨ ∃ a, m = Slot a ∧ a ∈ l1) as Hm.
      { destruct (dlseg_last _ _ _ _ _ _ D1) as [[_ ->]|(l' & a & -> & -> & _)]; [by left|].
        right. exists a. split; [done|]. apply elem_of_app. right. by left. }
      apply dlseg_put_next_exit with (nx0 := Slot b).
      * assert (head_next (put_prev n m s) = head_next s) as ->
          by apply (nxt_put_prev n m s Head).
        apply dlseg_frame_put_prev; [|done].
        intros i -> Hi.
        destruct (dlseg_first _ _ _ _ _ _ D2) as [[_ ?]|(c & l' & -> & [= <-] & _)]; [done|].
        apply (Hdis i Hi). right. by left.
      * done.
      * intros x Hx. rewrite length_put_prev. apply Hb, elem_of_app. by left.
    + assert (head_prev (put_next m n (put_prev n m s)) = head_prev (put_prev n m s)) as ->.
      { apply (prv_put_next m n (put_prev n m s) Head). }
      apply dlseg_frame_put_next.
      * intros i -> Hi.
        destruct (dlseg_last _ _ _ _ _ _ D1) as [[_ ?]|(l' & a & -> & [= <-] & _)]; [done|].
        apply (Hdis i); [apply elem_of_app; right; by left|by right].
      * apply dlseg_put_prev_entry with (pv0 := Slot b); [done|done|].
        intros x Hx. apply Hb, elem_of_app. right. by right.
  - apply NoDup_app. split; [done|]. split; [|done].
    intros x Hx1 Hx2. apply (Hdis x Hx1). by right.
  - intros x Hx. rewrite length_put_next, length_put_prev. apply Hb.
    apply elem_of_app in Hx as [Hx|Hx]; apply elem_of_app; [by left|right; by right].
Qed.

(** The links of an unlinked list say where a new first node goes: after the
    assignments of [brelse] (or of [binit]) the list has [b] in front. *)
Lemma ring_push s s' b l :
  ring s l → b ∉ l → (b < length (bufs s))%nat →
  length (bufs s') = length (bufs s) →
  head_next s' = Slot b →
  prv s' (Slot b) = Head →
  nxt s' (Slot b) = head_next s →
  prv s' (head_next s) = Slot b →
  (∀ q, q ≠ head_next s → q ≠ Slot b → prv s' q = prv s q) →
  (∀ x, x ≠ b → nxt s' (Slot x) = nxt s (Slot x)) →
  ring s' (b :: l).
Proof.
  intros (D & Hnd & Hb) Hbl Hblen Hlen Hhn Hpb Hnb Hpf Hpo Hno.
  cbn [prv nxt] in Hpb, Hnb. unfold slot in Hpb, Hnb.
  split; [|split].
  - cbn [dlseg]. rewrite Hhn, Hpb, Hnb. split; [done|]. split; [done|].
    destruct l as [|c l]; cbn [dlseg] in D |- *.
    + destruct D as [Hn Hp]. split; [done|]. rewrite Hn in Hpf. done.
    + destruct D as (Hn & Hp & D). split; [done|].
      assert (c ≠ b) as Hcb by (intros ->; apply Hbl; by left).
      apply NoDup_cons in Hnd as [Hc Hnd].
      rewrite Hn in Hpf. cbn [prv] in Hpf. unfold slot in Hpf. rewrite Hpf.
      split; [done|].
      specialize (Hno c Hcb) as Hnc. cbn [nxt] in Hnc. unfold slot in Hnc. rewrite Hnc.
      assert (head_prev s' = head_prev s) as ->.
      { apply (Hpo Head); [by rewrite Hn|done]. }
      revert D. apply dlseg_ext. intros x Hx.
      assert (x ≠ c) as Hxc by (by intros ->).
      assert (x ≠ b) as Hxb by (intros ->; apply Hbl; by right).
      split.
      * apply (Hpo (Slot x)); rewrite ?Hn; congruence.
      * by apply (Hno x).
  - apply NoDup_cons. done.
  - intros x [->|Hx]%elem_of_cons; rewrite Hlen; [done|by apply Hb].
Qed.

(** ** The three chain functions *)

Lemma bhashadd_eq h b s :
  bhashadd h b s =
  Done tt (set_head h (Some b) (upd_slot b (set_hashnext (head s !!! h)) s)).
Proof. reflexivity. Qed.

Lemma bhashget_eq fuel h d n s l :
  chain (bufs s) (head s !!! h) l → (length l < fuel)%nat →
  bhashget fuel h d n s = Done (first_match (bufs s) l d n) s.
Proof.
  intros Hc Hf. unfold bhashget. by rewrite (chain_bhashget_from _ _ l).
Qed.

Lemma bhashdel_from_S fuel b buf s :
  bhashdel_from (S fuel) b buf s =
  match hashnext (slot s b) with
  | None => Done tt s
  | Some nb =>
      if decide (nb = buf)
      then Done tt (upd_slot b (set_hashnext (hashnext (slot s buf))) s)
      else bhashdel_from fuel nb buf s
  end.
Proof.
  cbn [bhashdel_from]. unfold bind, get.
  destruct (hashnext _); [destruct (decide _)|]; reflexivity.
Qed.

Lemma chain_bhashdel_from s b l1 buf l2 fuel :
  chain (bufs s) (Some b) (b :: l1 ++ buf :: l2) →
  (∀ x, x ∈ b :: l1 → (x < length (bufs s))%nat) →
  (length l1 < fuel)%nat →
  ∃ c,
    c ∈ b :: l1 ∧
    bhashdel_from fuel b buf s =
      Done tt (upd_slot c (set_hashnext (hashnext (slot s buf))) s) ∧
    chain (bufs (upd_slot c (set_hashnext (hashnext (slot s buf))) s))
      (Some b) (b :: l1 ++ l2).
Proof.
  revert b fuel. induction l1 as [|x l1 IH]; intros b fuel Hc Hin Hf.
  - destruct fuel as [|fuel]; [simpl in Hf; lia|].
    pose proof (chain_nodup _ _ _ Hc) as Hnd.
    simpl in Hc. destruct (chain_next _ _ _ _ Hc) as [Hnext Hc1].
    inversion Hc1 as [|? ? Hc2]; subst.
    exists b. split; [by left|]. rewrite bhashdel_from_S. unfold slot at 1.
    rewrite Hnext, decide_True by done. split; [done|].
    constructor. unfold upd_slot; cbn [bufs].
    rewrite list_lookup_total_insert_eq by (apply Hin; by left).
    cbn [hashnext set_hashnext app]. apply chain_frame; [done|].
    apply NoDup_cons in Hnd as [Hb _]. intros Hb2. apply Hb. by right.
  - destruct fuel as [|fuel]; [simpl in Hf; lia|].
    pose proof (chain_nodup _ _ _ Hc) as Hnd.
    simpl in Hc. destruct (chain_next _ _ _ _ Hc) as [Hnext Hc1].
    assert (x ≠ buf) as Hxb.
    { apply NoDup_cons in Hnd as [_ Hnd]. apply NoDup_cons in Hnd as [Hx _].
      intros ->. apply Hx. apply elem_of_app. right. by left. }
    destruct (IH x fuel Hc1) as (c & Hcin & Hdel & Hch).
    { intros y Hy. apply Hin. by right. }
    { simpl in Hf. lia. }
    exists c. split; [by right|].
    rewrite bhashdel_from_S. unfold slot at 1.
    rewrite Hnext, decide_False by done. split; [exact Hdel|].
    assert (c ≠ b) as Hcb.
    { apply NoDup_cons in Hnd as [Hb _]. intros ->. apply Hb.
      apply elem_of_cons in Hcin as [->|Hcin]; [by left|].
      right. apply elem_of_app. by left. }
    simpl. constructor. unfold upd_slot in *; cbn [bufs] in *.
    rewrite list_lookup_total_insert_ne by done.
    rewrite Hnext. exact Hch.
Qed.

Lemma chain_bhashdel_from_absent s b l buf fuel :
  chain (bufs s) (Some b) (b :: l) → buf ∉ l → (length l < fuel)%nat →
  bhashdel_from fuel b buf s = Done tt s.
Proof.
  revert b fuel. induction l as [|x l IH]; intros b fuel Hc Hb Hf.
  - destruct fuel as [|fuel]; [simpl in Hf; lia|].
    rewrite bhashdel_from_S. unfold slot. by rewrite (chain_last _ _ Hc).
  - destruct fuel as [|fuel]; [simpl in Hf; lia|].
    destruct (chain_next _ _ _ _ Hc) as [Hnext Hc1].
    apply not_elem_of_cons in Hb as [Hne Hb].
    rewrite bhashdel_from_S. unfold slot. rewrite Hnext.
    rewrite decide_False by done. apply IH; [done|done|simpl in Hf; lia].
Qed.

(** What [bhashdel] does to a bucket that is not empty: nothing, a new list
    head, or a new [hashnext] in one slot of the bucket. *)
Lemma bhashdel_shape fuel h b s l :
  chain (bufs s) (head s !!! h) l → l ≠ [] →
  (h < length (head s))%nat →
  (∀ x, x ∈ l → (x < length (bufs s))%nat) →
  (length l ≤ fuel)%nat →
  ∃ s',
    bhashdel fuel h b s = Done tt s' ∧
    chain (bufs s') (head s' !!! h) (unlink b l) ∧
    ((s' = s ∧ b ∉ l) ∨
     (b ∈ l ∧ s' = set_head h (hashnext (slot s b)) s) ∨
     (b ∈ l ∧ ∃ c, c ∈ l ∧ c ≠ b ∧ s' = upd_slot c (set_hashnext (hashnext (slot s b))) s)).
Proof.
  intros Hc Hl Hh Hin Hf.
  pose proof (chain_nodup _ _ _ Hc) as Hnd.
  destruct l as [|b0 l]; [done|].
  pose proof (chain_head_eq _ _ _ _ Hc) as Hhead.
  rewrite Hhead in Hc. unfold bhashdel, bind, get. rewrite Hhead.
  apply NoDup_cons in Hnd as [Hbl Hndl].
  destruct (decide (b0 = b)) as [->|Hne].
  - eexists. split; [reflexivity|]. split.
    + unfold set_head; cbn [bufs head]. rewrite list_lookup_total_insert_eq by done.
      unfold unlink. rewrite filter_cons, decide_False by (by intros H; apply H).
      fold (unlink b l). rewrite unlink_absent by done. by inversion Hc.
    + right. left. split; [by left|done].
  - unfold unlink. rewrite filter_cons, decide_True by done. fold (unlink b l).
    destruct (decide (b ∈ l)) as [Hbuf|Hbuf].
    + apply list_elem_of_split in Hbuf as (l1 & l2 & ->).
      destruct (chain_bhashdel_from s b0 l1 b l2 fuel Hc) as (c & Hcin & Hdel & Hch).
      { intros x Hx. apply Hin. apply elem_of_cons in Hx as [->|Hx]; [by left|].
        right. apply elem_of_app. by left. }
      { rewrite length_cons, length_app in Hf. lia. }
      eexists. split; [exact Hdel|]. rewrite unlink_middle by done.
      split. { unfold upd_slot at 2; cbn [head]. by rewrite Hhead. }
      right. right. split. { right. apply elem_of_app. right. by left. }
      exists c. split; [|split; [|done]].
      * apply elem_of_cons in Hcin as [->|Hcin]; [by left|].
        right. apply elem_of_app. by left.
      * intros ->. apply elem_of_cons in Hcin as [->|Hcin]; [done|].
        apply NoDup_app in Hndl as (_ & Hdis & _). apply (Hdis b Hcin). by left.
    + exists s. split.
      { apply (chain_bhashdel_from_absent s b0 l); [done|done|]. rewrite length_cons in Hf. lia. }
      rewrite Hhead, unlink_absent by done. split; [done|]. left. split; [done|].
      by intros [->|?]%elem_of_cons.
Qed.

Lemma slot_set_head h p s x : slot (set_head h p s) x = slot s x.
Proof. reflexivity. Qed.

Lemma payload_upd_hashnext c p s x :
  payload (slot (upd_slot c (set_hashnext p) s) x) = payload (slot s x).
Proof. by apply (slot_upd_slot_field payload). Qed.

(** X14.  [bhashdel] on a bucket whose chain is [l]: an empty bucket makes it
    dereference the null pointer; otherwise it returns, the chain is [l]
    without [b], a slot that is not in the bucket leaves the state as it
    was, and nothing but [hashnext] fields of the bucket and its list head
    is written. *)
Theorem bhashdel_chain fuel h b s l :
  chain (bufs s) (head s !!! h) l →
  (h < length (head s))%nat →
  (∀ x, x ∈ l → (x < length (bufs s))%nat) →
  (length l ≤ fuel)%nat →
  match l with
  | [] => bhashdel fuel h b s = NullDeref
  | _ :: _ =>
      ∃ s',
        bhashdel fuel h b s = Done tt s' ∧
        chain (bufs s') (head s' !!! h) (unlink b l) ∧
        (b ∉ l → s' = s) ∧
        (∀ i, i ≠ h → head s' !!! i = head s !!! i) ∧
        (∀ x, payload (slot s' x) = payload (slot s x) ∧
              prv s' (Slot x) = prv s (Slot x) ∧ nxt s' (Slot x) = nxt s (Slot x)) ∧
        (∀ x, x ∉ l → hashnext (slot s' x) = hashnext (slot s x)) ∧
        prv s' Head = prv s Head ∧ nxt s' Head = nxt s Head
  end.
Proof.
  intros Hc Hh Hin Hf. destruct l as [|b0 l].
  { apply chain_empty in Hc. unfold bhashdel, bind, get. by rewrite Hc. }
  destruct (bhashdel_shape fuel h b s (b0 :: l)) as (s' & Hrun & Hc' & Hshape); try done.
  exists s'. split; [done|]. split; [done|].
  destruct Hshape as [[-> Hb]|[[Hb ->]|(Hb & c & Hcl & Hcb & ->)]].
  - done.
  - split; [done|]. split.
    { intros i Hi. unfold set_head; cbn [head]. by rewrite list_lookup_total_insert_ne. }
    done.
  - split; [done|]. split; [done|]. split.
    { intros x. split; [apply payload_upd_hashnext|]. cbn [prv nxt].
      split; [by apply (slot_upd_slot_field prev)|by apply (slot_upd_slot_field next)]. }
    split; [|done].
    intros x Hx. apply f_equal, slot_upd_ne. by intros ->.
Qed.

(** X15.  After [bhashadd] of a slot that is not in the bucket, the chain has the
    slot in front, the other buckets are as before, and [bhashget] returns
    the first slot of the new chain with the identity asked for: the added
    slot itself when asked for its own identity. *)
Theorem bhashadd_then_bhashget h b s l :
  chain (bufs s) (head s !!! h) l →
  b ∉ l →
  (b < length (bufs s))%nat →
  (h < length (head s))%nat →
  ∃ s',
    bhashadd h b s = Done tt s' ∧
    chain (bufs s') (head s' !!! h) (b :: l) ∧
    (∀ i li, i ≠ h → chain (bufs s) (head s !!! i) li → b ∉ li →
             chain (bufs s') (head s' !!! i) li) ∧
    (∀ fuel d n, (S (length l) < fuel)%nat →
       bhashget fuel h d n s' = Done (first_match (bufs s) (b :: l) d n) s') ∧
    bhashget (S (S (length l))) h (dev (slot s b)) (blockno (slot s b)) s' = Done (Some b) s'.
Proof.
  intros Hc Hb Hlen Hh. eexists. split; [apply bhashadd_eq|].
  set (s' := set_head h (Some b) (upd_slot b (set_hashnext (head s !!! h)) s)).
  assert (chain (bufs s') (head s' !!! h) (b :: l)) as Hc'.
  { unfold s', set_head, upd_slot; cbn [bufs head].
    rewrite list_lookup_total_insert_eq by done. constructor.
    rewrite list_lookup_total_insert_eq by done. cbn [hashnext set_hashnext].
    by apply chain_frame. }
  assert (∀ fuel d n, (S (length l) < fuel)%nat →
    bhashget fuel h d n s' = Done (first_match (bufs s) (b :: l) d n) s') as Hget.
  { intros fuel d n Hf. rewrite (bhashget_eq _ _ _ _ _ (b :: l)) by (done || (rewrite length_cons; lia)).
    f_equal. apply first_match_ext. intros x _.
    change (bufs s' !!! x) with (slot (upd_slot b (set_hashnext (head s !!! h)) s) x).
    split; [by apply (slot_upd_slot_field dev)|by apply (slot_upd_slot_field blockno)]. }
  split; [done|]. split.
  { intros i li Hi Hci Hbi. unfold s', set_head, upd_slot; cbn [bufs head].
    rewrite list_lookup_total_insert_ne by done. by apply chain_frame. }
  split; [exact Hget|].
  rewrite Hget by lia. f_equal. cbn [first_match]. unfold slot. by rewrite !Z.eqb_refl.
Qed.

(** X16.  [bhashadd] does not look whether the slot is linked already: after
    two [bhashadd] of the same slot to a bucket the slot is linked to
    itself, and a lookup in that bucket of an identity the slot does not
    have never leaves the loop. *)
Theorem bhashadd_twice_loops fuel h b s d n :
  (b < length (bufs s))%nat →
  (h < length (head s))%nat →
  (dev (slot s b), blockno (slot s b)) ≠ (d, n) →
  bind (bhashadd h b) (fun _ => bind (bhashadd h b) (fun _ => bhashget fuel h d n)) s
  = OutOfFuel.
Proof.
  intros Hb Hh Hid. unfold bind. rewrite !bhashadd_eq.
  unfold bhashget, set_head, upd_slot; cbn [bufs head].
  rewrite !list_lookup_total_insert_eq by (rewrite ?length_insert; done).
  rewrite list_insert_insert_eq.
  set (bs' := <[b := _]> (bufs s)).
  assert (hashnext (bs' !!! b) = Some b ∧
          dev (bs' !!! b) = dev (slot s b) ∧
          blockno (bs' !!! b) = blockno (slot s b)) as (Hn & Hd & Hbn).
  { unfold bs'. by rewrite list_lookup_total_insert_eq. }
  assert (bhashget_from fuel bs' (Some b) d n = None) as ->; [|done].
  induction fuel as [|fuel IH]; [done|]. simpl. rewrite Hd, Hbn, Hn.
  destruct ((dev (slot s b) =? d) && (blockno (slot s b) =? n)) eqn:E; [|done].
  exfalso. apply Hid. apply andb_true_iff in E as [? ?]. f_equal; lia.
Qed.

(** ** The two lists under the updates of the code *)

Lemma ring_ext s s' l :
  prv s' Head = prv s Head → nxt s' Head = nxt s Head →
  length (bufs s') = length (bufs s) →
  (∀ x, x ∈ l → prv s' (Slot x) = prv s (Slot x) ∧ nxt s' (Slot x) = nxt s (Slot x)) →
  ring s l → ring s' l.
Proof.
  cbn [prv nxt]. intros Hp Hn Hlen Hx (D & Hnd & Hb). split; [|split; [done|]].
  - rewrite Hp, Hn. revert D. by apply dlseg_ext.
  - intros x Hin. rewrite Hlen. by apply Hb.
Qed.

Lemma chains_ext s s' buckets :
  head s' = head s → length (bufs s') = length (bufs s) →
  (∀ x, hashnext (slot s' x) = hashnext (slot s x) ∧ blockno (slot s' x) = blockno (slot s x)) →
  chains s buckets → chains s' buckets.
Proof.
  intros Hh Hlen Hx (H1 & H2 & H3 & H4). unfold chains. rewrite Hh, Hlen.
  split; [done|]. split; [done|]. split.
  - intros i Hi. apply (chain_ext (bufs s)); [|by apply H3]. intros x _. apply Hx.
  - intros i x Hi Hin. destruct (H4 i x Hi Hin) as [? ?]. split; [done|].
    destruct (Hx x) as [_ Hb]. unfold slot in Hb. by rewrite Hb.
Qed.

Lemma prv_upd_slot b f s q :
  (∀ bf, prev (f bf) = prev bf) → prv (upd_slot b f s) q = prv s q.
Proof. intros Hf. destruct q; [done|done|]. by apply (slot_upd_slot_field prev). Qed.
Lemma nxt_upd_slot b f s q :
  (∀ bf, next (f bf) = next bf) → nxt (upd_slot b f s) q = nxt s q.
Proof. intros Hf. destruct q; [done|done|]. by apply (slot_upd_slot_field next). Qed.

(** A slot update that keeps the links keeps the free list; one that keeps
    [hashnext] and [blockno] keeps the buckets. *)
Lemma ring_upd_slot b f s l :
  (∀ bf, prev (f bf) = prev bf) → (∀ bf, next (f bf) = next bf) →
  ring s l → ring (upd_slot b f s) l.
Proof.
  intros Hp Hn. apply ring_ext; [done|done|apply length_upd|].
  intros x _. split; [by apply prv_upd_slot|by apply nxt_upd_slot].
Qed.

Lemma chains_upd_slot b f s buckets :
  (∀ bf, hashnext (f bf) = hashnext bf) → (∀ bf, blockno (f bf) = blockno bf) →
  chains s buckets → chains (upd_slot b f s) buckets.
Proof.
  intros Hh Hb. apply chains_ext; [done|apply length_upd|].
  intros x. split; [by apply (slot_upd_slot_field hashnext)|by apply (slot_upd_slot_field blockno)].
Qed.

Lemma ring_log evs s l : ring s l → ring (log evs s) l.
Proof. done. Qed.
Lemma chains_log evs s buckets : chains s buckets → chains (log evs s) buckets.
Proof. done. Qed.
Lemma ring_set_head h p s l : ring s l → ring (set_head h p s) l.
Proof. done. Qed.

Lemma chains_put_prev p v s buckets : chains s buckets → chains (put_prev p v s) buckets.
Proof.
  apply chains_ext; [apply head_put_prev|apply length_put_prev|].
  intros x. split; [by apply (slot_put_prev_field hashnext)|by apply (slot_put_prev_field blockno)].
Qed.
Lemma chains_put_next p v s buckets : chains s buckets → chains (put_next p v s) buckets.
Proof.
  apply chains_ext; [apply head_put_next|apply length_put_next|].
  intros x. split; [by apply (slot_put_next_field hashnext)|by apply (slot_put_next_field blockno)].
Qed.

Lemma chains_unlinked b s buckets : chains s buckets → chains (unlinked b s) buckets.
Proof. intros H. by apply chains_put_next, chains_put_prev. Qed.

Lemma chains_home s buckets i j x :
  chains s buckets → (i < MODNUM)%nat → (j < MODNUM)%nat →
  x ∈ buckets !!! i → x ∈ buckets !!! j → i = j.
Proof.
  intros (_ & _ & _ & H) Hi Hj Hxi Hxj.
  destruct (H i x Hi Hxi) as [_ <-]. by destruct (H j x Hj Hxj) as [_ <-].
Qed.

(** [bhashadd] of a slot that is in no bucket, to the bucket its block
    number selects. *)
Lemma chains_bhashadd s h b buckets :
  chains s buckets → (h < MODNUM)%nat →
  (∀ i, (i < MODNUM)%nat → b ∉ buckets !!! i) →
  (b < length (bufs s))%nat →
  bhashgetline (blockno (slot s b)) = h →
  chains (set_head h (Some b) (upd_slot b (set_hashnext (head s !!! h)) s))
         (<[h := b :: buckets !!! h]> buckets).
Proof.
  intros (H1 & H2 & H3 & H4) Hh Hb Hlen Hhome.
  unfold chains, set_head, upd_slot; cbn [bufs head].
  rewrite !length_insert. split; [done|]. split; [done|]. split.
  - intros i Hi. destruct (decide (i = h)) as [->|Hne].
    + rewrite !list_lookup_total_insert_eq by lia. constructor.
      rewrite list_lookup_total_insert_eq by done. cbn [hashnext set_hashnext].
      apply chain_frame; [by apply H3|by apply Hb].
    + rewrite !list_lookup_total_insert_ne by done.
      apply chain_frame; [by apply H3|by apply Hb].
  - intros i x Hi Hx.
    assert (x = b ∧ i = h ∨ x ≠ b ∧ x ∈ buckets !!! i) as [[-> ->]|[Hxb Hin]].
    { destruct (decide (i = h)) as [->|Hne].
      - rewrite list_lookup_total_insert_eq in Hx by lia.
        apply elem_of_cons in Hx as [->|Hx]; [by left|].
        right. split; [|done]. intros ->. by apply (Hb h).
      - rewrite list_lookup_total_insert_ne in Hx by done.
        right. split; [|done]. intros ->. by apply (Hb i). }
    + split; [done|]. by rewrite list_lookup_total_insert_eq.
    + rewrite list_lookup_total_insert_ne by done. by apply H4.
Qed.

(** [bhashdel] of a slot from the bucket it is in. *)
Lemma chains_bhashdel fuel s h b buckets :
  chains s buckets → (h < MODNUM)%nat → b ∈ buckets !!! h →
  (length (buckets !!! h) ≤ fuel)%nat →
  ∃ s',
    bhashdel fuel h b s = Done tt s' ∧
    chains s' (<[h := unlink b (buckets !!! h)]> buckets) ∧
    length (bufs s') = length (bufs s) ∧
    trace s' = trace s ∧
    (∀ q, prv s' q = prv s q ∧ nxt s' q = nxt s q) ∧
    (∀ x, payload (slot s' x) = payload (slot s x)).
Proof.
  intros Hch Hh Hb Hf. pose proof Hch as (H1 & H2 & H3 & H4).
  destruct (bhashdel_shape fuel h b s (buckets !!! h)) as (s' & Hrun & Hc' & Hshape).
  { by apply H3. } { intros E. rewrite E in Hb. by apply elem_of_nil in Hb. }
  { lia. } { intros x Hx. by apply (H4 h). } { done. }
  exists s'. split; [done|].
  destruct Hshape as [[_ Hnb]|[[_ ->]|(_ & c & Hcl & Hcb & ->)]]; [done| |].
  - split; [|done]. unfold chains, set_head in *; cbn [bufs head] in *.
    rewrite !length_insert. split; [done|]. split; [done|]. split.
    + intros i Hi. destruct (decide (i = h)) as [->|Hne].
      * rewrite (list_lookup_total_insert_eq buckets) by lia. exact Hc'.
      * rewrite (list_lookup_total_insert_ne buckets) by done.
        rewrite list_lookup_total_insert_ne by done. by apply H3.
    + intros i x Hi Hx. apply H4; [done|].
      destruct (decide (i = h)) as [->|Hne].
      * rewrite list_lookup_total_insert_eq in Hx by lia.
        unfold unlink in Hx. by apply list_elem_of_filter in Hx as [_ ?].
      * by rewrite list_lookup_total_insert_ne in Hx.
  - split; [|split; [apply length_upd|split; [done|split]]].
    + unfold chains. rewrite length_upd, length_insert.
      change (head (upd_slot c (set_hashnext (hashnext (slot s b))) s)) with (head s).
      split; [done|]. split; [done|]. split.
      * intros i Hi. destruct (decide (i = h)) as [->|Hne].
        -- by rewrite list_lookup_total_insert_eq by lia.
        -- rewrite list_lookup_total_insert_ne by done.
           unfold upd_slot; cbn [bufs]. apply chain_frame; [by apply H3|].
           intros Hci. apply Hne. by apply (chains_home s buckets i h c).
      * intros i x Hi Hx.
        assert (x ∈ buckets !!! i) as Hx'.
        { destruct (decide (i = h)) as [->|Hne].
          - rewrite list_lookup_total_insert_eq in Hx by lia.
            unfold unlink in Hx. by apply list_elem_of_filter in Hx as [_ ?].
          - by rewrite list_lookup_total_insert_ne in Hx. }
        destruct (H4 i x Hi Hx') as [? Hhome]. split; [done|].
        change (bufs ?s !!! x) with (slot s x).
        rewrite (slot_upd_slot_field blockno) by done. exact Hhome.
    + intros q. split; [by apply prv_upd_slot|by apply nxt_upd_slot].
    + intros x. apply payload_upd_hashnext.
Qed.

(** ** [binit] *)

Lemma bind_Done {A B} (m : M A) (k : A → M B) s a s1 :
  m s = Done a s1 → bind m k s = k a s1.
Proof. intros H. unfold bind. by rewrite H. Qed.

Lemma bind_modify {B} f (k : unit → M B) s : bind (modify f) k s = k tt (f s).
Proof. reflexivity. Qed.
Lemma bind_get {B} (k : state → M B) s : bind get k s = k s s.
Proof. reflexivity. Qed.
Lemma bind_acquire {B} l (k : unit → M B) s : bind (acquire l) k s = k tt (log [EvAcquire l] s).
Proof. reflexivity. Qed.
Lemma bind_release {B} l (k : unit → M B) s : bind (release l) k s = k tt (log [EvRelease l] s).
Proof. reflexivity. Qed.
Lemma bind_ret {A B} (a : A) (k : A → M B) s : bind (ret a) k s = k a s.
Proof. reflexivity. Qed.

Lemma mfor_seq_inv (Inv : nat → state → Prop) body a n s :
  (∀ k s, (a ≤ k < a + n)%nat → Inv k s → ∃ s', body k s = Done tt s' ∧ Inv (S k) s') →
  Inv a s → ∃ s', mfor (seq a n) body s = Done tt s' ∧ Inv (a + n)%nat s'.
Proof.
  revert a s. induction n as [|n IH]; intros a s Hstep Ha.
  - exists s. rewrite Nat.add_0_r. done.
  - destruct (Hstep a s) as (s1 & Hrun & H1); [lia|done|].
    destruct (IH (S a) s1) as (s' & Hrun' & H'); [|done|].
    { intros k s0 Hk. apply Hstep. lia. }
    exists s'. cbn [seq mfor]. rewrite (bind_Done _ _ _ _ _ Hrun).
    split; [done|]. by replace (a + S n)%nat with (S a + n)%nat by lia.
Qed.

Lemma ring_valid_head_next s l : ring s l → valid_link s (head_next s).
Proof.
  intros (D & _ & Hb). destruct (dlseg_first _ _ _ _ _ _ D) as [[_ ->]|(c & l' & -> & -> & _)]; [done|].
  cbn [valid_link]. apply Hb. by left.
Qed.

Lemma binit_body_eq k s :
  valid_link s (head_next s) → (k < length (bufs s))%nat →
  (first <- load_next Head;;
   store_next (Slot k) first;;;
   store_prev (Slot k) Head;;;
   initsleeplock k;;;
   first <- load_next Head;;
   store_prev first (Slot k);;;
   store_next Head (Slot k);;;
   modify (upd_slot k (set_blockno (to_uint (Z.of_nat k))));;;
   s <- get;;
   bhashadd (bhashgetline (blockno (slot s k))) k)%lru s
  = Done tt (binit_step k s).
Proof.
  intros Hf Hk. apply valid_link_not_null in Hf.
  rewrite (bind_Done _ _ _ _ _ (load_next_eq Head s ltac:(done))).
  rewrite (bind_Done _ _ _ _ _ (store_next_eq (Slot k) _ s ltac:(done))).
  rewrite (bind_Done _ _ _ _ _ (store_prev_eq (Slot k) _ _ ltac:(done))).
  unfold initsleeplock. rewrite bind_modify.
  rewrite (bind_Done _ _ _ _ _ (load_next_eq Head _ ltac:(done))).
  cbn [nxt put_prev put_next upd_slot head_next].
  rewrite (bind_Done _ _ _ _ _ (store_prev_eq (head_next s) _ _ ltac:(done))).
  rewrite (bind_Done _ _ _ _ _ (store_next_eq Head _ _ ltac:(done))).
  rewrite bind_modify, bind_get, bhashadd_eq.
  rewrite slot_upd_eq
    by (rewrite length_put_next, length_put_prev, !length_upd; done).
  reflexivity.
Qed.

Lemma binit_buckets_length k : length (binit_buckets k) = MODNUM.
Proof. unfold binit_buckets. by rewrite length_fmap, length_seq. Qed.

Lemma binit_buckets_lookup k i :
  (i < MODNUM)%nat →
  binit_buckets k !!! i =
  reverse (filter (fun b => bhashgetline (to_uint (Z.of_nat b)) = i) (seq 0 k)).
Proof.
  intros Hi. unfold binit_buckets. apply list_lookup_total_correct.
  rewrite list_lookup_fmap, lookup_seq_lt by done. done.
Qed.

Lemma binit_buckets_elem k i x :
  (i < MODNUM)%nat → x ∈ binit_buckets k !!! i →
  (x < k)%nat ∧ bhashgetline (to_uint (Z.of_nat x)) = i.
Proof.
  intros Hi. rewrite binit_buckets_lookup by done.
  rewrite elem_of_reverse, list_elem_of_filter, elem_of_seq. intros [? ?]. split; [lia|done].
Qed.

Lemma binit_buckets_S k :
  binit_buckets (S k) =
  <[bhashgetline (to_uint (Z.of_nat k)) :=
      k :: binit_buckets k !!! bhashgetline (to_uint (Z.of_nat k))]> (binit_buckets k).
Proof.
  apply list_eq_same_length with MODNUM;
    [by rewrite length_insert, binit_buckets_length|apply binit_buckets_length|].
  intros i x y Hi Hx Hy.
  apply list_lookup_total_correct in Hx, Hy. subst x y.
  rewrite binit_buckets_lookup by done.
  rewrite seq_S, filter_app, reverse_app. cbn [Nat.add].
  destruct (decide (i = bhashgetline (to_uint (Z.of_nat k)))) as [->|Hne].
  - rewrite list_lookup_total_insert_eq by (by rewrite binit_buckets_length).
    rewrite filter_cons, decide_True by done. rewrite filter_nil.
    by rewrite binit_buckets_lookup.
  - rewrite list_lookup_total_insert_ne by done.
    rewrite filter_cons, decide_False by done. rewrite filter_nil.
    by rewrite binit_buckets_lookup.
Qed.

Lemma valid_link_length s s' p :
  length (bufs s') = length (bufs s) → valid_link s p → valid_link s' p.
Proof. intros H. destruct p; [done|done|]. cbn [valid_link]. by rewrite H. Qed.

Lemma chains_ext_in s s' buckets :
  head s' = head s → length (bufs s') = length (bufs s) →
  (∀ i x, (i < MODNUM)%nat → x ∈ buckets !!! i →
     hashnext (slot s' x) = hashnext (slot s x) ∧ blockno (slot s' x) = blockno (slot s x)) →
  chains s buckets → chains s' buckets.
Proof.
  intros Hh Hlen Hx (H1 & H2 & H3 & H4). unfold chains. rewrite Hh, Hlen.
  split; [done|]. split; [done|]. split.
  - intros i Hi. apply (chain_ext (bufs s)); [|by apply H3]. intros x Hin. by apply (Hx i).
  - intros i x Hi Hin. destruct (H4 i x Hi Hin) as [? ?]. split; [done|].
    destruct (Hx i x Hi Hin) as [_ Hb]. unfold slot in Hb. by rewrite Hb.
Qed.

Lemma length_binit_step k s : length (bufs (binit_step k s)) = length (bufs s).
Proof.
  unfold binit_step. cbv zeta. unfold set_head; cbn [bufs].
  by rewrite !length_upd, length_put_next, length_put_prev, length_upd,
    length_put_prev, length_put_next.
Qed.

Lemma payload_binit_step k s x :
  (k < length (bufs s))%nat →
  payload (slot (binit_step k s) x) =
  if decide (x = k)
  then (valid (slot s k), dev (slot s k), to_uint (Z.of_nat k), None,
        refcnt (slot s k), data (slot s k))
  else payload (slot s x).
Proof.
  intros Hk. unfold binit_step. cbv zeta. rewrite slot_set_head, payload_upd_hashnext.
  destruct (decide (x = k)) as [->|Hne].
  - rewrite slot_upd_eq by (by rewrite length_put_next, length_put_prev, length_upd,
      length_put_prev, length_put_next).
    unfold payload. cbn [valid dev blockno lock refcnt data set_blockno].
    rewrite !(slot_put_next_field _ Head) by done.
    rewrite !(slot_put_prev_field _ (head_next s)) by done.
    rewrite slot_upd_eq by (by rewrite length_put_prev, length_put_next).
    cbn [valid dev blockno lock refcnt data set_lock].
    rewrite !(slot_put_prev_field _ (Slot k)) by done.
    by rewrite !(slot_put_next_field _ (Slot k)) by done.
  - rewrite slot_upd_ne by done.
    rewrite (slot_put_next_field payload), (slot_put_prev_field payload) by done.
    rewrite slot_upd_ne by done.
    by rewrite (slot_put_prev_field payload), (slot_put_next_field payload) by done.
Qed.

Lemma binit_step_inv NBUF BSIZE k s :
  binit_inv NBUF BSIZE k s → (k < NBUF)%nat →
  binit_inv NBUF BSIZE (S k) (binit_step k s).
Proof.
  intros ((Hring & Hch) & Hlen & Htr & Hdone & Htodo) Hk.
  assert (k < length (bufs s))%nat as Hkl by lia.
  pose proof (ring_valid_head_next _ _ Hring) as Hf.
  assert (head_next s ≠ Slot k) as Hfk.
  { destruct Hring as (D & _ & _).
    destruct (dlseg_first _ _ _ _ _ _ D) as [[_ ->]|(c & l' & Hl & -> & _)]; [done|].
    intros [= ->]. assert (k ∈ reverse (seq 0 k)) as Hin by (rewrite Hl; by left).
    apply elem_of_reverse, elem_of_seq in Hin. lia. }
  split; [split|].
  - (* the free list *)
    rewrite seq_S, reverse_app. cbn [Nat.add reverse app]. change (reverse [k]) with [k]. cbn [app].
    unfold binit_step. cbv zeta.
    apply ring_set_head, ring_upd_slot; [done|done|]. apply ring_upd_slot; [done|done|].
    apply (ring_push s); [done| |done| | | | | | |].
    + rewrite elem_of_reverse, elem_of_seq. lia.
    + by rewrite length_put_next, length_put_prev, length_upd, length_put_prev, length_put_next.
    + done.
    + rewrite prv_put_next, prv_put_prev_ne by done. rewrite prv_upd_slot by done.
      apply prv_put_prev_eq. cbn [valid_link]. by rewrite length_put_next.
    + rewrite nxt_put_next_ne, nxt_put_prev by done. rewrite nxt_upd_slot by done.
      rewrite nxt_put_prev. by apply nxt_put_next_eq.
    + rewrite prv_put_next. apply prv_put_prev_eq.
      apply (valid_link_length s); [|done].
      by rewrite length_upd, length_put_prev, length_put_next.
    + intros q Hq1 Hq2. rewrite prv_put_next, prv_put_prev_ne by done.
      rewrite prv_upd_slot by done. rewrite prv_put_prev_ne by done. apply prv_put_next.
    + intros x Hx. rewrite nxt_put_next_ne, nxt_put_prev by done.
      rewrite nxt_upd_slot by done. rewrite nxt_put_prev. apply nxt_put_next_ne. congruence.
  - (* the buckets *)
    rewrite binit_buckets_S. unfold binit_step. cbv zeta.
    apply chains_bhashadd.
    + revert Hch. apply chains_ext_in.
      * unfold upd_slot; cbn [head]. by rewrite head_put_next, head_put_prev.
      * by rewrite length_upd, length_put_next, length_put_prev, length_upd,
          length_put_prev, length_put_next.
      * intros i x Hi Hx. apply binit_buckets_elem in Hx as [Hx _]; [|done].
        rewrite !slot_upd_ne by lia.
        rewrite (slot_put_next_field hashnext), (slot_put_prev_field hashnext) by done.
        rewrite (slot_put_next_field blockno), (slot_put_prev_field blockno) by done.
        rewrite !slot_upd_ne by lia.
        rewrite (slot_put_prev_field hashnext), (slot_put_next_field hashnext) by done.
        by rewrite (slot_put_prev_field blockno), (slot_put_next_field blockno) by done.
    + apply bhashgetline_lt.
    + intros i Hi Hx. apply binit_buckets_elem in Hx as [Hx _]; [lia|done].
    + by rewrite length_upd, length_put_next, length_put_prev, length_upd,
        length_put_prev, length_put_next.
    + rewrite slot_upd_eq; [done|].
      by rewrite length_put_next, length_put_prev, length_upd, length_put_prev, length_put_next.
  - split; [by rewrite length_binit_step|]. split.
    { unfold binit_step. cbv zeta. unfold set_head, upd_slot; cbn [trace].
      by rewrite trace_put_next, trace_put_prev. }
    split.
    + intros b Hb. rewrite payload_binit_step by done.
      destruct (decide (b = k)) as [->|Hne]; [|apply Hdone; lia].
      specialize (Htodo k ltac:(lia)). unfold payload in Htodo. cbn in Htodo.
      by injection Htodo as -> -> _ _ -> ->.
    + intros b Hb. rewrite payload_binit_step by done.
      rewrite decide_False by lia. apply Htodo. lia.
Qed.

Lemma binit_inv_final NBUF BSIZE :
  ∃ s, binit NBUF (boot NBUF BSIZE) = Done tt s ∧ binit_inv NBUF BSIZE NBUF s.
Proof.
  unfold binit.
  rewrite (bind_Done _ _ _ _ _ (store_prev_eq Head Head _ ltac:(done))).
  rewrite (bind_Done _ _ _ _ _ (store_next_eq Head Head _ ltac:(done))).
  set (s0 := put_next Head Head (put_prev Head Head (boot NBUF BSIZE))).
  apply (mfor_seq_inv (binit_inv NBUF BSIZE)
    (fun b =>
      (first <- load_next Head;;
       store_next (Slot b) first;;;
       store_prev (Slot b) Head;;;
       initsleeplock b;;;
       first <- load_next Head;;
       store_prev first (Slot b);;;
       store_next Head (Slot b);;;
       modify (upd_slot b (set_blockno (to_uint (Z.of_nat b))));;;
       s <- get;;
       bhashadd (bhashgetline (blockno (slot s b))) b)%lru) 0 NBUF s0).
  - intros k s [_ Hk] Hinv. exists (binit_step k s). split.
    + pose proof Hinv as ((Hring & _) & Hlen & _).
      apply binit_body_eq; [by apply (ring_valid_head_next _ _ Hring)|lia].
    + apply binit_step_inv; [done|lia].
  - split; [split|].
    + by apply ring_nil.
    + split; [apply length_replicate|]. split; [apply binit_buckets_length|]. split.
      * intros i Hi. rewrite binit_buckets_lookup by done.
        change (head s0) with (replicate MODNUM (@None nat)).
        rewrite lookup_total_replicate_2 by done. constructor.
      * intros i x Hi Hx. apply binit_buckets_elem in Hx as [Hx _]; [lia|done].
    + split; [apply length_replicate|]. split; [done|]. split; [intros b Hb; lia|].
      intros b Hb. change (slot s0 b) with (replicate NBUF (zero_buf BSIZE) !!! b).
      by rewrite lookup_total_replicate_2 by lia.
Qed.

(** X17.  [binit] returns with every slot on the free list, the last slot of the
    pool in front, and with slot [b] keyed [(0, b)] in the bucket that [b]
    selects, unreferenced, not valid, its sleep-lock free. *)
Theorem binit_builds_lists NBUF BSIZE :
  ∃ s,
    binit NBUF (boot NBUF BSIZE) = Done tt s ∧
    rep s (reverse (seq 0 NBUF)) (binit_buckets NBUF) ∧
    length (bufs s) = NBUF ∧
    trace s = [] ∧
    ∀ b, (b < NBUF)%nat →
      payload (slot s b) = (0, 0, to_uint (Z.of_nat b), None, 0, replicate BSIZE x00).
Proof.
  destruct (binit_inv_final NBUF BSIZE) as (s & Hrun & (Hrep & Hlen & Htr & Hdone & _)).
  exists s. split; [exact Hrun|]. split; [done|]. split; [done|]. split; [done|].
  intros b Hb. apply Hdone. lia.
Qed.

(** ** [brelse] *)

Lemma trace_upd b f s : trace (upd_slot b f s) = trace s.
Proof. reflexivity. Qed.
Lemma trace_logged evs s : trace (log evs s) = trace s ++ evs.
Proof. reflexivity. Qed.
Lemma trace_set_head h p s : trace (set_head h p s) = trace s.
Proof. reflexivity. Qed.
Lemma trace_unlinked b s : trace (unlinked b s) = trace s.
Proof. unfold unlinked. by rewrite trace_put_next, trace_put_prev. Qed.

Lemma length_pushed b s : length (bufs (pushed b s)) = length (bufs s).
Proof.
  unfold pushed. by rewrite length_put_prev, !length_put_next, length_put_prev.
Qed.

Lemma ring_pushed b s l :
  ring s l → b ∉ l → (b < length (bufs s))%nat → ring (pushed b s) (b :: l).
Proof.
  intros Hring Hbl Hb.
  pose proof (ring_valid_head_next _ _ Hring) as Hf.
  assert (head_next s ≠ Slot b) as Hfb.
  { destruct Hring as (D & _ & _).
    destruct (dlseg_first _ _ _ _ _ _ D) as [[_ ->]|(c & l' & -> & -> & _)]; [done|].
    intros [= ->]. apply Hbl. by left. }
  apply (ring_push s); [done|done|done|apply length_pushed|done|..]; unfold pushed.
  - apply prv_put_prev_eq. cbn [valid_link].
    by rewrite !length_put_next, length_put_prev.
  - rewrite nxt_put_prev, nxt_put_next_ne by done. apply nxt_put_next_eq.
    cbn [valid_link]. by rewrite length_put_prev.
  - rewrite prv_put_prev_ne by done. rewrite !prv_put_next. by apply prv_put_prev_eq.
  - intros q Hq1 Hq2. rewrite prv_put_prev_ne by done. rewrite !prv_put_next.
    by apply prv_put_prev_ne.
  - intros x Hx. rewrite nxt_put_prev, nxt_put_next_ne by done.
    rewrite nxt_put_next_ne by congruence. apply nxt_put_prev.
Qed.

Lemma chains_pushed b s buckets : chains s buckets → chains (pushed b s) buckets.
Proof. intros H. unfold pushed. by apply chains_put_prev, chains_put_next, chains_put_next, chains_put_prev. Qed.

Lemma payload_pushed b s x : payload (slot (pushed b s) x) = payload (slot s x).
Proof.
  unfold pushed.
  rewrite (slot_put_prev_field payload), !(slot_put_next_field payload) by done.
  by rewrite (slot_put_prev_field payload).
Qed.

Lemma trace_pushed b s : trace (pushed b s) = trace s.
Proof. unfold pushed. by rewrite trace_put_prev, !trace_put_next, trace_put_prev. Qed.

Lemma push_eq {B} b (k : unit → M B) s :
  valid_link s (head_next s) →
  (first <- load_next Head;;
   store_prev first (Slot b);;;
   first <- load_next Head;;
   store_next (Slot b) first;;;
   store_next Head (Slot b);;;
   store_prev (Slot b) Head;;;
   k tt)%lru s = k tt (pushed b s).
Proof.
  intros Hf%valid_link_not_null.
  rewrite (bind_Done _ _ _ _ _ (load_next_eq Head s ltac:(done))).
  rewrite (bind_Done _ _ _ _ _ (store_prev_eq (head_next s) _ s ltac:(done))).
  rewrite (bind_Done _ _ _ _ _ (load_next_eq Head _ ltac:(done))).
  rewrite nxt_put_prev. cbn [nxt].
  rewrite (bind_Done _ _ _ _ _ (store_next_eq (Slot b) _ _ ltac:(done))).
  rewrite (bind_Done _ _ _ _ _ (store_next_eq Head _ _ ltac:(done))).
  rewrite (bind_Done _ _ _ _ _ (store_prev_eq (Slot b) _ _ ltac:(done))).
  reflexivity.
Qed.

Lemma brelse_eq pid b s :
  lock (slot s b) = Some pid → valid_link s (head_next s) →
  brelse pid b s = Done tt (brelse_state b s).
Proof.
  intros Hl Hf. unfold brelse. rewrite bind_get.
  unfold holdingsleep. rewrite bool_decide_true by done. cbn [negb].
  unfold releasesleep. rewrite bind_modify, bind_get.
  rewrite (slot_upd_slot_field blockno) by done.
  rewrite bind_acquire, bind_modify, bind_get.
  unfold brelse_state. cbv zeta.
  set (s2 := upd_slot b _ _).
  destruct (refcnt (slot s2 b) =? 0); [|reflexivity].
  erewrite bind_Done; [reflexivity|].
  rewrite bind_acquire. apply (push_eq b (fun _ => release bcache_lock)).
  revert Hf. apply valid_link_length. unfold s2, log; cbn [bufs].
  rewrite length_upd. cbn [bufs]. apply length_upd.
Qed.

(** X18.  [brelse] by the process that holds the slot returns; the reference count
    goes down by one; when it reaches zero the slot is put in front of the
    free list, under [bcache.lock], and otherwise the free list is as
    before.  The buckets, and the fields of the other slots, are as before;
    the lock of the slot's bucket is held throughout. *)
Theorem brelse_pushes_on_last_release pid b s l :
  ring s l →
  (b < length (bufs s))%nat →
  lock (slot s b) = Some pid →
  0 ≤ refcnt (slot s b) ≤ UINT_MAX →
  (refcnt (slot s b) = 1 → b ∉ l) →
  ∃ s',
    brelse pid b s = Done tt s' ∧
    ring s' (if decide (refcnt (slot s b) = 1) then b :: l else l) ∧
    (∀ buckets, chains s buckets → chains s' buckets) ∧
    payload (slot s' b) =
      (valid (slot s b), dev (slot s b), blockno (slot s b), None,
       to_uint (refcnt (slot s b) - 1), data (slot s b)) ∧
    (∀ x, x ≠ b → payload (slot s' x) = payload (slot s x)) ∧
    length (bufs s') = length (bufs s) ∧
    trace s' =
      trace s ++ [EvAcquire (hash_lock (bhashgetline (blockno (slot s b))))] ++
      (if decide (refcnt (slot s b) = 1)
       then [EvAcquire bcache_lock; EvRelease bcache_lock] else []) ++
      [EvRelease (hash_lock (bhashgetline (blockno (slot s b))))].
Proof.
  intros Hring Hb Hl Hrange Hbl. exists (brelse_state b s).
  split; [apply brelse_eq; [done|by apply (ring_valid_head_next _ _ Hring)]|].
  unfold brelse_state. cbv zeta.
  set (h := bhashgetline (blockno (slot s b))).
  set (s2 := upd_slot b _ _).
  assert (length (bufs s2) = length (bufs s)) as Hlen2.
  { unfold s2. rewrite length_upd. apply length_upd. }
  assert (payload (slot s2 b) =
      (valid (slot s b), dev (slot s b), blockno (slot s b), None,
       to_uint (refcnt (slot s b) - 1), data (slot s b))) as Hpay.
  { unfold s2. rewrite slot_upd_eq by (cbn [log bufs]; by rewrite length_upd).
    change (slot (log ?e ?x) b) with (slot x b).
    rewrite slot_upd_eq by done. reflexivity. }
  assert (∀ x, x ≠ b → payload (slot s2 x) = payload (slot s x)) as Hpayx.
  { intros x Hx. unfold s2. rewrite slot_upd_ne by done.
    change (slot (log ?e ?x0) x) with (slot x0 x). by rewrite slot_upd_ne. }
  assert (ring s2 l) as Hring2.
  { unfold s2. apply ring_upd_slot; [done|done|]. apply ring_log. by apply ring_upd_slot. }
  assert (∀ buckets, chains s buckets → chains s2 buckets) as Hch2.
  { intros buckets Hch. unfold s2. apply chains_upd_slot; [done|done|].
    apply chains_log. by apply chains_upd_slot. }
  assert (refcnt (slot s2 b) = to_uint (refcnt (slot s b) - 1)) as Hr.
  { unfold payload in Hpay. by injection Hpay. }
  assert (trace s2 = trace s ++ [EvAcquire (hash_lock h)]) as Htr2 by reflexivity.
  assert ((to_uint (refcnt (slot s b) - 1) =? 0) = bool_decide (refcnt (slot s b) = 1)) as Hz.
  { unfold to_uint, UINT_MAX in *. case_bool_decide as Hd.
    - rewrite Hd. done.
    - apply Z.eqb_neq. intros Hm.
      destruct (decide (refcnt (slot s b) = 0)) as [E0|E0].
      + rewrite E0 in Hm. done.
      + rewrite Z.mod_small in Hm by lia. lia. }
  rewrite Hr, Hz.
  destruct (decide (refcnt (slot s b) = 1)) as [Hone|Hone].
  - rewrite bool_decide_true by done.
    split. { apply ring_log, ring_log, ring_pushed; [by apply ring_log|by apply Hbl|].
             cbn [log bufs]. by rewrite Hlen2. }
    split. { intros buckets Hch. by apply chains_log, chains_log, chains_pushed, chains_log, Hch2. }
    assert (∀ x, payload (slot (log [EvRelease (hash_lock h)] (log [EvRelease bcache_lock]
              (pushed b (log [EvAcquire bcache_lock] s2)))) x) = payload (slot s2 x)) as Hp.
    { intros x. change (slot (log ?e (log ?e' ?y)) x) with (slot y x).
      by rewrite payload_pushed. }
    split; [by rewrite Hp|].
    split; [intros x Hx; rewrite Hp; by apply Hpayx|].
    split; [cbn [log bufs]; by rewrite length_pushed|].
    rewrite !trace_logged, trace_pushed, trace_logged, Htr2. by rewrite <- !app_assoc.
  - rewrite bool_decide_false by done.
    split; [done|]. split; [done|]. split; [done|]. split; [done|]. split; [done|].
    rewrite trace_logged, Htr2. by rewrite <- !app_assoc.
Qed.

(** ** [bget] *)

Lemma payload_tuple a va d b l r da :
  payload a = (va, d, b, l, r, da) →
  valid a = va ∧ dev a = d ∧ blockno a = b ∧ lock a = l ∧ refcnt a = r ∧ data a = da.
Proof. unfold payload. by intros [= ? ? ? ? ? ?]. Qed.

Lemma payload_fields a b :
  payload a = payload b →
  valid a = valid b ∧ dev a = dev b ∧ blockno a = blockno b ∧ lock a = lock b ∧
  refcnt a = refcnt b ∧ data a = data b.
Proof. unfold payload. intros [= -> -> -> -> -> ->]. done. Qed.

Lemma ring_links_valid s l1 b l2 :
  ring s (l1 ++ b :: l2) → prv s (Slot b) ≠ Null ∧ nxt s (Slot b) ≠ Null.
Proof.
  intros (D & _ & _). apply dlseg_app in D as (m & q & D1 & D2).
  cbn [dlseg] in D2. destruct D2 as (-> & Hp & D2). cbn [prv nxt]. unfold slot. split.
  - rewrite Hp. by destruct (dlseg_last _ _ _ _ _ _ D1) as [[_ ->]|(? & ? & _ & -> & _)].
  - by destruct (dlseg_first _ _ _ _ _ _ D2) as [[_ ->]|(? & ? & _ & -> & _)].
Qed.

Lemma acquiresleep_free pid b s :
  lock (slot s b) = None → acquiresleep pid b s = Done tt (upd_slot b (set_lock (Some pid)) s).
Proof. intros H. unfold acquiresleep. by rewrite H. Qed.

Lemma bget_hit_eq fuel env pid d n s l b :
  chain (bufs s) (head s !!! bhashgetline n) l → (length l < fuel)%nat →
  first_match (bufs s) l d n = Some b →
  bget fuel env pid d n s =
  (let h := bhashgetline n in
   (if refcnt (slot s b) =? 0
    then acquire bcache_lock;;; unlink_hit b;;; release bcache_lock
    else ret tt);;;
   modify (upd_slot b (fun bf => set_refcnt (to_uint (refcnt bf + 1)) bf));;;
   release (hash_lock h);;;
   release (hash_new_lock h);;;
   acquiresleep pid b;;;
   ret b)%lru (log [EvAcquire (hash_lock (bhashgetline n))]
                (log [EvAcquire (hash_new_lock (bhashgetline n))] s)).
Proof.
  intros Hc Hf Hm. unfold bget. cbv zeta. rewrite !bind_acquire.
  erewrite bind_Done; [|by apply (bhashget_eq _ _ _ _ _ l)].
  cbn [log bufs]. rewrite Hm. by rewrite bind_get.
Qed.

(** X19.  A hit: [bget] returns the first slot of the bucket with the identity
    asked for, with one more reference and its sleep-lock taken by the
    caller.  A slot that was unreferenced is taken out of the free list,
    under [bcache.lock]; the buckets and the other slots are as before.  The
    two locks of the bucket are held throughout and released in reverse
    order. *)
Theorem bget_hit_takes_off_free_list fuel env pid d n s free buckets b :
  rep s free buckets →
  first_match (bufs s) (buckets !!! bhashgetline n) d n = Some b →
  (length (buckets !!! bhashgetline n) < fuel)%nat →
  lock (slot s b) = None →
  (refcnt (slot s b) = 0 → b ∈ free) →
  ∃ s',
    bget fuel env pid d n s = Done b s' ∧
    rep s' (if decide (refcnt (slot s b) = 0) then unlink b free else free) buckets ∧
    payload (slot s' b) =
      (valid (slot s b), d, n, Some pid, to_uint (refcnt (slot s b) + 1), data (slot s b)) ∧
    (∀ x, x ≠ b → payload (slot s' x) = payload (slot s x)) ∧
    length (bufs s') = length (bufs s) ∧
    trace s' =
      trace s ++
      [EvAcquire (hash_new_lock (bhashgetline n)); EvAcquire (hash_lock (bhashgetline n))] ++
      (if decide (refcnt (slot s b) = 0)
       then [EvAcquire bcache_lock; EvRelease bcache_lock] else []) ++
      [EvRelease (hash_lock (bhashgetline n)); EvRelease (hash_new_lock (bhashgetline n))].
Proof.
  intros [Hring Hch] Hm Hf Hl Hfree.
  pose proof Hch as (H1 & H2 & H3 & H4).
  pose proof (bhashgetline_lt n) as Hh.
  destruct (first_match_Some _ _ _ _ _ Hm) as (Hbin & Hd & Hn).
  destruct (H4 _ _ Hh Hbin) as [Hb _].
  rewrite (bget_hit_eq fuel env pid d n s (buckets !!! bhashgetline n) b) by (done || by apply H3).
  cbv zeta. set (h := bhashgetline n).
  set (s0 := log [EvAcquire (hash_lock h)] (log [EvAcquire (hash_new_lock h)] s)).
  change (slot s0 b) with (slot s b).
  (* the state after the free list is dealt with *)
  assert (∃ s1,
    (if refcnt (slot s b) =? 0
     then acquire bcache_lock;;; unlink_hit b;;; release bcache_lock
     else ret tt)%lru s0 = Done tt s1 ∧
    ring s1 (if decide (refcnt (slot s b) = 0) then unlink b free else free) ∧
    chains s1 buckets ∧
    (∀ x, payload (slot s1 x) = payload (slot s x)) ∧
    length (bufs s1) = length (bufs s) ∧
    trace s1 = trace s0 ++
      (if decide (refcnt (slot s b) = 0)
       then [EvAcquire bcache_lock; EvRelease bcache_lock] else []))
    as (s1 & Hrun1 & Hring1 & Hch1 & Hpay1 & Hlen1 & Htr1).
  { destruct (decide (refcnt (slot s b) = 0)) as [Hz|Hz].
    - rewrite Hz. cbn [Z.eqb].
      destruct (list_elem_of_split _ _ (Hfree Hz)) as (l1 & l2 & ->).
      destruct (ring_links_valid _ _ _ _ Hring) as [Hp Hnx].
      exists (log [EvRelease bcache_lock] (unlinked b (log [EvAcquire bcache_lock] s0))).
      split.
      { rewrite bind_acquire. erewrite bind_Done; [reflexivity|].
        by apply unlink_hit_eq. }
      destruct Hring as (D & Hnd & Hbd). rewrite unlink_middle by done.
      split. { apply ring_log. apply ring_unlinked. done. }
      split. { by apply chains_log, chains_unlinked. }
      split.
      { intros x. change (slot (log ?e ?y) x) with (slot y x). unfold unlinked.
        rewrite (slot_put_next_field payload), (slot_put_prev_field payload) by done. done. }
      split.
      + cbn [log bufs]. unfold unlinked. by rewrite length_put_next, length_put_prev.
      + rewrite trace_logged, trace_unlinked, trace_logged. by rewrite <- app_assoc.
    - apply Z.eqb_neq in Hz as ->. exists s0. by rewrite app_nil_r. }
  rewrite (bind_Done _ _ _ _ _ Hrun1).
  rewrite bind_modify, !bind_release.
  set (s2 := log _ (log _ (upd_slot b _ s1))).
  assert (payload (slot s2 b) =
    (valid (slot s b), d, n, None, to_uint (refcnt (slot s b) + 1), data (slot s b))) as Hpay2.
  { unfold s2. change (slot (log ?e (log ?e' ?y)) b) with (slot y b).
    rewrite slot_upd_eq by lia.
    destruct (payload_fields _ _ (Hpay1 b)) as (Ev & Ed & Eb & El & Er & Eda).
    unfold payload. cbn [valid dev blockno lock refcnt data set_refcnt].
    rewrite Ev, Ed, Eb, El, Er, Eda, Hl. unfold slot. by rewrite Hd, Hn. }
  assert (lock (slot s2 b) = None) as Hl2 by (unfold payload in Hpay2; by injection Hpay2).
  rewrite (bind_Done _ _ _ _ _ (acquiresleep_free pid b s2 Hl2)).
  eexists. split; [reflexivity|].
  split; [split|].
  - apply ring_upd_slot; [done|done|]. unfold s2. apply ring_log, ring_log.
    by apply ring_upd_slot.
  - apply chains_upd_slot; [done|done|]. unfold s2. apply chains_log, chains_log.
    by apply chains_upd_slot.
  - split.
    { rewrite slot_upd_eq by (unfold s2; cbn [log bufs]; rewrite length_upd; lia).
      unfold payload in *. cbn [valid dev blockno lock refcnt data set_lock].
      by injection Hpay2 as -> -> -> _ -> ->. }
    split.
    { intros x Hx. rewrite slot_upd_ne by done. unfold s2.
      change (slot (log ?e (log ?e' ?y)) x) with (slot y x).
      rewrite slot_upd_ne by done. apply Hpay1. }
    split; [rewrite length_upd; unfold s2; cbn [log bufs]; by rewrite length_upd|].
    rewrite trace_upd. unfold s2. rewrite !trace_logged, trace_upd, Htr1.
    unfold s0. rewrite !trace_logged. by rewrite <- !app_assoc.
Qed.

Lemma bget_miss_eq fuel env pid d n s l :
  chain (bufs s) (head s !!! bhashgetline n) l → (length l < fuel)%nat →
  first_match (bufs s) l d n = None →
  bget fuel env pid d n s =
  bget_recycle fuel env 0 pid (bhashgetline n) d n
    (log [EvRelease (hash_lock (bhashgetline n))]
      (log [EvAcquire (hash_lock (bhashgetline n))]
        (log [EvAcquire (hash_new_lock (bhashgetline n))] s))).
Proof.
  intros Hc Hf Hm. unfold bget. cbv zeta. rewrite !bind_acquire.
  erewrite bind_Done; [|by apply (bhashget_eq _ _ _ _ _ l)].
  cbn [log bufs]. rewrite Hm. by rewrite bind_release.
Qed.

Lemma bget_recycle_S fuel env round pid h d n s :
  bget_recycle (S fuel) env round pid h d n s =
  match head_prev s with
  | Head => Panic "bget: no buffers" s
  | Null => NullDeref
  | Slot b =>
      let oh := bhashgetline (blockno (slot s b)) in
      (found <- bhashget (S fuel) oh (dev (slot s b)) (blockno (slot s b));;
       match found with
       | None =>
           release (hash_lock oh);;;
           modify (env round);;;
           bget_recycle fuel env (S round) pid h d n
       | Some _ =>
           s <- get;;
           if negb (refcnt (slot s b) =? 0)
           then release (hash_lock oh);;;
                modify (env round);;;
                bget_recycle fuel env (S round) pid h d n
           else
             acquire bcache_lock;;;
             unlink_miss b;;;
             release bcache_lock;;;
             bhashdel (S fuel) oh b;;;
             release (hash_lock oh);;;
             modify (upd_slot b (set_dev d));;;
             modify (upd_slot b (set_blockno n));;;
             modify (upd_slot b (set_valid 0));;;
             modify (upd_slot b (set_refcnt 1));;;
             acquire (hash_lock h);;;
             bhashadd h b;;;
             release (hash_lock h);;;
             release (hash_new_lock h);;;
             acquiresleep pid b;;;
             ret b
       end)%lru (log [EvAcquire (hash_lock oh)] s)
  end.
Proof.
  cbn [bget_recycle]. rewrite bind_get. destruct (head_prev s); reflexivity.
Qed.

Ltac len :=
  cbn [log set_head bufs];
  rewrite ?length_upd, ?length_put_next, ?length_put_prev;
  cbn [log set_head bufs];
  rewrite ?length_upd, ?length_put_next, ?length_put_prev;
  try done; try lia.

Lemma ring_links s s' l :
  (∀ q, prv s' q = prv s q ∧ nxt s' q = nxt s q) →
  length (bufs s') = length (bufs s) → ring s l → ring s' l.
Proof.
  intros H Hlen. apply ring_ext; [apply H|apply H|done|]. intros x _. apply H.
Qed.

(** The loop of a miss when the least recently released slot is free to
    take. *)
Lemma recycle_tail fuel env round pid d n s free v buckets :
  rep s (free ++ [v]) buckets →
  v ∈ buckets !!! bhashgetline (blockno (slot s v)) →
  refcnt (slot s v) = 0 →
  lock (slot s v) = None →
  (∀ i, (i < MODNUM)%nat → (length (buckets !!! i) < fuel)%nat) →
  let h := bhashgetline n in
  let oh := bhashgetline (blockno (slot s v)) in
  let B := <[oh := unlink v (buckets !!! oh)]> buckets in
  ∃ s',
    bget_recycle fuel env round pid h d n s = Done v s' ∧
    rep s' free (<[h := v :: B !!! h]> B) ∧
    payload (slot s' v) = (0, d, n, Some pid, 1, data (slot s v)) ∧
    (∀ x, x ≠ v → payload (slot s' x) = payload (slot s x)) ∧
    length (bufs s') = length (bufs s) ∧
    trace s' =
      trace s ++
      [EvAcquire (hash_lock oh); EvAcquire bcache_lock; EvRelease bcache_lock;
       EvRelease (hash_lock oh); EvAcquire (hash_lock h); EvRelease (hash_lock h);
       EvRelease (hash_new_lock h)].
Proof.
  intros [Hring Hch] Hv Hr Hl Hfuel h oh B.
  pose proof Hch as (H1 & H2 & H3 & H4).
  pose proof (bhashgetline_lt n) as Hh. fold h in Hh.
  pose proof (bhashgetline_lt (blockno (slot s v))) as Hoh. fold oh in Hoh, Hv.
  destruct (H4 _ _ Hoh Hv) as [Hvlen _].
  destruct fuel as [|fuel]; [specialize (Hfuel _ Hh); lia|].
  rewrite bget_recycle_S, (ring_tail _ _ _ Hring). cbv zeta. fold oh.
  set (sa := log [EvAcquire (hash_lock oh)] s).
  erewrite bind_Done; [|apply (bhashget_eq _ _ _ _ _ (buckets !!! oh)); [by apply H3|by apply Hfuel]].
  destruct (first_match_in (bufs s) _ _ Hv) as [x Hx].
  change (bufs sa) with (bufs s). unfold slot at 1 2. rewrite Hx.
  rewrite bind_get. change (slot sa v) with (slot s v). rewrite Hr. cbn [Z.eqb negb].
  rewrite bind_acquire.
  destruct (ring_links_valid _ _ _ _ Hring) as [Hp Hnx].
  erewrite bind_Done; [|by apply unlink_miss_eq].
  rewrite bind_release.
  set (sb := log [EvRelease bcache_lock] (unlinked v (log [EvAcquire bcache_lock] sa))).
  assert (ring sb free) as Hring_b.
  { unfold sb. apply ring_log. rewrite <- (app_nil_r free). by apply ring_unlinked. }
  assert (chains sb buckets) as Hch_b.
  { unfold sb. by apply chains_log, chains_unlinked. }
  assert (∀ y, payload (slot sb y) = payload (slot s y)) as Hpay_b.
  { intros y. unfold sb. change (slot (log ?e ?t) y) with (slot t y). unfold unlinked.
    by rewrite (slot_put_next_field payload), (slot_put_prev_field payload). }
  assert (length (bufs sb) = length (bufs s)) as Hlen_b.
  { unfold sb, unlinked. len. }
  destruct (chains_bhashdel (S fuel) sb oh v buckets Hch_b Hoh Hv)
    as (sc & Hrun_c & Hch_c & Hlen_c & Htr_c & Hlinks_c & Hpay_c).
  { specialize (Hfuel _ Hoh). lia. }
  rewrite (bind_Done _ _ _ _ _ Hrun_c). fold B in Hch_c.
  assert (ring sc free) as Hring_c by (by apply (ring_links sb)).
  rewrite bind_release, !bind_modify, bind_acquire.
  rewrite (bind_Done _ _ _ _ _ (bhashadd_eq _ _ _)).
  rewrite !bind_release.
  set (sd := upd_slot v (set_refcnt 1) (upd_slot v (set_valid 0)
               (upd_slot v (set_blockno n) (upd_slot v (set_dev d)
                 (log [EvRelease (hash_lock oh)] sc))))).
  assert (length (bufs sd) = length (bufs s)) as Hlen_d.
  { unfold sd. len. }
  assert (payload (slot sd v) = (0, d, n, None, 1, data (slot s v))) as Hpay_d.
  { unfold sd. rewrite slot_upd_eq by len. rewrite slot_upd_eq by len.
    rewrite slot_upd_eq by len. rewrite slot_upd_eq by len.
    change (slot (log ?e ?t) v) with (slot t v).
    destruct (payload_fields _ _ (Hpay_c v)) as (_ & _ & _ & El & _ & Eda).
    destruct (payload_fields _ _ (Hpay_b v)) as (_ & _ & _ & El' & _ & Eda').
    unfold payload. cbn [valid dev blockno lock refcnt data set_refcnt set_valid set_blockno set_dev].
    by rewrite El, El', Eda, Eda', Hl. }
  assert (∀ y, y ≠ v → slot sd y = slot sc y) as Hslot_d.
  { intros y Hy. unfold sd. by rewrite !slot_upd_ne by done. }
  assert (∀ i, (i < MODNUM)%nat → v ∉ B !!! i) as HvB.
  { intros i Hi Hin. unfold B in Hin. destruct (decide (i = oh)) as [->|Hne].
    - rewrite list_lookup_total_insert_eq in Hin by lia.
      unfold unlink in Hin. apply list_elem_of_filter in Hin as [Hin _]. by apply Hin.
    - rewrite list_lookup_total_insert_ne in Hin by done.
      apply Hne. by apply (chains_home s buckets i oh v). }
  assert (ring sd free) as Hring_d.
  { unfold sd. do 4 (apply ring_upd_slot; [done|done|]). by apply ring_log. }
  assert (chains sd B) as Hch_d.
  { revert Hch_c. apply chains_ext_in; [done|unfold sd; len|].
    intros i y Hi Hy. rewrite Hslot_d; [done|]. intros ->. by apply (HvB i). }
  set (se := log [EvAcquire (hash_lock h)] sd).
  set (sf := set_head h (Some v) (upd_slot v (set_hashnext (head se !!! h)) se)).
  assert (chains sf (<[h := v :: B !!! h]> B)) as Hch_f.
  { unfold sf. apply chains_bhashadd; [by apply chains_log|done|done|unfold se; len|].
    change (slot se v) with (slot sd v).
    destruct (payload_tuple _ _ _ _ _ _ _ Hpay_d) as (_ & _ & Eb & _).
    by rewrite Eb. }
  assert (ring sf free) as Hring_f.
  { unfold sf. apply ring_set_head, ring_upd_slot; [done|done|]. by apply ring_log. }
  set (sg := log [EvRelease (hash_new_lock h)] (log [EvRelease (hash_lock h)] sf)).
  assert (∀ y, payload (slot sg y) = payload (slot sd y)) as Hpay_g.
  { intros y. unfold sg, sf. change (slot (log ?e (log ?e' (set_head ?a ?b ?t))) y) with (slot t y).
    rewrite payload_upd_hashnext. done. }
  assert (length (bufs sg) = length (bufs s)) as Hlen_g.
  { unfold sg, sf, se. len. }
  assert (lock (slot sg v) = None) as Hl_g.
  { destruct (payload_fields _ _ (Hpay_g v)) as (_ & _ & _ & El & _).
    destruct (payload_tuple _ _ _ _ _ _ _ Hpay_d) as (_ & _ & _ & El' & _).
    by rewrite El, El'. }
  rewrite (bind_Done _ _ _ _ _ (acquiresleep_free pid v sg Hl_g)).
  eexists. split; [reflexivity|].
  split; [split|].
  - apply ring_upd_slot; [done|done|]. unfold sg. by apply ring_log, ring_log.
  - apply chains_upd_slot; [done|done|]. unfold sg. by apply chains_log, chains_log.
  - split.
    { rewrite slot_upd_eq by lia.
      destruct (payload_fields _ _ (Hpay_g v)) as (Ev & Ed & Eb & _ & Er & Eda).
      unfold payload. cbn [valid dev blockno lock refcnt data set_lock].
      rewrite Ev, Ed, Eb, Er, Eda.
      destruct (payload_tuple _ _ _ _ _ _ _ Hpay_d) as (Ev' & Ed' & Eb' & _ & Er' & Eda').
      by rewrite Ev', Ed', Eb', Er', Eda'. }
    split.
    { intros y Hy. rewrite slot_upd_ne by done. rewrite Hpay_g, Hslot_d by done.
      by rewrite Hpay_c, Hpay_b. }
    split; [by rewrite length_upd|].
    rewrite trace_upd. unfold sg, sf, se, sd.
    rewrite !trace_logged, trace_set_head, trace_upd, trace_logged, !trace_upd, trace_logged.
    rewrite Htr_c. unfold sb, sa.
    rewrite trace_logged, trace_unlinked, !trace_logged. by rewrite <- !app_assoc.
Qed.

(** X20.  A miss: [bget] takes the slot at the least recently released end of the
    free list, [head.prev], when that slot is unreferenced: the slot leaves
    the free list and its old bucket, gets the new identity, one reference
    and the caller as holder of its sleep-lock, is not valid, and is the
    first slot of the bucket of the block asked for.  The admission lock of
    that bucket is held from the lookup to the end; the lock of the old
    bucket is held while the slot is unlinked. *)
Theorem bget_miss_recycles_tail fuel env pid d n s free v buckets :
  rep s (free ++ [v]) buckets →
  first_match (bufs s) (buckets !!! bhashgetline n) d n = None →
  v ∈ buckets !!! bhashgetline (blockno (slot s v)) →
  refcnt (slot s v) = 0 →
  lock (slot s v) = None →
  (∀ i, (i < MODNUM)%nat → (length (buckets !!! i) < fuel)%nat) →
  let h := bhashgetline n in
  let oh := bhashgetline (blockno (slot s v)) in
  let B := <[oh := unlink v (buckets !!! oh)]> buckets in
  ∃ s',
    bget fuel env pid d n s = Done v s' ∧
    rep s' free (<[h := v :: B !!! h]> B) ∧
    payload (slot s' v) = (0, d, n, Some pid, 1, data (slot s v)) ∧
    (∀ x, x ≠ v → payload (slot s' x) = payload (slot s x)) ∧
    length (bufs s') = length (bufs s) ∧
    trace s' =
      trace s ++
      [EvAcquire (hash_new_lock h); EvAcquire (hash_lock h); EvRelease (hash_lock h);
       EvAcquire (hash_lock oh); EvAcquire bcache_lock; EvRelease bcache_lock;
       EvRelease (hash_lock oh); EvAcquire (hash_lock h); EvRelease (hash_lock h);
       EvRelease (hash_new_lock h)].
Proof.
  intros Hrep Hm Hv Hr Hl Hfuel h oh B.
  pose proof Hrep as [_ (_ & _ & H3 & _)].
  rewrite (bget_miss_eq fuel env pid d n s (buckets !!! bhashgetline n));
    [|apply H3, bhashgetline_lt|apply Hfuel, bhashgetline_lt|done].
  set (s0 := log _ (log _ (log _ s))).
  destruct (recycle_tail fuel env 0 pid d n s0 free v buckets)
    as (s' & Hrun & Hrep' & Hpay & Hpay' & Hlen & Htr);
    [by destruct Hrep|done|done|done|done|].
  exists s'. split; [done|]. split; [done|]. split; [done|]. split; [done|]. split; [done|].
  rewrite Htr. unfold s0. rewrite !trace_logged. by rewrite <- !app_assoc.
Qed.

(** X21.  A miss with the free list empty panics with "bget: no buffers"; the
    admission lock of the bucket is still held then. *)
Theorem bget_empty_free_list_panics fuel env pid d n s l :
  ring s [] →
  chain (bufs s) (head s !!! bhashgetline n) l →
  first_match (bufs s) l d n = None →
  (length l < fuel)%nat →
  bget fuel env pid d n s =
  Panic "bget: no buffers"
    (log [EvAcquire (hash_new_lock (bhashgetline n));
          EvAcquire (hash_lock (bhashgetline n));
          EvRelease (hash_lock (bhashgetline n))] s).
Proof.
  intros [_ Hp]%ring_nil Hc Hm Hf.
  rewrite (bget_miss_eq fuel env pid d n s l) by done.
  destruct fuel as [|fuel]; [lia|].
  rewrite bget_recycle_S. cbn [log head_prev]. rewrite Hp.
  unfold log; cbn [bufs head_prev head_next head trace]. by rewrite <- !app_assoc.
Qed.

Lemma bhashget_from_miss bs p l d n fuel :
  chain bs p l → first_match bs l d n = None →
  bhashget_from fuel bs p d n = None ∨ bhashget_from fuel bs p d n = Some None.
Proof.
  intros Hc. revert fuel. induction Hc as [|b l Hc IH]; intros fuel Hm.
  - destruct fuel; [by left|by right].
  - destruct fuel as [|fuel]; [by left|]. cbn [first_match] in Hm. cbn [bhashget_from].
    destruct (_ && _); [done|]. by apply IH.
Qed.

Lemma recycle_spins fuel round pid h d n s v :
  head_prev s = Slot v → refcnt (slot s v) ≠ 0 →
  bget_recycle fuel quiet round pid h d n s = OutOfFuel.
Proof.
  revert round s. induction fuel as [|fuel IH]; intros round s Hp Hr; [done|].
  rewrite bget_recycle_S, Hp. cbv zeta.
  unfold bind at 1. unfold bhashget.
  destruct (bhashget_from _ _ _ _ _) as [[x|]|]; [| |done].
  - rewrite bind_get. change (slot (log ?e s) v) with (slot s v).
    pose proof Hr as ->%Z.eqb_neq. cbn [negb].
    rewrite bind_release, bind_modify. apply IH; [exact Hp|exact Hr].
  - rewrite bind_release, bind_modify. apply IH; [exact Hp|exact Hr].
Qed.

(** X22.  The loop of a miss looks at [head.prev] only: while that slot is
    referenced and no other process changes the state, [bget] does not
    return, whatever else is on the free list. *)
Theorem bget_miss_spins_on_referenced_tail fuel pid d n s v l :
  head_prev s = Slot v →
  refcnt (slot s v) ≠ 0 →
  chain (bufs s) (head s !!! bhashgetline n) l →
  first_match (bufs s) l d n = None →
  bget fuel quiet pid d n s = OutOfFuel.
Proof.
  intros Hp Hr Hc Hm. unfold bget. cbv zeta. rewrite !bind_acquire.
  unfold bind at 1. unfold bhashget. cbn [log bufs head].
  destruct (bhashget_from_miss _ _ _ _ _ fuel Hc Hm) as [-> | ->]; [done|].
  rewrite bind_release. apply (recycle_spins _ _ _ _ _ _ _ v); [exact Hp|exact Hr].
Qed.

(** ** [bpin] and [bunpin] *)

(** X23.  [bpin] and [bunpin] change the reference count of the slot, by one
    modulo 2^32, and nothing else: the free list and the buckets are as
    before.  So a slot whose last reference [bunpin] drops is not put on the
    free list, as [brelse] would do. *)
Theorem pin_unpin_keep_lists b s free buckets :
  rep s free buckets →
  (b < length (bufs s))%nat →
  ∃ s1 s2,
    bpin b s = Done tt s1 ∧ bunpin b s = Done tt s2 ∧
    rep s1 free buckets ∧ rep s2 free buckets ∧
    slot s1 b = set_refcnt (to_uint (refcnt (slot s b) + 1)) (slot s b) ∧
    slot s2 b = set_refcnt (to_uint (refcnt (slot s b) - 1)) (slot s b) ∧
    (∀ x, x ≠ b → slot s1 x = slot s x ∧ slot s2 x = slot s x).
Proof.
  intros [Hring Hch] Hb.
  eexists _, _. split; [reflexivity|]. split; [reflexivity|].
  split; [|split].
  - split.
    + apply ring_log, ring_upd_slot; [done|done|]. by apply ring_log.
    + apply chains_log, chains_upd_slot; [done|done|]. by apply chains_log.
  - split.
    + apply ring_log, ring_upd_slot; [done|done|]. by apply ring_log.
    + apply chains_log, chains_upd_slot; [done|done|]. by apply chains_log.
  - change (slot (log ?e (upd_slot ?b ?f (log ?e' ?t))) ?x) with (slot (upd_slot b f t) x).
    rewrite !slot_upd_eq by done.
    split; [done|]. split; [done|].
    intros x Hx.
    change (slot (log ?e (upd_slot ?b ?f (log ?e' ?t))) ?x) with (slot (upd_slot b f t) x).
    by rewrite !slot_upd_ne.
Qed.

(** ** Examples *)

Lemma rep_init3 : rep init3 [2; 1; 0]%nat (binit_buckets 3).
Proof.
  destruct (binit_inv_final 3 1) as (s & Hrun & (Hrep & _)).
  assert (s = init3) as <-; [|exact Hrep].
  assert (binit 3 (boot 3 1) = Done tt init3) as E by (vm_compute; reflexivity).
  rewrite E in Hrun. by injection Hrun.
Qed.

Lemma rep_init20 : rep init20 (reverse (seq 0 20)) (binit_buckets 20).
Proof.
  destruct (binit_inv_final 20 1) as (s & Hrun & (Hrep & _)).
  assert (s = init20) as <-; [|exact Hrep].
  assert (binit 20 (boot 20 1) = Done tt init20) as E by (vm_compute; reflexivity).
  rewrite E in Hrun. by injection Hrun.
Qed.

Ltac ring_by_computation :=
  split; [vm_compute; repeat split
         |split; [repeat (apply NoDup_cons; split; [not_held|]); apply NoDup_nil_2
                 |let x := fresh in let H := fresh in
                  intros x H; in_list H; vm_compute; lia]].

Ltac chain_by_computation :=
  repeat (vm_compute; first [apply chain_nil | apply chain_cons]).

Lemma bhashdel_chain_witness :
  ∃ s',
    bhashdel 2 0 0 init20 = Done tt s' ∧
    chain (bufs s') (head s' !!! 0%nat) [19%nat] ∧
    payload (slot s' 0) = payload (slot init20 0).
Proof.
  destruct (bhashdel_chain 2 0 0 init20 [19; 0]%nat) as (s' & Hrun & Hc & _ & _ & Hpay & _).
  - chain_by_computation.
  - vm_compute. lia.
  - intros x Hx. in_list Hx; vm_compute; lia.
  - simpl. lia.
  - exists s'. split; [exact Hrun|]. split; [exact Hc|]. apply Hpay.
Defined.

Lemma bhashadd_then_bhashget_witness :
  ∃ s',
    bhashadd 0 1 init20 = Done tt s' ∧
    chain (bufs s') (head s' !!! 0%nat) [1; 19; 0]%nat ∧
    bhashget 4 0 0 1 s' = Done (Some 1%nat) s'.
Proof.
  destruct (bhashadd_then_bhashget 0 1 init20 [19; 0]%nat) as (s' & Hrun & Hc & _ & _ & Hget).
  - chain_by_computation.
  - not_held.
  - vm_compute. lia.
  - vm_compute. lia.
  - exists s'. split; [exact Hrun|]. split; [exact Hc|]. exact Hget.
Defined.

Lemma bhashadd_twice_loops_witness :
  bind (bhashadd 0 19) (fun _ => bind (bhashadd 0 19) (fun _ => bhashget 1000 0 0 38)) init20
  = OutOfFuel.
Proof.
  apply (bhashadd_twice_loops 1000 0 19 init20 0 38).
  - vm_compute. lia.
  - vm_compute. lia.
  - vm_compute. discriminate.
Defined.

Lemma brelse_pushes_on_last_release_witness :
  ∃ s',
    brelse 7 1 held3 = Done tt s' ∧
    ring s' [1; 2; 0]%nat ∧
    payload (slot s' 1) = (0, 0, 1, None, 0, [x00]).
Proof.
  destruct (brelse_pushes_on_last_release 7 1 held3 [2; 0]%nat) as (s' & Hrun & Hring & _ & Hpay & _).
  - ring_by_computation.
  - vm_compute. lia.
  - reflexivity.
  - vm_compute. split; discriminate.
  - intros _. not_held.
  - exists s'. split; [exact Hrun|]. split; [exact Hring|]. exact Hpay.
Defined.

Lemma bget_hit_takes_off_free_list_witness :
  ∃ s',
    bget 3 quiet 7 0 1 init3 = Done 1%nat s' ∧
    rep s' [2; 0]%nat (binit_buckets 3) ∧
    payload (slot s' 1) = (0, 0, 1, Some 7, 1, [x00]).
Proof.
  destruct (bget_hit_takes_off_free_list 3 quiet 7 0 1 init3 [2; 1; 0]%nat (binit_buckets 3) 1)
    as (s' & Hrun & Hrep & Hpay & _).
  - apply rep_init3.
  - reflexivity.
  - vm_compute. lia.
  - reflexivity.
  - intros _. apply elem_of_cons. right. by left.
  - exists s'. split; [exact Hrun|]. split; [exact Hrep|]. exact Hpay.
Defined.

Lemma bget_miss_recycles_tail_witness :
  ∃ s',
    bget 4 quiet 7 1 20 init3 = Done 0%nat s' ∧
    rep s' [2; 1]%nat
      (<[1%nat := [0; 1]%nat]> (<[0%nat := []]> (binit_buckets 3))) ∧
    payload (slot s' 0) = (0, 1, 20, Some 7, 1, [x00]).
Proof.
  destruct (bget_miss_recycles_tail 4 quiet 7 1 20 init3 [2; 1]%nat 0 (binit_buckets 3))
    as (s' & Hrun & Hrep & Hpay & _).
  - apply rep_init3.
  - reflexivity.
  - vm_compute. by left.
  - reflexivity.
  - reflexivity.
  - intros i Hi. rewrite binit_buckets_lookup by done.
    rewrite length_reverse.
    apply Nat.le_lt_trans with (length (seq 0 3)); [apply length_filter|simpl; lia].
  - exists s'. split; [exact Hrun|]. split; [exact Hrep|]. exact Hpay.
Defined.

Lemma bget_empty_free_list_panics_witness :
  bget 1 quiet 7 1 20 init0 =
  Panic "bget: no buffers"
    (log [EvAcquire (hash_new_lock 1); EvAcquire (hash_lock 1); EvRelease (hash_lock 1)] init0).
Proof.
  apply (bget_empty_free_list_panics 1 quiet 7 1 20 init0 []).
  - ring_by_computation.
  - chain_by_computation.
  - reflexivity.
  - simpl. lia.
Defined.

Lemma bget_miss_spins_on_referenced_tail_witness :
  bget 1000 quiet 7 1 20 pinned3 = OutOfFuel.
Proof.
  apply (bget_miss_spins_on_referenced_tail 1000 7 1 20 pinned3 0 [1%nat]).
  - reflexivity.
  - vm_compute. discriminate.
  - chain_by_computation.
  - reflexivity.
Defined.

Lemma pin_unpin_keep_lists_witness :
  ∃ s1 s2,
    bpin 0 init3 = Done tt s1 ∧ bunpin 0 init3 = Done tt s2 ∧
    rep s1 [2; 1; 0]%nat (binit_buckets 3) ∧ rep s2 [2; 1; 0]%nat (binit_buckets 3) ∧
    refcnt (slot s1 0) = 1 ∧ refcnt (slot s2 0) = UINT_MAX.
Proof.
  destruct (pin_unpin_keep_lists 0 init3 [2; 1; 0]%nat (binit_buckets 3))
    as (s1 & s2 & H1 & H2 & R1 & R2 & C1 & C2 & _).
  - apply rep_init3.
  - vm_compute. lia.
  - exists s1, s2. split; [exact H1|]. split; [exact H2|]. split; [exact R1|].
    split; [exact R2|]. rewrite C1, C2. split; reflexivity.
Defined.

End FreeList.
